(** * Verification of the data-structure library

    A shallow embedding of [hashtable.c], the doubly linked list
    ([DLL_*], [DLL_HT_*]), the resource allocation graph ([RAG_*]) and
    [stack.c], the properties the specification states about them, and
    further properties read off the code.

    Conventions of the embedding.
    - A C pointer is an address in [Z]; [NULL] is [0].  [void*] keys and
      values are such addresses.
    - [size_t] is a [Z] in [0, 2^64); [++], [--] and [*] wrap ([wrap]).
    - A bucket chain of the hash table is the list of its nodes from the
      bucket head along [next]; a node is its [key] and [value] fields.
      Chain nodes are private to the table, so their addresses are not
      modelled.
    - Nodes of a doubly linked list and nodes of the graph are shared by
      address (the index of the keyed list points at list nodes, graph
      edges point at graph nodes), so they live in explicit memories
      ([gmap Z _]) and are linked by their [prev]/[next] fields.
    - Stack nodes and the [size_t] cells of a counter table live in
      memories of their own as well.
    - A read or write through an address that holds no node is a fault:
      the operation returns [None].
    - [assert]ed arguments are preconditions of the theorems.
    - A caller-supplied [free] function is its address; invoking it is
      recorded as a [call] in the trace the operation returns. *)

From stdpp Require Import base numbers option list gmap.

Local Open Scope Z_scope.

(** ** Pointers and [size_t] *)

Abbreviation ptr := Z (only parsing).
Definition NULL : ptr := 0.

Definition SIZE_WIDTH : Z := 64.
Definition wrap (n : Z) : Z := n mod 2 ^ SIZE_WIDTH.

(** [(double)n] for a [size_t] [n], as the integer the double denotes:
    exact below [2^53], rounded to nearest (ties to even) on 53 bits
    above. *)
Definition double_of_size (n : Z) : Z :=
  if n <? 2 ^ 53 then n
  else
    let e := Z.log2 n - 52 in
    let q := n / 2 ^ e in
    let r := n mod 2 ^ e in
    let half := 2 ^ (e - 1) in
    if r <? half then q * 2 ^ e
    else if half <? r then (q + 1) * 2 ^ e
    else if Z.even q then q * 2 ^ e
    else (q + 1) * 2 ^ e.

(** hashtable.h *)
Definition INITIAL_TABLE_SIZE : Z := 49.
Definition MAX_LOAD_FACTOR : Z := 1.     (* the double 1.0 *)
Definition GROWTH_FACTOR : Z := 2.

(** ** Calls to caller-supplied free functions *)

Record call := Call { call_fn : ptr; call_arg : ptr }.

Global Instance call_eq_dec : EqDecision call.
Proof. solve_decision. Defined.

(** [if (f) f(p);] *)
Definition call_if (f : ptr) (p : ptr) : list call :=
  if f =? NULL then [] else [Call f p].

(** [if (f && p) f(p);] *)
Definition call_if_both (f : ptr) (p : ptr) : list call :=
  if (f =? NULL) || (p =? NULL) then [] else [Call f p].

(** ** hashtable.c *)

Record ht_node := HtNode { ht_key : ptr; ht_value : ptr }.

Global Instance ht_node_eq_dec : EqDecision ht_node.
Proof. solve_decision. Defined.

Record hashtable := Hashtable {
  ht_size : Z;
  ht_n_values : Z;
  ht_compare : ptr → ptr → Z;
  ht_hash : ptr → Z;
  ht_table : list (list ht_node)
}.

Definition set_table (t : list (list ht_node)) (ht : hashtable) : hashtable :=
  Hashtable (ht_size ht) (ht_n_values ht) (ht_compare ht) (ht_hash ht) t.
Definition set_n_values (n : Z) (ht : hashtable) : hashtable :=
  Hashtable (ht_size ht) n (ht_compare ht) (ht_hash ht) (ht_table ht).
Definition set_size (s : Z) (ht : hashtable) : hashtable :=
  Hashtable s (ht_n_values ht) (ht_compare ht) (ht_hash ht) (ht_table ht).

(** [table[i]]: the chain hanging off bucket [i]. *)
Definition bucket (t : list (list ht_node)) (i : Z) : list ht_node :=
  default [] (t !! Z.to_nat i).

(** [_initialise_table]: every bucket is [NULL]. *)
Definition _initialise_table (size : Z) : list (list ht_node) :=
  replicate (Z.to_nat size) [].

Definition ht_create (size : Z) (compare : ptr → ptr → Z) (hash : ptr → Z)
  : hashtable :=
  Hashtable size 0 compare hash (_initialise_table size).

Definition ht_get_index (ht : hashtable) (key : ptr) : Z :=
  ht_hash ht key mod ht_size ht.

(** The loop of [ht_get_node] over one chain: the first node whose key
    compares equal to [key]. *)
Fixpoint chain_get_node (cmp : ptr → ptr → Z) (key : ptr)
    (chain : list ht_node) : option ht_node :=
  match chain with
  | [] => None
  | node :: rest =>
      if cmp (ht_key node) key =? 0 then Some node
      else chain_get_node cmp key rest
  end.

(** The argument pairs of the [compare] calls that loop makes, in order. *)
Fixpoint chain_compare_calls (cmp : ptr → ptr → Z) (key : ptr)
    (chain : list ht_node) : list (ptr * ptr) :=
  match chain with
  | [] => []
  | node :: rest =>
      (ht_key node, key) ::
      (if cmp (ht_key node) key =? 0 then []
       else chain_compare_calls cmp key rest)
  end.

Definition ht_get_node (ht : hashtable) (key : ptr) : option ht_node :=
  chain_get_node (ht_compare ht) key
    (bucket (ht_table ht) (ht_get_index ht key)).

Definition ht_compare_calls (ht : hashtable) (key : ptr) : list (ptr * ptr) :=
  chain_compare_calls (ht_compare ht) key
    (bucket (ht_table ht) (ht_get_index ht key)).

Definition ht_search (ht : hashtable) (key : ptr) : ptr :=
  match ht_get_node ht key with
  | Some node => ht_value node
  | None => NULL
  end.

Definition ht_get_key (ht : hashtable) (key : ptr) : ptr :=
  match ht_get_node ht key with
  | Some node => ht_key node
  | None => NULL
  end.

Definition ht_contains (ht : hashtable) (key : ptr) : bool :=
  match ht_get_node ht key with
  | Some _ => true
  | None => false
  end.

(** [node->value = value] on the node [ht_get_node] returns. *)
Fixpoint chain_set_value (cmp : ptr → ptr → Z) (key value : ptr)
    (chain : list ht_node) : list ht_node :=
  match chain with
  | [] => []
  | node :: rest =>
      if cmp (ht_key node) key =? 0 then HtNode (ht_key node) value :: rest
      else node :: chain_set_value cmp key value rest
  end.

Definition _needs_resize (ht : hashtable) : bool :=
  double_of_size (ht_size ht) * MAX_LOAD_FACTOR
    <=? double_of_size (ht_n_values ht).

(** [_ht_copy_insert]: relink [node] at the head of its new bucket. *)
Definition _ht_copy_insert (new_size : Z) (hash : ptr → Z)
    (new_table : list (list ht_node)) (node : ht_node) : list (list ht_node) :=
  let index := hash (ht_key node) mod new_size in
  <[Z.to_nat index := node :: bucket new_table index]> new_table.

(** [_copy_ht]: buckets in index order, each chain from its head. *)
Definition _copy_ht (new_table : list (list ht_node)) (src_ht : hashtable)
    (new_size : Z) : list (list ht_node) :=
  foldl (λ nt chain, foldl (_ht_copy_insert new_size (ht_hash src_ht)) nt chain)
        new_table (take (Z.to_nat (ht_size src_ht)) (ht_table src_ht)).

Definition _resize_ht (ht : hashtable) : hashtable :=
  let new_size := wrap (ht_size ht * GROWTH_FACTOR) in
  let new_table := _copy_ht (_initialise_table new_size) ht new_size in
  set_table new_table (set_size new_size ht).

Definition ht_insert (ht : hashtable) (key value : ptr) : hashtable :=
  let index := ht_get_index ht key in
  match ht_get_node ht key with
  | Some _ =>
      set_table (<[Z.to_nat index :=
                    chain_set_value (ht_compare ht) key value
                      (bucket (ht_table ht) index)]> (ht_table ht)) ht
  | None =>
      let ht1 :=
        set_n_values (wrap (ht_n_values ht + 1))
          (set_table (<[Z.to_nat index :=
                         HtNode key value :: bucket (ht_table ht) index]>
                        (ht_table ht)) ht) in
      if _needs_resize ht1 then _resize_ht ht1 else ht1
  end.

Definition ht_unique_insert (ht : hashtable) (key value : ptr)
  : hashtable * bool :=
  if ht_contains ht key then (ht, false)
  else (ht_insert ht key value, true).

(** The splice of [ht_remove] on one chain.  At the node found, the
    successor's fields are copied into the node and the successor is
    freed, or, without a successor, the node's fields are cleared and the
    node stays.  Returns the chain and the old node (its [old_key] and
    [old_value]). *)
Fixpoint chain_remove (cmp : ptr → ptr → Z) (key : ptr)
    (chain : list ht_node) : option (list ht_node * ht_node) :=
  match chain with
  | [] => None
  | node :: rest =>
      if cmp (ht_key node) key =? 0 then
        match rest with
        | next_node :: rest' =>
            Some (HtNode (ht_key next_node) (ht_value next_node) :: rest', node)
        | [] => Some ([HtNode NULL NULL], node)
        end
      else
        match chain_remove cmp key rest with
        | Some (rest', old) => Some (node :: rest', old)
        | None => None
        end
  end.

Definition ht_remove (ht : hashtable) (key : ptr) (free_key free_value : ptr)
  : hashtable * list call :=
  let index := ht_get_index ht key in
  match chain_remove (ht_compare ht) key (bucket (ht_table ht) index) with
  | Some (chain', old) =>
      (set_n_values (wrap (ht_n_values ht - 1))
         (set_table (<[Z.to_nat index := chain']> (ht_table ht)) ht),
       call_if_both free_key (ht_key old)
         ++ call_if_both free_value (ht_value old))
  | None => (ht, [])
  end.

(** The frees of one node in [ht_reset] and [ht_clean]. *)
Definition node_frees (free_key free_value : ptr) (node : ht_node) : list call :=
  call_if free_key (ht_key node) ++ call_if free_value (ht_value node).

Definition table_frees (free_key free_value : ptr) (ht : hashtable) : list call :=
  concat (map (λ chain, concat (map (node_frees free_key free_value) chain))
              (take (Z.to_nat (ht_size ht)) (ht_table ht))).

Definition ht_reset (ht : hashtable) (free_key free_value : ptr)
  : hashtable * list call :=
  (set_n_values 0
     (set_table (replicate (Z.to_nat (ht_size ht)) []
                   ++ drop (Z.to_nat (ht_size ht)) (ht_table ht)) ht),
   table_frees free_key free_value ht).

(** [ht_clean] leaves no table behind, only the calls it made. *)
Definition ht_clean (ht : hashtable) (free_key free_value : ptr) : list call :=
  table_frees free_key free_value ht.

(** ** Memory and [malloc] *)

(** [malloc] returns an address that is not [NULL] and holds no node. *)
Definition malloc {A} (m : gmap Z A) : ptr := fresh ({[NULL]} ∪ dom m).

(** ** dlinkedlist.c: the plain list *)

Record DLL_node := DllNode { dll_data : ptr; dll_prev : ptr; dll_next : ptr }.

Record DLL_t := Dll { dll_head : ptr; dll_tail : ptr }.

Definition dll_mem := gmap Z DLL_node.

Definition DLL_create : DLL_t := Dll NULL NULL.

Definition set_dll_prev (p : ptr) (n : DLL_node) : DLL_node :=
  DllNode (dll_data n) p (dll_next n).
Definition set_dll_next (p : ptr) (n : DLL_node) : DLL_node :=
  DllNode (dll_data n) (dll_prev n) p.

(** [a->field = v] on a list node. *)
Definition dll_write (f : DLL_node → DLL_node) (a : ptr) (m : gmap Z DLL_node)
  : option (gmap Z DLL_node) :=
  n ← m !! a; Some (<[a := f n]> m).

Definition DLL_insert_head (m : gmap Z DLL_node) (dll : DLL_t) (data : ptr)
  : option (gmap Z DLL_node * DLL_t) :=
  let node := malloc m in
  let m1 := <[node := DllNode data NULL (dll_head dll)]> m in
  m2 ← (if dll_head dll =? NULL then Some m1
        else dll_write (set_dll_prev node) (dll_head dll) m1);
  Some (m2, Dll node (if dll_tail dll =? NULL then node else dll_tail dll)).

Definition DLL_insert_tail (m : gmap Z DLL_node) (dll : DLL_t) (data : ptr)
  : option (gmap Z DLL_node * DLL_t) :=
  let node := malloc m in
  let m1 := <[node := DllNode data (dll_tail dll) NULL]> m in
  m2 ← (if dll_tail dll =? NULL then Some m1
        else dll_write (set_dll_next node) (dll_tail dll) m1);
  Some (m2, Dll (if dll_head dll =? NULL then node else dll_head dll) node).

Definition DLL_pop (m : gmap Z DLL_node) (dll : DLL_t)
  : option (gmap Z DLL_node * DLL_t * ptr) :=
  if dll_head dll =? NULL then Some (m, dll, NULL)
  else
    let node := dll_head dll in
    n ← m !! node;
    let head' := dll_next n in
    m1 ← (if head' =? NULL then Some m
          else dll_write (set_dll_prev NULL) head' m);
    let tail' := if node =? dll_tail dll then NULL else dll_tail dll in
    n1 ← m1 !! node;
    Some (delete node m1, Dll head' tail', dll_data n1).

Definition DLL_dequeue (m : gmap Z DLL_node) (dll : DLL_t)
  : option (gmap Z DLL_node * DLL_t * ptr) :=
  if dll_tail dll =? NULL then Some (m, dll, NULL)
  else
    let node := dll_tail dll in
    n ← m !! node;
    let tail' := dll_prev n in
    m1 ← (if tail' =? NULL then Some m
          else dll_write (set_dll_next NULL) tail' m);
    let head' := if node =? dll_head dll then NULL else dll_head dll in
    n1 ← m1 !! node;
    Some (delete node m1, Dll head' tail', dll_data n1).

(** [while (dll->head)] of [DLL_clean].  Every round frees a node, so
    [size m] rounds of fuel are never used up. *)
Fixpoint DLL_clean_loop (fuel : nat) (m : gmap Z DLL_node) (dll : DLL_t)
    (free_data : ptr) : option (gmap Z DLL_node * list call) :=
  if dll_head dll =? NULL then Some (m, [])
  else
    match fuel with
    | O => None
    | S fuel' =>
        '(m1, dll1, data) ← DLL_pop m dll;
        '(m2, calls) ← DLL_clean_loop fuel' m1 dll1 free_data;
        Some (m2, call_if free_data data ++ calls)
    end.

Definition DLL_clean (m : gmap Z DLL_node) (dll : DLL_t) (free_data : ptr)
  : option (gmap Z DLL_node * list call) :=
  DLL_clean_loop (size m) m dll free_data.

Definition DLL_is_empty (dll : DLL_t) : bool :=
  (dll_head dll =? NULL) && (dll_tail dll =? NULL).

(** [for (node = head; node; node = node->next)]: the [data] of the nodes
    visited.  A list that closes a cycle never ends the loop; within one
    memory a walk of more than [size m] nodes is such a cycle. *)
Fixpoint DLL_walk (fuel : nat) (m : gmap Z DLL_node) (node : ptr)
  : option (list ptr) :=
  if node =? NULL then Some []
  else
    match fuel with
    | O => None
    | S fuel' =>
        n ← m !! node;
        ds ← DLL_walk fuel' m (dll_next n);
        Some (dll_data n :: ds)
    end.

Definition DLL_elements (m : gmap Z DLL_node) (dll : DLL_t) : option (list ptr) :=
  DLL_walk (size m) m (dll_head dll).

(** ** dlinkedlist.c: the keyed list (list + index) *)

Record DLL_HT_t := DllHt { dh_list : DLL_t; dh_ht : hashtable }.

Definition DLL_HT_create (cmp : ptr → ptr → Z) (hash : ptr → Z) : DLL_HT_t :=
  DllHt DLL_create (ht_create INITIAL_TABLE_SIZE cmp hash).

Definition DLL_HT_insert (m : gmap Z DLL_node) (dll_ht : DLL_HT_t)
    (key data : ptr) : option (gmap Z DLL_node * DLL_HT_t) :=
  if ht_contains (dh_ht dll_ht) key then Some (m, dll_ht)
  else
    '(m1, list1) ← DLL_insert_tail m (dh_list dll_ht) data;
    let node := dll_tail list1 in
    Some (m1, DllHt list1 (ht_unique_insert (dh_ht dll_ht) key node).1).

Definition DLL_HT_remove (m : gmap Z DLL_node) (dll_ht : DLL_HT_t)
    (key : ptr) (free_data : ptr)
  : option (gmap Z DLL_node * DLL_HT_t * list call) :=
  let node := ht_search (dh_ht dll_ht) key in
  let list0 := dh_list dll_ht in
  (* Disconnect prev *)
  n ← m !! node;
  '(m1, list1) ←
    (if dll_prev n =? NULL then Some (m, Dll (dll_next n) (dll_tail list0))
     else m' ← dll_write (set_dll_next (dll_next n)) (dll_prev n) m;
          Some (m', list0));
  (* Disconnect next *)
  n1 ← m1 !! node;
  '(m2, list2) ←
    (if dll_next n1 =? NULL then Some (m1, Dll (dll_head list1) (dll_prev n1))
     else m' ← dll_write (set_dll_prev (dll_prev n1)) (dll_next n1) m1;
          Some (m', list1));
  (* Remove from hashtable *)
  let ht' := (ht_remove (dh_ht dll_ht) key NULL NULL).1 in
  n2 ← m2 !! node;
  Some (delete node m2, DllHt list2 ht', call_if free_data (dll_data n2)).

Definition DLL_HT_clean (m : gmap Z DLL_node) (dll_ht : DLL_HT_t)
    (free_key free_data : ptr) : option (gmap Z DLL_node * list call) :=
  '(m1, calls) ← DLL_clean m (dh_list dll_ht) free_data;
  Some (m1, calls ++ ht_clean (dh_ht dll_ht) free_key NULL).

(** ** RAG.c *)

Inductive type_t := PROCESS_T | RESOURCE_T.

Inductive status_t :=
  ADDED_NODE | UPDATED_NEXT | UPDATED_DATA | UPDATED_NEXT_DATA | NO_UPDATE.

Global Instance type_t_eq_dec : EqDecision type_t.
Proof. solve_decision. Defined.
Global Instance status_t_eq_dec : EqDecision status_t.
Proof. solve_decision. Defined.

Record ckey := CKey { ck_type : type_t; ck_id : ptr }.

Record RAG_node := RagNode {
  rn_key : ptr;
  rn_data : ptr;
  rn_prev : ptr;     (* _prev *)
  rn_next : ptr
}.

Record RAG_t := Rag {
  rag_ht : hashtable;
  proc_key_list : DLL_t;
  res_key_list : DLL_t;
  n_processes : Z;
  n_resources : Z
}.

(** The objects a graph refers to: its order-list nodes, its graph nodes
    and the caller's composite keys. *)
Record memory := Memory {
  mem_dll : gmap Z DLL_node;
  mem_nodes : gmap Z RAG_node;
  mem_keys : gmap Z ckey
}.

Definition RAG_create (cmp : ptr → ptr → Z) (hash : ptr → Z) : RAG_t :=
  Rag (ht_create INITIAL_TABLE_SIZE cmp hash) DLL_create DLL_create 0 0.

Definition RAG_increment (rag : RAG_t) (type : type_t) : RAG_t :=
  match type with
  | PROCESS_T =>
      Rag (rag_ht rag) (proc_key_list rag) (res_key_list rag)
          (wrap (n_processes rag + 1)) (n_resources rag)
  | RESOURCE_T =>
      Rag (rag_ht rag) (proc_key_list rag) (res_key_list rag)
          (n_processes rag) (wrap (n_resources rag + 1))
  end.

Definition RAG_decrement (rag : RAG_t) (type : type_t) : RAG_t :=
  match type with
  | PROCESS_T =>
      if 0 <? n_processes rag then
        Rag (rag_ht rag) (proc_key_list rag) (res_key_list rag)
            (wrap (n_processes rag - 1)) (n_resources rag)
      else rag
  | RESOURCE_T =>
      if 0 <? n_resources rag then
        Rag (rag_ht rag) (proc_key_list rag) (res_key_list rag)
            (n_processes rag) (wrap (n_resources rag - 1))
      else rag
  end.

Definition _RAG_create_node (nodes : gmap Z RAG_node) (key data next : ptr)
  : gmap Z RAG_node * ptr :=
  let node := malloc nodes in
  (<[node := RagNode key data NULL next]> nodes, node).

Definition _RAG_DLL_insert (m : memory) (rag : RAG_t) (key : ptr)
  : option (memory * RAG_t) :=
  k ← mem_keys m !! key;
  match ck_type k with
  | PROCESS_T =>
      '(d, l) ← DLL_insert_tail (mem_dll m) (proc_key_list rag) key;
      Some (Memory d (mem_nodes m) (mem_keys m),
            Rag (rag_ht rag) l (res_key_list rag)
                (n_processes rag) (n_resources rag))
  | RESOURCE_T =>
      '(d, l) ← DLL_insert_tail (mem_dll m) (res_key_list rag) key;
      Some (Memory d (mem_nodes m) (mem_keys m),
            Rag (rag_ht rag) (proc_key_list rag) l
                (n_processes rag) (n_resources rag))
  end.

(** The creation path shared by [RAG_insert] and [RAG_hard_insert]. *)
Definition RAG_add_node (m : memory) (rag : RAG_t) (key data next : ptr)
  : option (memory * RAG_t * status_t) :=
  let '(nodes1, node) := _RAG_create_node (mem_nodes m) key data next in
  let ht1 := (ht_unique_insert (rag_ht rag) key node).1 in
  let m1 := Memory (mem_dll m) nodes1 (mem_keys m) in
  let rag1 := Rag ht1 (proc_key_list rag) (res_key_list rag)
                  (n_processes rag) (n_resources rag) in
  '(m2, rag2) ← _RAG_DLL_insert m1 rag1 key;
  n ← mem_nodes m2 !! node;
  k ← mem_keys m2 !! rn_key n;
  Some (m2, RAG_increment rag2 (ck_type k), ADDED_NODE).

Definition set_rn_next (p : ptr) (n : RAG_node) : RAG_node :=
  RagNode (rn_key n) (rn_data n) (rn_prev n) p.
Definition set_rn_data (p : ptr) (n : RAG_node) : RAG_node :=
  RagNode (rn_key n) p (rn_prev n) (rn_next n).
Definition set_rn_prev (p : ptr) (n : RAG_node) : RAG_node :=
  RagNode (rn_key n) (rn_data n) p (rn_next n).

Definition set_mem_nodes (nodes : gmap Z RAG_node) (m : memory) : memory :=
  Memory (mem_dll m) nodes (mem_keys m).

Definition RAG_insert (m : memory) (rag : RAG_t) (key data next : ptr)
  : option (memory * RAG_t * status_t) :=
  match ht_get_node (rag_ht rag) key with
  | None => RAG_add_node m rag key data next
  | Some ht_node =>
      let node := ht_value ht_node in
      n ← mem_nodes m !! node;
      if ((negb (next =? NULL)) && (rn_next n =? NULL))
           && ((negb (data =? NULL)) && (rn_data n =? NULL)) then
        Some (set_mem_nodes
                (<[node := set_rn_data data (set_rn_next next n)]> (mem_nodes m)) m,
              rag, UPDATED_NEXT_DATA)
      else if (negb (next =? NULL)) && (rn_next n =? NULL) then
        Some (set_mem_nodes (<[node := set_rn_next next n]> (mem_nodes m)) m,
              rag, UPDATED_NEXT)
      else if (negb (data =? NULL)) && (rn_data n =? NULL) then
        Some (set_mem_nodes (<[node := set_rn_data data n]> (mem_nodes m)) m,
              rag, UPDATED_DATA)
      else Some (m, rag, NO_UPDATE)
  end.

Definition RAG_hard_insert (m : memory) (rag : RAG_t) (key data next : ptr)
  : option (memory * RAG_t * status_t) :=
  match ht_get_node (rag_ht rag) key with
  | None => RAG_add_node m rag key data next
  | Some ht_node =>
      let node := ht_value ht_node in
      n ← mem_nodes m !! node;
      if (negb (next =? NULL)) && (negb (data =? NULL)) then
        Some (set_mem_nodes
                (<[node := set_rn_data data (set_rn_next next n)]> (mem_nodes m)) m,
              rag, UPDATED_NEXT_DATA)
      else if negb (next =? NULL) then
        Some (set_mem_nodes (<[node := set_rn_next next n]> (mem_nodes m)) m,
              rag, UPDATED_NEXT)
      else if negb (data =? NULL) then
        Some (set_mem_nodes (<[node := set_rn_data data n]> (mem_nodes m)) m,
              rag, UPDATED_DATA)
      else Some (m, rag, NO_UPDATE)
  end.

(** One round of either loop of [RAG_convert_to_undirected], at the list
    node holding [key]. *)
Definition undirected_visit (ht : hashtable) (nodes : gmap Z RAG_node)
    (key : ptr) : option (gmap Z RAG_node) :=
  let RAG_node := ht_search ht key in
  n ← nodes !! RAG_node;
  if rn_next n =? NULL then Some nodes
  else
    t ← nodes !! rn_next n;
    Some (<[rn_next n := set_rn_prev RAG_node t]> nodes).

Fixpoint undirected_loop (fuel : nat) (ht : hashtable) (dll : gmap Z DLL_node)
    (nodes : gmap Z RAG_node) (node : ptr) : option (gmap Z RAG_node) :=
  if node =? NULL then Some nodes
  else
    match fuel with
    | O => None
    | S fuel' =>
        n ← dll !! node;
        nodes' ← undirected_visit ht nodes (dll_data n);
        undirected_loop fuel' ht dll nodes' (dll_next n)
    end.

Definition RAG_convert_to_undirected (m : memory) (rag : RAG_t)
  : option memory :=
  let fuel := size (mem_dll m) in
  nodes1 ← undirected_loop fuel (rag_ht rag) (mem_dll m) (mem_nodes m)
             (dll_head (proc_key_list rag));
  nodes2 ← undirected_loop fuel (rag_ht rag) (mem_dll m) nodes1
             (dll_head (res_key_list rag));
  Some (set_mem_nodes nodes2 m).

Definition RAG_clean (m : memory) (rag : RAG_t) (free_keys free_values : ptr)
  : option (memory * list call) :=
  '(d1, calls1) ← DLL_clean (mem_dll m) (proc_key_list rag) NULL;
  '(d2, calls2) ← DLL_clean d1 (res_key_list rag) NULL;
  Some (Memory d2 (mem_nodes m) (mem_keys m),
        calls1 ++ calls2 ++ ht_clean (rag_ht rag) free_keys free_values).

(** ** hashtable.c: the counter table *)

(** The values of a counter table point to [size_t] cells, which live in a
    memory of their own. *)

(** [ht_insert_count]: the new memory, the table and the count returned;
    [None] when the value of the node found is not a cell. *)
Definition ht_insert_count (cells : gmap Z Z) (ht : hashtable) (key : ptr)
  : option (gmap Z Z * hashtable * Z) :=
  match ht_get_node ht key with
  | Some node =>
      match cells !! ht_value node with
      | Some count =>
          let cells' := <[ht_value node := wrap (count + 1)]> cells in
          Some (cells', ht, wrap (count + 1))
      | None => None
      end
  | None =>
      let start_value := malloc cells in
      let cells' := <[start_value := 1]> cells in
      Some (cells', ht_insert ht key start_value, 1)
  end.

Definition ht_get_count (cells : gmap Z Z) (ht : hashtable) (key : ptr)
  : option Z :=
  let count := ht_search ht key in
  if count =? NULL then Some 0 else cells !! count.

(** ** stack.c *)

Record stack_node := StackNode { sn_data : ptr; sn_next : ptr }.

Record stack_t := Stack { stack_head : ptr }.

Definition stack_create : stack_t := Stack NULL.

Definition stack_push (m : gmap Z stack_node) (stack : stack_t) (data : ptr)
  : gmap Z stack_node * stack_t :=
  let node := malloc m in
  (<[node := StackNode data (stack_head stack)]> m, Stack node).

Definition stack_pop (m : gmap Z stack_node) (stack : stack_t)
  : option (gmap Z stack_node * stack_t * ptr) :=
  let node := stack_head stack in
  if node =? NULL then Some (m, stack, NULL)
  else n ← m !! node; Some (delete node m, Stack (sn_next n), sn_data n).

Definition stack_peek (m : gmap Z stack_node) (stack : stack_t) : option ptr :=
  if stack_head stack =? NULL then Some NULL
  else n ← m !! stack_head stack; Some (sn_data n).

(** [stack_pop_free] reads [node->next] without testing [node]. *)
Definition stack_pop_free (m : gmap Z stack_node) (stack : stack_t)
    (free_data : ptr) : option (gmap Z stack_node * stack_t * list call) :=
  let node := stack_head stack in
  n ← m !! node;
  Some (delete node m, Stack (sn_next n), call_if free_data (sn_data n)).

Definition stack_is_empty (stack : stack_t) : bool := stack_head stack =? NULL.

(** [while (!stack_is_empty(stack))] of [stack_clean]; every round frees a
    node, so [size m] rounds of fuel are never used up. *)
Fixpoint stack_clean_loop (fuel : nat) (m : gmap Z stack_node)
    (stack : stack_t) (free_data : ptr)
  : option (gmap Z stack_node * list call) :=
  if stack_is_empty stack then Some (m, [])
  else
    match fuel with
    | O => None
    | S fuel' =>
        '(m1, stack1, calls1) ← stack_pop_free m stack free_data;
        '(m2, calls2) ← stack_clean_loop fuel' m1 stack1 free_data;
        Some (m2, calls1 ++ calls2)
    end.

Definition stack_clean (m : gmap Z stack_node) (stack : stack_t)
    (free_data : ptr) : option (gmap Z stack_node * list call) :=
  stack_clean_loop (size m) m stack free_data.

(** [for (i = 0; i < n_nodes; i++) stack_push(stack, node_array[i])], with
    [rounds] rounds left.  [node_array i] is the word the array pointer
    gives at index [i]: the loop has no bound but [n_nodes], so it reads
    that word whether or not the caller's array is that long. *)
Fixpoint stack_push_array (rounds : nat) (i : nat) (m : gmap Z stack_node)
    (stack : stack_t) (node_array : nat → ptr)
  : gmap Z stack_node * stack_t :=
  match rounds with
  | O => (m, stack)
  | S rounds' =>
      let '(m1, stack1) := stack_push m stack (node_array i) in
      stack_push_array rounds' (S i) m1 stack1 node_array
  end.

Definition stack_create_from_array (m : gmap Z stack_node)
    (node_array : nat → ptr) (n_nodes : Z)
  : gmap Z stack_node * stack_t :=
  stack_push_array (Z.to_nat n_nodes) 0 m stack_create node_array.

(** [while (node) { stack_push(stack, node); node = get_next(node); }]:
    [get_next] is the caller's; the loop ends only if the caller's list
    does, so the rounds are bounded by [fuel]. *)
Fixpoint stack_push_linkedlist (fuel : nat) (m : gmap Z stack_node)
    (stack : stack_t) (node : ptr) (get_next : ptr → ptr)
  : option (gmap Z stack_node * stack_t) :=
  if node =? NULL then Some (m, stack)
  else
    match fuel with
    | O => None
    | S fuel' =>
        let '(m1, stack1) := stack_push m stack node in
        stack_push_linkedlist fuel' m1 stack1 (get_next node) get_next
    end.

Definition stack_create_from_linkedlist (fuel : nat) (m : gmap Z stack_node)
    (node : ptr) (get_next : ptr → ptr)
  : option (gmap Z stack_node * stack_t) :=
  stack_push_linkedlist fuel m stack_create node get_next.

(** ** Concrete callbacks, used to run the definitions on examples *)

(** Keys compared and hashed by address. *)
Definition addr_compare (a b : ptr) : Z := a - b.
Definition addr_hash (k : ptr) : Z := k.

(** An array of the examples: the words of [l], followed by zero words. *)
Definition array_of (l : list ptr) : nat → ptr := λ i, default NULL (l !! i).

(** * Properties of the hash table *)

(** ** Arithmetic of [size_t] and of the load-factor test *)

Lemma wrap_small n : 0 ≤ n < 2 ^ 64 → wrap n = n.
Proof. intros H. unfold wrap, SIZE_WIDTH. by apply Z.mod_small. Qed.

Lemma double_of_size_exact n : n < 2 ^ 53 → double_of_size n = n.
Proof.
  intros H. unfold double_of_size.
  destruct (Z.ltb_spec n (2 ^ 53)); [done | lia].
Qed.

Lemma _needs_resize_exact ht :
  ht_size ht < 2 ^ 53 → ht_n_values ht < 2 ^ 53 →
  _needs_resize ht = (ht_size ht <=? ht_n_values ht).
Proof.
  intros Hs Hn. unfold _needs_resize, MAX_LOAD_FACTOR.
  rewrite !double_of_size_exact by done. by rewrite Z.mul_1_r.
Qed.

(** Above [2^53] the conversion rounds, and the test can fire one entry
    early; the theorems on growth stay below. *)
Example double_of_size_rounds :
  double_of_size (2 ^ 53 + 1) = 2 ^ 53
  ∧ double_of_size (2 ^ 53 + 3) = 2 ^ 53 + 4.
Proof. split; vm_compute; reflexivity. Qed.

Example _needs_resize_rounds :
  _needs_resize (Hashtable (2 ^ 53 + 4) (2 ^ 53 + 3) addr_compare addr_hash [])
  = true.
Proof. vm_compute; reflexivity. Qed.

(** ** Buckets *)

Lemma bucket_insert_eq (t : list (list ht_node)) i chain :
  (Z.to_nat i < length t)%nat → bucket (<[Z.to_nat i := chain]> t) i = chain.
Proof. intros H. unfold bucket. by rewrite list_lookup_insert_eq. Qed.

Lemma bucket_in_range (t : list (list ht_node)) i :
  (Z.to_nat i < length t)%nat → t !! Z.to_nat i = Some (bucket t i).
Proof.
  intros H. unfold bucket.
  destruct (lookup_lt_is_Some_2 t (Z.to_nat i) H) as [c Hc]. by rewrite Hc.
Qed.

Lemma concat_insert (t : list (list ht_node)) i chain :
  (i < length t)%nat →
  concat (<[i := chain]> t)
  = concat (take i t) ++ chain ++ concat (drop (S i) t).
Proof.
  intros H. rewrite insert_take_drop by done.
  by rewrite concat_app, concat_cons.
Qed.

Lemma concat_lookup (t : list (list ht_node)) i chain :
  t !! i = Some chain →
  concat t = concat (take i t) ++ chain ++ concat (drop (S i) t).
Proof.
  intros H. rewrite <- (take_drop_middle t i chain H) at 1.
  by rewrite concat_app, concat_cons.
Qed.

(** Replacing a chain replaces its nodes among the nodes of the table. *)
Lemma concat_insert_perm (t : list (list ht_node)) i chain chain' rest :
  t !! i = Some chain → chain ≡ₚ rest → 
  ∃ others, concat t ≡ₚ rest ++ others
            ∧ concat (<[i := chain']> t) ≡ₚ chain' ++ others.
Proof.
  intros H Hp. exists (concat (take i t) ++ concat (drop (S i) t)).
  rewrite (concat_lookup t i chain H).
  rewrite concat_insert by (by eapply lookup_lt_Some).
  split.
  - rewrite Hp. by rewrite !(assoc (++)), (comm (++) _ rest).
  - by rewrite !(assoc (++)), (comm (++) _ chain').
Qed.

(** ** Chains *)

(** [n] is the node the lookup of [key] stops at. *)
Definition matches (cmp : ptr → ptr → Z) (key : ptr) (n : ht_node) : Prop :=
  cmp (ht_key n) key = 0.

Global Instance matches_dec cmp key n : Decision (matches cmp key n).
Proof. unfold matches. apply _. Defined.

(** A node whose key was not cleared by a removal. *)
Definition live (n : ht_node) : Prop := ht_key n ≠ NULL.

Global Instance live_dec n : Decision (live n).
Proof. unfold live. apply _. Defined.

Lemma chain_get_node_Some cmp key chain n :
  chain_get_node cmp key chain = Some n ↔
  ∃ pre post, chain = pre ++ n :: post
              ∧ Forall (λ x, ¬ matches cmp key x) pre ∧ matches cmp key n.
Proof.
  unfold matches. induction chain as [|x chain IH]; simpl.
  - split; [done | intros ([|??] & ? & ? & _); done].
  - destruct (Z.eqb_spec (cmp (ht_key x) key) 0) as [E|E].
    + split.
      * intros [= <-]. exists [], chain. by repeat split.
      * intros (pre & post & Hc & Hpre & Hn). destruct pre as [|y pre].
        -- by injection Hc as -> _.
        -- injection Hc as -> _. by inversion Hpre.
    + rewrite IH. split.
      * intros (pre & post & -> & Hpre & Hn).
        exists (x :: pre), post. repeat split; [by constructor | done].
      * intros (pre & post & Hc & Hpre & Hn). destruct pre as [|y pre].
        -- injection Hc as -> _. done.
        -- injection Hc as -> ->. inversion Hpre; subst.
           exists pre, post. by repeat split.
Qed.

Lemma chain_get_node_None cmp key chain :
  chain_get_node cmp key chain = None ↔
  Forall (λ x, ¬ matches cmp key x) chain.
Proof.
  unfold matches. induction chain as [|x chain IH]; simpl.
  - split; [constructor | done].
  - destruct (Z.eqb_spec (cmp (ht_key x) key) 0) as [E|E].
    + split; [done | by inversion 1].
    + rewrite IH. split; [by constructor | by inversion 1].
Qed.

Lemma chain_set_value_split cmp key value pre n post :
  Forall (λ x, ¬ matches cmp key x) pre → matches cmp key n →
  chain_set_value cmp key value (pre ++ n :: post)
  = pre ++ HtNode (ht_key n) value :: post.
Proof.
  unfold matches. intros Hpre Hn.
  induction Hpre as [|x pre Hx _ IH]; simpl.
  - by destruct (Z.eqb_spec (cmp (ht_key n) key) 0).
  - destruct (Z.eqb_spec (cmp (ht_key x) key) 0); [done | by rewrite IH].
Qed.

(** What the splice leaves in the slot of the removed node and after it. *)
Definition spliced (post : list ht_node) : list ht_node :=
  match post with
  | next_node :: post' => next_node :: post'
  | [] => [HtNode NULL NULL]
  end.

Lemma chain_remove_split cmp key pre n post :
  Forall (λ x, ¬ matches cmp key x) pre → matches cmp key n →
  chain_remove cmp key (pre ++ n :: post) = Some (pre ++ spliced post, n).
Proof.
  unfold matches. intros Hpre Hn.
  induction Hpre as [|x pre Hx _ IH]; simpl.
  - destruct (Z.eqb_spec (cmp (ht_key n) key) 0); [|done].
    destruct post as [|[k v] post]; done.
  - destruct (Z.eqb_spec (cmp (ht_key x) key) 0); [done | by rewrite IH].
Qed.

Lemma chain_remove_None cmp key chain :
  chain_get_node cmp key chain = None → chain_remove cmp key chain = None.
Proof.
  induction chain as [|x chain IH]; simpl; [done|].
  destruct (Z.eqb_spec (cmp (ht_key x) key) 0); [done|].
  intros H. by rewrite IH.
Qed.

Lemma chain_compare_calls_app cmp key pre rest :
  Forall (λ x, ¬ matches cmp key x) pre →
  chain_compare_calls cmp key (pre ++ rest)
  = map (λ x, (ht_key x, key)) pre ++ chain_compare_calls cmp key rest.
Proof.
  unfold matches. induction 1 as [|x pre Hx _ IH]; simpl; [done|].
  destruct (Z.eqb_spec (cmp (ht_key x) key) 0); [done | by rewrite IH].
Qed.

Lemma chain_compare_calls_found cmp key pre n post :
  Forall (λ x, ¬ matches cmp key x) pre → matches cmp key n →
  chain_compare_calls cmp key (pre ++ n :: post)
  = map (λ x, (ht_key x, key)) (pre ++ [n]).
Proof.
  intros Hpre Hn. rewrite chain_compare_calls_app by done. simpl.
  unfold matches in Hn. rewrite Hn. simpl. by rewrite map_app.
Qed.

Lemma elem_of_concat (t : list (list ht_node)) x :
  x ∈ concat t ↔ ∃ i chain, t !! i = Some chain ∧ x ∈ chain.
Proof.
  induction t as [|c t IH]; simpl.
  - split; [by intros ?%elem_of_nil | by intros (? & ? & ? & _)].
  - rewrite elem_of_app, IH. split.
    + intros [H | (i & chain & Hi & Hx)].
      * by exists 0%nat, c.
      * by exists (S i), chain.
    + intros ([|i] & chain & Hi & Hx); simpl in Hi.
      * injection Hi as ->. by left.
      * right. by exists i, chain.
Qed.

Lemma length_le_1_eq {A} (l : list A) x y :
  (length l ≤ 1)%nat → x ∈ l → y ∈ l → x = y.
Proof.
  destruct l as [|a [|b l]]; simpl; intros Hl Hx Hy.
  - by apply elem_of_nil in Hx.
  - apply list_elem_of_singleton in Hx, Hy. congruence.
  - lia.
Qed.

(** ** Rehashing *)

(** Every node of [t], cleared or not, hangs off the bucket its key hashes
    to; that is how [_copy_ht] leaves the new table. *)
Definition placed (size : Z) (hash : ptr → Z) (t : list (list ht_node)) : Prop :=
  ∀ i chain n, t !! i = Some chain → n ∈ chain →
               hash (ht_key n) mod size = Z.of_nat i.

Lemma placed_initial size hash : placed size hash (_initialise_table size).
Proof.
  intros i chain n Hi Hn. unfold _initialise_table in Hi.
  apply lookup_replicate in Hi as [-> _]. by apply elem_of_nil in Hn.
Qed.

Section copy.
Variables (size : Z) (hash : ptr → Z).
Hypothesis size_pos : 0 < size.

Let index_lt (t : list (list ht_node)) (n : ht_node) :
  length t = Z.to_nat size →
  (Z.to_nat (hash (ht_key n) mod size) < length t)%nat.
Proof.
  intros ->. pose proof (Z.mod_pos_bound (hash (ht_key n)) size size_pos). lia.
Qed.

Lemma copy_insert_length t n :
  length (_ht_copy_insert size hash t n) = length t.
Proof. unfold _ht_copy_insert. by rewrite length_insert. Qed.

Lemma copy_insert_perm t n :
  length t = Z.to_nat size →
  concat (_ht_copy_insert size hash t n) ≡ₚ n :: concat t.
Proof.
  intros Hl. unfold _ht_copy_insert.
  pose proof (index_lt t n Hl) as Hi.
  pose proof (bucket_in_range t _ Hi) as Hb.
  rewrite concat_insert by done. rewrite (concat_lookup t _ _ Hb).
  simpl. symmetry. apply Permutation_middle.
Qed.

Lemma copy_insert_placed t n :
  length t = Z.to_nat size →
  placed size hash t → placed size hash (_ht_copy_insert size hash t n).
Proof.
  intros Hl Hp i chain x Hi Hx. unfold _ht_copy_insert in Hi.
  pose proof (index_lt t n Hl) as Hlt.
  pose proof (Z.mod_pos_bound (hash (ht_key n)) size size_pos) as Hb.
  destruct (decide (i = Z.to_nat (hash (ht_key n) mod size))) as [->|Hne].
  - rewrite list_lookup_insert_eq in Hi by done. injection Hi as <-.
    apply elem_of_cons in Hx as [-> | Hx]; [lia|].
    eapply Hp; [by apply bucket_in_range | done].
  - rewrite list_lookup_insert_ne in Hi by done. by eapply Hp.
Qed.

Lemma copy_chain_spec chain t :
  length t = Z.to_nat size → placed size hash t →
  let t' := foldl (_ht_copy_insert size hash) t chain in
  length t' = Z.to_nat size ∧ placed size hash t'
  ∧ concat t' ≡ₚ chain ++ concat t.
Proof.
  revert t. induction chain as [|n chain IH]; intros t Hl Hp; simpl.
  - done.
  - destruct (IH (_ht_copy_insert size hash t n)) as (Hl' & Hp' & Hc').
    + by rewrite copy_insert_length.
    + by apply copy_insert_placed.
    + repeat split; [done..|].
      rewrite Hc', copy_insert_perm by done. symmetry. apply Permutation_middle.
Qed.

Lemma copy_table_spec src t :
  length t = Z.to_nat size → placed size hash t →
  let t' := foldl (λ nt chain, foldl (_ht_copy_insert size hash) nt chain)
                  t src in
  length t' = Z.to_nat size ∧ placed size hash t'
  ∧ concat t' ≡ₚ concat src ++ concat t.
Proof.
  revert t. induction src as [|chain src IH]; intros t Hl Hp; simpl.
  - done.
  - destruct (copy_chain_spec chain t Hl Hp) as (Hl1 & Hp1 & Hc1).
    destruct (IH _ Hl1 Hp1) as (Hl' & Hp' & Hc').
    repeat split; [done..|].
    rewrite Hc', Hc1. rewrite !(assoc (++)). f_equiv. apply (comm (++)).
Qed.
End copy.

Lemma length_initialise_table size :
  length (_initialise_table size) = Z.to_nat size.
Proof. unfold _initialise_table. by rewrite length_replicate. Qed.

Lemma concat_initialise_table size : concat (_initialise_table size) = [].
Proof.
  unfold _initialise_table.
  induction (Z.to_nat size) as [|n IH]; simpl; [done | by rewrite IH].
Qed.

Definition ht_nodes (ht : hashtable) : list ht_node := concat (ht_table ht).

Lemma _resize_ht_spec ht :
  0 < ht_size ht → 2 * ht_size ht < 2 ^ 64 →
  length (ht_table ht) = Z.to_nat (ht_size ht) →
  let ht' := _resize_ht ht in
  ht_size ht' = 2 * ht_size ht
  ∧ ht_n_values ht' = ht_n_values ht
  ∧ ht_compare ht' = ht_compare ht ∧ ht_hash ht' = ht_hash ht
  ∧ length (ht_table ht') = Z.to_nat (ht_size ht')
  ∧ placed (ht_size ht') (ht_hash ht') (ht_table ht')
  ∧ ht_nodes ht' ≡ₚ ht_nodes ht.
Proof.
  intros Hpos Hbound Hlen. unfold _resize_ht, _copy_ht, GROWTH_FACTOR. simpl.
  rewrite (Z.mul_comm (ht_size ht) 2), wrap_small by lia.
  rewrite take_ge by lia.
  destruct (copy_table_spec (2 * ht_size ht) (ht_hash ht) ltac:(lia)
              (ht_table ht) (_initialise_table (2 * ht_size ht)))
    as (Hl & Hp & Hc).
  { apply length_initialise_table. }
  { apply placed_initial. }
  repeat split; [done..|].
  unfold ht_nodes. simpl. rewrite Hc, concat_initialise_table.
  by rewrite app_nil_r.
Qed.

(** ** Well-formed tables *)

(** What the library expects of [compare] and [hash]: [compare] returns
    zero exactly on equal keys, an equivalence; equal keys hash alike; and
    [compare] tells the cleared key of a removed slot ([NULL]) from every
    key. *)
Record callbacks_ok (cmp : ptr → ptr → Z) (hash : ptr → Z) : Prop := {
  cmp_refl : ∀ k, k ≠ NULL → cmp k k = 0;
  cmp_sym : ∀ a b, cmp a b = 0 → cmp b a = 0;
  cmp_trans : ∀ a b c, cmp a b = 0 → cmp b c = 0 → cmp a c = 0;
  cmp_null : ∀ k, k ≠ NULL → cmp NULL k ≠ 0;
  hash_cmp : ∀ a b, cmp a b = 0 → hash a = hash b
}.

(** Every live node hangs off the bucket its key hashes to. *)
Definition ht_place (ht : hashtable) : Prop :=
  ∀ i chain n, ht_table ht !! i = Some chain → n ∈ chain → live n →
               ht_get_index ht (ht_key n) = Z.of_nat i.

Record ht_wf (ht : hashtable) : Prop := {
  wf_cb : callbacks_ok (ht_compare ht) (ht_hash ht);
  wf_size_pos : 0 < ht_size ht;
  wf_size_range : ht_size ht < 2 ^ 64;
  wf_length : length (ht_table ht) = Z.to_nat (ht_size ht);
  wf_place : ht_place ht;
  (* at most one entry per key *)
  wf_uniq : ∀ k, k ≠ NULL →
    (length (filter (matches (ht_compare ht) k) (ht_nodes ht)) ≤ 1)%nat;
  (* n_values counts the live nodes *)
  wf_count : ht_n_values ht = Z.of_nat (length (filter live (ht_nodes ht)));
  wf_n_range : ht_n_values ht < 2 ^ 64
}.

Lemma addr_callbacks_ok : callbacks_ok addr_compare addr_hash.
Proof.
  unfold addr_compare, addr_hash, NULL.
  split; intros; lia.
Qed.

Lemma ht_create_wf size cmp hash :
  0 < size < 2 ^ 64 → callbacks_ok cmp hash → ht_wf (ht_create size cmp hash).
Proof.
  intros Hs Hcb. unfold ht_create.
  split; simpl; try done; try lia; unfold ht_nodes; simpl.
  - apply length_initialise_table.
  - intros i chain n Hi Hn. unfold _initialise_table in Hi.
    apply lookup_replicate in Hi as [-> _]. by apply elem_of_nil in Hn.
  - intros k _. rewrite concat_initialise_table. simpl. lia.
  - by rewrite concat_initialise_table.
Qed.

Lemma ht_get_index_range ht key :
  0 < ht_size ht → 0 ≤ ht_get_index ht key < ht_size ht.
Proof. intros H. unfold ht_get_index. by apply Z.mod_pos_bound. Qed.

Lemma ht_bucket_lookup ht key :
  0 < ht_size ht → length (ht_table ht) = Z.to_nat (ht_size ht) →
  ht_table ht !! Z.to_nat (ht_get_index ht key)
  = Some (bucket (ht_table ht) (ht_get_index ht key)).
Proof.
  intros Hs Hl. apply bucket_in_range.
  pose proof (ht_get_index_range ht key Hs). lia.
Qed.

Lemma ht_get_node_elem ht key n :
  ht_get_node ht key = Some n →
  n ∈ ht_nodes ht ∧ matches (ht_compare ht) key n.
Proof.
  unfold ht_get_node, bucket. intros H.
  apply chain_get_node_Some in H as (pre & post & Hb & _ & Hm).
  split; [|done]. apply elem_of_concat.
  destruct (ht_table ht !! Z.to_nat (ht_get_index ht key)) as [c|] eqn:E;
    simpl in Hb.
  - exists (Z.to_nat (ht_get_index ht key)), c. split; [done|].
    rewrite Hb. apply elem_of_app. right. by left.
  - by destruct pre.
Qed.

Lemma matches_live ht key n :
  callbacks_ok (ht_compare ht) (ht_hash ht) → key ≠ NULL →
  matches (ht_compare ht) key n → live n.
Proof.
  intros Hcb Hk Hm Hn. unfold matches in Hm. rewrite Hn in Hm.
  by eapply cmp_null.
Qed.

(** Under the invariant a lookup finds the one node of the whole table
    that matches the key. *)
Lemma ht_get_node_iff ht key n :
  ht_wf ht → key ≠ NULL →
  ht_get_node ht key = Some n ↔
  n ∈ ht_nodes ht ∧ matches (ht_compare ht) key n.
Proof.
  intros Hwf Hk. split; [apply ht_get_node_elem|].
  intros [Hn Hm]. destruct Hwf as [Hcb Hs _ Hl Hp Hu _ _].
  apply elem_of_concat in Hn as (i & chain & Hi & Hn).
  pose proof (matches_live ht key n Hcb Hk Hm) as Hlive.
  pose proof (Hp i chain n Hi Hn Hlive) as Hidx.
  assert (ht_get_index ht key = Z.of_nat i) as Hidx'.
  { rewrite <- Hidx. unfold ht_get_index. f_equal. symmetry.
    by apply (hash_cmp _ _ Hcb). }
  destruct (ht_get_node ht key) as [n'|] eqn:E.
  - f_equal. apply ht_get_node_elem in E as [Hn' Hm'].
    apply (length_le_1_eq _ n' n (Hu key Hk)); apply list_elem_of_filter.
    + done.
    + split; [done|]. apply elem_of_concat. eauto.
  - unfold ht_get_node, bucket in E. rewrite Hidx', Nat2Z.id, Hi in E.
    simpl in E. apply chain_get_node_None in E.
    rewrite Forall_forall in E. by destruct (E n Hn).
Qed.

Lemma ht_get_node_None_iff ht key :
  ht_wf ht → key ≠ NULL →
  ht_get_node ht key = None ↔
  ∀ n, n ∈ ht_nodes ht → ¬ matches (ht_compare ht) key n.
Proof.
  intros Hwf Hk. split.
  - intros E n Hn Hm.
    assert (ht_get_node ht key = Some n) by (by apply ht_get_node_iff).
    congruence.
  - intros H. destruct (ht_get_node ht key) as [n|] eqn:E; [|done].
    apply ht_get_node_elem in E as [Hn Hm]. by destruct (H n Hn).
Qed.

(** Two well-formed tables whose nodes matching [key] are the same answer
    the lookup of [key] alike. *)
Lemma ht_get_node_transfer ht ht' key :
  ht_wf ht → ht_wf ht' → key ≠ NULL →
  (∀ n, n ∈ ht_nodes ht' ∧ matches (ht_compare ht') key n
        ↔ n ∈ ht_nodes ht ∧ matches (ht_compare ht) key n) →
  ht_get_node ht' key = ht_get_node ht key.
Proof.
  intros Hwf Hwf' Hk H.
  destruct (ht_get_node ht key) as [n|] eqn:E.
  - apply ht_get_node_iff; [done..|]. apply H. by apply ht_get_node_iff.
  - apply ht_get_node_None_iff; [done..|]. intros n Hn Hm.
    destruct (H n) as [H1 _]. destruct (H1 (conj Hn Hm)) as [Hn' Hm'].
    pose proof (proj1 (ht_get_node_None_iff ht key Hwf Hk) E n Hn'). done.
Qed.

(** ** The effect of the operations on the nodes of the table *)

Lemma filter_nil_forall {A} (P : A → Prop) `{!∀ x, Decision (P x)} (l : list A) :
  (∀ x, x ∈ l → ¬ P x) → filter P l = [].
Proof.
  induction l as [|a l IH]; intros Hall; [done|].
  rewrite filter_cons_False by (apply Hall; by left).
  apply IH. intros x Hx. apply Hall. by right.
Qed.

Lemma update_chain_nodes ht i chain chain' :
  ht_table ht !! i = Some chain →
  ∃ others, ht_nodes ht ≡ₚ chain ++ others
            ∧ ∀ n, ht_nodes (set_n_values n
                               (set_table (<[i := chain']> (ht_table ht)) ht))
                   ≡ₚ chain' ++ others.
Proof.
  intros Hi.
  destruct (concat_insert_perm (ht_table ht) i chain chain' chain Hi)
    as (others & H1 & H2); [done|].
  exists others. split; [done|]. intros n. apply H2.
Qed.

Lemma update_chain_place ht i chain chain' n :
  ht_place ht → ht_table ht !! i = Some chain →
  (∀ x, x ∈ chain' → live x → ht_get_index ht (ht_key x) = Z.of_nat i) →
  ht_place (set_n_values n (set_table (<[i := chain']> (ht_table ht)) ht)).
Proof.
  intros Hp Hi Hc j c x Hj Hx Hlive. simpl in Hj.
  change (ht_get_index ht (ht_key x) = Z.of_nat j).
  destruct (decide (j = i)) as [->|Hne].
  - rewrite list_lookup_insert_eq in Hj by (by eapply lookup_lt_Some).
    injection Hj as <-. by apply Hc.
  - rewrite list_lookup_insert_ne in Hj by done. by eapply Hp.
Qed.

Lemma placed_ht_place ht :
  placed (ht_size ht) (ht_hash ht) (ht_table ht) → ht_place ht.
Proof. intros H i chain n Hi Hn _. by eapply H. Qed.

(** [ht_insert] of a key the table does not hold: one more node, and the
    bucket count doubles exactly when the new entry count reaches it. *)
Lemma ht_insert_new_shape ht key value :
  0 < ht_size ht → ht_size ht ≤ 2 ^ 52 →
  length (ht_table ht) = Z.to_nat (ht_size ht) →
  0 ≤ ht_n_values ht < ht_size ht →
  ht_get_node ht key = None →
  let ht' := ht_insert ht key value in
  ht_n_values ht' = ht_n_values ht + 1
  ∧ ht_size ht'
    = (if ht_n_values ht + 1 =? ht_size ht then 2 * ht_size ht else ht_size ht)
  ∧ length (ht_table ht') = Z.to_nat (ht_size ht')
  ∧ ht_compare ht' = ht_compare ht ∧ ht_hash ht' = ht_hash ht
  ∧ ht_nodes ht' ≡ₚ HtNode key value :: ht_nodes ht
  ∧ (ht_place ht → ht_place ht').
Proof.
  intros Hpos Hbound Hlen Hn Hget. unfold ht_insert. rewrite Hget.
  assert (2 ^ 52 < 2 ^ 53 ∧ 2 ^ 53 < 2 ^ 64) as [??] by (split; by vm_compute).
  rewrite wrap_small by lia.
  set (idx := ht_get_index ht key).
  set (chain' := HtNode key value :: bucket (ht_table ht) idx).
  set (ht1 := set_n_values _ _).
  pose proof (ht_bucket_lookup ht key Hpos Hlen) as Hb. fold idx in Hb.
  destruct (update_chain_nodes ht _ _ chain' Hb) as (others & Ho & Ho').
  assert (ht_nodes ht1 ≡ₚ HtNode key value :: ht_nodes ht) as Hnodes.
  { unfold ht1. rewrite Ho', Ho. done. }
  assert (ht_place ht → ht_place ht1) as Hplace.
  { intros Hp. apply (update_chain_place ht _ _ chain' _ Hp Hb).
    intros x [->|Hx]%elem_of_cons Hlive.
    - simpl. pose proof (ht_get_index_range ht key Hpos). fold idx. lia.
    - pose proof (ht_get_index_range ht key Hpos).
      rewrite (Hp _ _ x Hb Hx Hlive). fold idx. lia. }
  assert (length (ht_table ht1) = Z.to_nat (ht_size ht1)) as Hlen1.
  { unfold ht1. simpl. by rewrite length_insert. }
  rewrite _needs_resize_exact by (unfold ht1; simpl; lia).
  change (ht_size ht1) with (ht_size ht).
  change (ht_n_values ht1) with (ht_n_values ht + 1).
  destruct (Z.leb_spec (ht_size ht) (ht_n_values ht + 1)) as [Hle|Hlt].
  - destruct (_resize_ht_spec ht1) as (Hs & Hv & Hc & Hh & Hl & Hp & Hnd).
    { done. } { unfold ht1; simpl; lia. } { done. }
    cbv zeta. rewrite Hs, Hv, Hc, Hh.
    change (ht_size ht1) with (ht_size ht).
    change (ht_n_values ht1) with (ht_n_values ht + 1).
    destruct (Z.eqb_spec (ht_n_values ht + 1) (ht_size ht)); [|lia].
    repeat split; try done.
    + rewrite Hl, Hs. done.
    + by rewrite Hnd.
    + intros _. by apply placed_ht_place.
  - cbv zeta.
    change (ht_size ht1) with (ht_size ht).
    change (ht_n_values ht1) with (ht_n_values ht + 1).
    destruct (Z.eqb_spec (ht_n_values ht + 1) (ht_size ht)); [lia|].
    repeat split; done.
Qed.

Lemma ht_insert_new ht key value :
  ht_wf ht → ht_n_values ht < ht_size ht → ht_size ht ≤ 2 ^ 52 →
  key ≠ NULL → ht_get_node ht key = None →
  let ht' := ht_insert ht key value in
  ht_wf ht' ∧ ht_n_values ht' < ht_size ht'
  ∧ ht_n_values ht' = ht_n_values ht + 1
  ∧ ht_size ht'
    = (if ht_n_values ht + 1 =? ht_size ht then 2 * ht_size ht else ht_size ht)
  ∧ ht_compare ht' = ht_compare ht ∧ ht_hash ht' = ht_hash ht
  ∧ ht_nodes ht' ≡ₚ HtNode key value :: ht_nodes ht.
Proof.
  intros Hwf Hload Hbound Hk Hget.
  pose proof Hwf as [Hcb Hs Hsr Hl Hp Hu Hc Hnr].
  assert (0 ≤ ht_n_values ht) as Hn0 by (rewrite Hc; lia).
  destruct (ht_insert_new_shape ht key value Hs Hbound Hl (conj Hn0 Hload) Hget)
    as (Hv' & Hs' & Hl' & Hc' & Hh' & Hnd' & Hp').
  assert (2 ^ 52 < 2 ^ 63 ∧ 2 ^ 63 < 2 ^ 64) as [??] by (split; by vm_compute).
  intros ht'. fold ht' in Hv', Hs', Hl', Hc', Hh', Hnd', Hp'.
  assert (ht_size ht ≤ ht_size ht' ≤ 2 * ht_size ht) as Hsz.
  { rewrite Hs'. destruct (_ =? _); lia. }
  assert (ht_n_values ht' < ht_size ht') as Hload'.
  { rewrite Hs', Hv'. destruct (Z.eqb_spec (ht_n_values ht + 1) (ht_size ht)); lia. }
  split; [split|repeat split; done].
  - by rewrite Hc', Hh'.
  - lia.
  - lia.
  - done.
  - by apply Hp'.
  - intros k Hk'. rewrite Hc', Hnd'. rewrite filter_cons.
    destruct (decide (matches (ht_compare ht) k (HtNode key value))) as [Hm|Hm];
      [|by apply Hu].
    rewrite filter_nil_forall; [simpl; lia|].
    intros n Hn Hmn. unfold matches in Hm, Hmn. simpl in Hm.
    pose proof (proj1 (ht_get_node_None_iff ht key Hwf Hk) Hget n Hn) as Hnot.
    apply Hnot. unfold matches.
    eapply (cmp_trans _ _ Hcb); [done|]. by apply (cmp_sym _ _ Hcb).
  - rewrite Hv', Hnd', filter_cons_True by done. simpl length. lia.
  - lia.
Qed.

Lemma ht_get_node_split ht key n0 :
  0 < ht_size ht → length (ht_table ht) = Z.to_nat (ht_size ht) →
  ht_get_node ht key = Some n0 →
  ∃ pre post,
    ht_table ht !! Z.to_nat (ht_get_index ht key) = Some (pre ++ n0 :: post)
    ∧ bucket (ht_table ht) (ht_get_index ht key) = pre ++ n0 :: post
    ∧ Forall (λ x, ¬ matches (ht_compare ht) key x) pre
    ∧ matches (ht_compare ht) key n0.
Proof.
  intros Hs Hl Hget. unfold ht_get_node in Hget.
  apply chain_get_node_Some in Hget as (pre & post & Hb & Hpre & Hm).
  exists pre, post. repeat split; try done.
  rewrite <- Hb. by apply ht_bucket_lookup.
Qed.

(** [ht_insert] of a key the table holds: the node found keeps its key
    and takes the value. *)
Lemma ht_insert_found ht key value n0 :
  ht_wf ht → ht_get_node ht key = Some n0 →
  let ht' := ht_insert ht key value in
  ht_wf ht' ∧ ht_n_values ht' = ht_n_values ht ∧ ht_size ht' = ht_size ht
  ∧ ht_compare ht' = ht_compare ht ∧ ht_hash ht' = ht_hash ht
  ∧ ∃ rest, ht_nodes ht ≡ₚ n0 :: rest
            ∧ ht_nodes ht' ≡ₚ HtNode (ht_key n0) value :: rest.
Proof.
  intros Hwf Hget. pose proof Hwf as [Hcb Hs Hsr Hl Hp Hu Hc Hnr].
  destruct (ht_get_node_split ht key n0 Hs Hl Hget)
    as (pre & post & Hi & Hb & Hpre & Hm).
  unfold ht_insert. rewrite Hget, Hb.
  rewrite chain_set_value_split by done.
  set (n0' := HtNode (ht_key n0) value).
  destruct (update_chain_nodes ht _ _ (pre ++ n0' :: post) Hi)
    as (others & Ho & Ho').
  specialize (Ho' (ht_n_values ht)).
  set (ht' := set_table _ ht) in *.
  assert (ht_nodes ht ≡ₚ n0 :: (pre ++ post ++ others)) as Hn.
  { rewrite Ho, <- (assoc (++)). simpl. symmetry. apply Permutation_middle. }
  assert (ht_nodes ht' ≡ₚ n0' :: (pre ++ post ++ others)) as Hn'.
  { change (ht_nodes ht') with
      (ht_nodes (set_n_values (ht_n_values ht) ht')). rewrite Ho'.
    rewrite <- (assoc (++)). simpl. symmetry. apply Permutation_middle. }
  cbv zeta. split; [split|repeat split; try done; by eexists].
  - done.
  - done.
  - done.
  - unfold ht'. simpl. by rewrite length_insert.
  - apply (update_chain_place ht _ _ _ (ht_n_values ht) Hp Hi).
    intros x Hx Hlive.
    pose proof (ht_get_index_range ht key Hs) as Hr.
    assert (∃ y, y ∈ pre ++ n0 :: post ∧ ht_key y = ht_key x) as (y & Hy & Hk).
    { apply elem_of_app in Hx as [Hx|[->|Hx]%elem_of_cons].
      - exists x. split; [|done]. apply elem_of_app. by left.
      - exists n0. split; [|done]. apply elem_of_app. right. by left.
      - exists x. split; [|done]. apply elem_of_app. right. by right. }
    rewrite <- Hk. apply (Hp _ _ y Hi Hy). unfold live. by rewrite Hk.
  - intros k Hk. change (ht_compare ht') with (ht_compare ht).
    specialize (Hu k Hk). rewrite Hn in Hu. rewrite Hn'.
    rewrite filter_cons in Hu |- *. unfold matches at 1 in Hu.
    unfold matches at 1. simpl. by destruct (decide _).
  - change (ht_n_values ht') with (ht_n_values ht). rewrite Hc, Hn, Hn'.
    rewrite !filter_cons. unfold live at 1 3. simpl. by destruct (decide _).
  - done.
Qed.

(** [ht_remove] of a key the table holds: the node found goes; when it
    was the last of its chain a cleared node stays in its place. *)
Lemma ht_remove_found ht key free_key free_value n0 :
  ht_wf ht → key ≠ NULL → ht_get_node ht key = Some n0 →
  let ht' := (ht_remove ht key free_key free_value).1 in
  ht_wf ht' ∧ ht_n_values ht' = ht_n_values ht - 1 ∧ ht_size ht' = ht_size ht
  ∧ ht_compare ht' = ht_compare ht ∧ ht_hash ht' = ht_hash ht
  ∧ length (ht_table ht') = length (ht_table ht)
  ∧ ∃ rest, ht_nodes ht ≡ₚ n0 :: rest
            ∧ (ht_nodes ht' ≡ₚ rest ∨ ht_nodes ht' ≡ₚ HtNode NULL NULL :: rest).
Proof.
  intros Hwf Hk Hget. pose proof Hwf as [Hcb Hs Hsr Hl Hp Hu Hc Hnr].
  destruct (ht_get_node_split ht key n0 Hs Hl Hget)
    as (pre & post & Hi & Hb & Hpre & Hm).
  pose proof (matches_live ht key n0 Hcb Hk Hm) as Hlive0.
  unfold ht_remove. rewrite Hb, chain_remove_split by done. cbv zeta. simpl fst.
  destruct (update_chain_nodes ht _ _ (pre ++ spliced post) Hi)
    as (others & Ho & Ho').
  set (ht' := set_n_values _ _) in *.
  specialize (Ho' (wrap (ht_n_values ht - 1))). fold ht' in Ho'.
  assert (ht_nodes ht ≡ₚ n0 :: (pre ++ post ++ others)) as Hn.
  { rewrite Ho, <- (assoc (++)). simpl. symmetry. apply Permutation_middle. }
  assert (ht_nodes ht' ≡ₚ pre ++ post ++ others
          ∨ ht_nodes ht' ≡ₚ HtNode NULL NULL :: (pre ++ post ++ others)) as Hn'.
  { rewrite Ho'. destruct post as [|nx post]; simpl.
    - right. rewrite <- (assoc (++)). simpl. symmetry. apply Permutation_middle.
    - left. by rewrite <- (assoc (++)). }
  assert (1 ≤ ht_n_values ht) as Hn1.
  { rewrite Hc, Hn, filter_cons_True by done. simpl length. lia. }
  assert (ht_n_values ht' = ht_n_values ht - 1) as Hv'.
  { unfold ht'. simpl. apply wrap_small. lia. }
  split; [split|repeat split; try done].
  - done.
  - done.
  - done.
  - unfold ht'. simpl. by rewrite length_insert.
  - apply (update_chain_place ht _ _ _ _ Hp Hi).
    intros x Hx Hlive. pose proof (ht_get_index_range ht key Hs) as Hr.
    apply (Hp _ _ x Hi); [|done].
    apply elem_of_app in Hx as [Hx|Hx]; apply elem_of_app; [by left|].
    right. right. destruct post as [|nx post]; [|done].
    apply list_elem_of_singleton in Hx as ->. by destruct Hlive.
  - intros k Hk'. change (ht_compare ht') with (ht_compare ht).
    specialize (Hu k Hk'). rewrite Hn, filter_cons in Hu.
    assert (length (filter (matches (ht_compare ht) k) (pre ++ post ++ others))
            ≤ 1)%nat as Hrest.
    { destruct (decide _) in Hu; simpl in Hu; lia. }
    destruct Hn' as [-> | ->]; [done|].
    rewrite filter_cons_False; [done|].
    unfold matches. simpl. by apply (cmp_null _ _ Hcb).
  - rewrite Hv', Hc, Hn, filter_cons_True by done. simpl length.
    destruct Hn' as [-> | ->]; [lia|].
    rewrite filter_cons_False; [lia|]. unfold live. simpl. by intros [].
  - lia.
  - unfold ht'. simpl. by rewrite length_insert.
  - by eexists.
Qed.

Lemma ht_remove_absent ht key free_key free_value :
  ht_get_node ht key = None →
  ht_remove ht key free_key free_value = (ht, []).
Proof.
  intros H. unfold ht_remove. unfold ht_get_node in H.
  by rewrite chain_remove_None.
Qed.

(** ** Lookups after an insert or a removal *)

Lemma ht_insert_wf ht key value :
  ht_wf ht → ht_n_values ht < ht_size ht → ht_size ht ≤ 2 ^ 52 → key ≠ NULL →
  let ht' := ht_insert ht key value in
  ht_wf ht' ∧ ht_n_values ht' < ht_size ht'
  ∧ ht_compare ht' = ht_compare ht ∧ ht_hash ht' = ht_hash ht
  ∧ ht_n_values ht ≤ ht_n_values ht' ≤ ht_n_values ht + 1
  ∧ (ht_size ht' = ht_size ht ∨ ht_size ht' = 2 * (ht_n_values ht + 1)).
Proof.
  intros Hwf Hload Hbound Hk.
  destruct (ht_get_node ht key) as [n0|] eqn:Hget.
  - destruct (ht_insert_found ht key value n0 Hwf Hget)
      as (Hwf' & Hv & Hs & Hc & Hh & _).
    cbv zeta. rewrite Hv, Hs. split_and!; try done; try lia.
  - destruct (ht_insert_new ht key value Hwf Hload Hbound Hk Hget)
      as (Hwf' & Hl' & Hv & Hs & Hc & Hh & _).
    cbv zeta. split_and!; try done; try lia.
    rewrite Hs. destruct (Z.eqb_spec (ht_n_values ht + 1) (ht_size ht)); lia.
Qed.

Lemma ht_insert_lookup_same ht key value k :
  ht_wf ht → ht_n_values ht < ht_size ht → ht_size ht ≤ 2 ^ 52 →
  key ≠ NULL → k ≠ NULL → ht_compare ht key k = 0 →
  ∃ n, ht_get_node (ht_insert ht key value) k = Some n ∧ ht_value n = value.
Proof.
  intros Hwf Hload Hbound Hkey Hk Hcmp.
  pose proof (wf_cb _ Hwf) as Hcb.
  destruct (ht_get_node ht key) as [n0|] eqn:Hget.
  - destruct (ht_insert_found ht key value n0 Hwf Hget)
      as (Hwf' & _ & _ & Hc & _ & rest & Hn & Hn').
    exists (HtNode (ht_key n0) value). split; [|done].
    apply ht_get_node_iff; [done..|]. split.
    + rewrite Hn'. by left.
    + rewrite Hc. unfold matches. simpl.
      apply ht_get_node_elem in Hget as [_ Hm].
      by apply (cmp_trans _ _ Hcb _ key).
  - destruct (ht_insert_new ht key value Hwf Hload Hbound Hkey Hget)
      as (Hwf' & _ & _ & _ & Hc & _ & Hn').
    exists (HtNode key value). split; [|done].
    apply ht_get_node_iff; [done..|]. split.
    + rewrite Hn'. by left.
    + by rewrite Hc.
Qed.

Lemma ht_insert_lookup_other ht key value k :
  ht_wf ht → ht_n_values ht < ht_size ht → ht_size ht ≤ 2 ^ 52 →
  key ≠ NULL → k ≠ NULL → ht_compare ht key k ≠ 0 →
  ht_get_node (ht_insert ht key value) k = ht_get_node ht k.
Proof.
  intros Hwf Hload Hbound Hkey Hk Hcmp.
  pose proof (wf_cb _ Hwf) as Hcb.
  destruct (ht_get_node ht key) as [n0|] eqn:Hget.
  - destruct (ht_insert_found ht key value n0 Hwf Hget)
      as (Hwf' & _ & _ & Hc & _ & rest & Hn & Hn').
    apply ht_get_node_elem in Hget as [_ Hm]. unfold matches in Hm.
    assert (ht_compare ht (ht_key n0) k ≠ 0) as Hne.
    { intros E. apply Hcmp. apply (cmp_trans _ _ Hcb _ (ht_key n0)); [|done].
      by apply (cmp_sym _ _ Hcb). }
    apply ht_get_node_transfer; [done..|]. intros n.
    rewrite Hc, Hn, Hn', !elem_of_cons. unfold matches.
    split; (intros [[->|Hr] Hmn]; [by destruct Hne | by split; [right|]]).
  - destruct (ht_insert_new ht key value Hwf Hload Hbound Hkey Hget)
      as (Hwf' & _ & _ & _ & Hc & _ & Hn').
    apply ht_get_node_transfer; [done..|]. intros n.
    rewrite Hc, Hn', elem_of_cons. unfold matches. split.
    + intros [[->|Hr] Hmn]; [by destruct Hcmp | done].
    + intros [Hr Hmn]. split; [by right | done].
Qed.

Lemma ht_remove_wf ht key free_key free_value :
  ht_wf ht → key ≠ NULL →
  let ht' := (ht_remove ht key free_key free_value).1 in
  ht_wf ht' ∧ ht_size ht' = ht_size ht
  ∧ ht_compare ht' = ht_compare ht ∧ ht_hash ht' = ht_hash ht
  ∧ ht_n_values ht' ≤ ht_n_values ht.
Proof.
  intros Hwf Hk. destruct (ht_get_node ht key) as [n0|] eqn:Hget.
  - destruct (ht_remove_found ht key free_key free_value n0 Hwf Hk Hget)
      as (Hwf' & Hv & Hs & Hc & Hh & _).
    cbv zeta. split_and!; try done. lia.
  - rewrite ht_remove_absent by done. simpl. split_and!; try done.
Qed.

Lemma ht_remove_lookup_same ht key free_key free_value k :
  ht_wf ht → key ≠ NULL → k ≠ NULL → ht_compare ht key k = 0 →
  ht_get_node (ht_remove ht key free_key free_value).1 k = None.
Proof.
  intros Hwf Hkey Hk Hcmp. pose proof (wf_cb _ Hwf) as Hcb.
  assert (∀ n, matches (ht_compare ht) k n → matches (ht_compare ht) key n)
    as Hkk.
  { intros n Hm. unfold matches in *.
    apply (cmp_trans _ _ Hcb _ k); [done|]. by apply (cmp_sym _ _ Hcb). }
  destruct (ht_get_node ht key) as [n0|] eqn:Hget.
  - destruct (ht_remove_found ht key free_key free_value n0 Hwf Hkey Hget)
      as (Hwf' & _ & _ & Hc & _ & _ & rest & Hn & Hn').
    apply ht_get_node_None_iff; [done..|]. rewrite Hc. intros n Hin Hm.
    assert (n ∈ rest) as Hr.
    { destruct Hn' as [Hn'|Hn']; rewrite Hn' in Hin; [done|].
      apply elem_of_cons in Hin as [->|?]; [|done].
      unfold matches in Hm. simpl in Hm. by destruct (cmp_null _ _ Hcb k Hk). }
    (* [n0] and [n] would be two entries for [key] *)
    pose proof (wf_uniq _ Hwf key Hkey) as Hu. rewrite Hn in Hu.
    apply ht_get_node_elem in Hget as [_ Hm0].
    rewrite filter_cons_True in Hu by done.
    assert (n ∈ filter (matches (ht_compare ht) key) rest) as Hf.
    { apply list_elem_of_filter. split; [by apply Hkk | done]. }
    destruct (filter _ rest); [by apply elem_of_nil in Hf | simpl in Hu; lia].
  - rewrite ht_remove_absent by done. simpl.
    apply ht_get_node_None_iff; [done..|]. intros n Hin Hm.
    by apply (proj1 (ht_get_node_None_iff ht key Hwf Hkey) Hget n Hin), Hkk.
Qed.

Lemma ht_remove_lookup_other ht key free_key free_value k :
  ht_wf ht → key ≠ NULL → k ≠ NULL → ht_compare ht key k ≠ 0 →
  ht_get_node (ht_remove ht key free_key free_value).1 k = ht_get_node ht k.
Proof.
  intros Hwf Hkey Hk Hcmp. pose proof (wf_cb _ Hwf) as Hcb.
  destruct (ht_get_node ht key) as [n0|] eqn:Hget.
  - destruct (ht_remove_found ht key free_key free_value n0 Hwf Hkey Hget)
      as (Hwf' & _ & _ & Hc & _ & _ & rest & Hn & Hn').
    apply ht_get_node_elem in Hget as [_ Hm]. unfold matches in Hm.
    assert (ht_compare ht (ht_key n0) k ≠ 0) as Hne.
    { intros E. apply Hcmp. apply (cmp_trans _ _ Hcb _ (ht_key n0)); [|done].
      by apply (cmp_sym _ _ Hcb). }
    apply ht_get_node_transfer; [done..|]. intros n. rewrite Hc, Hn.
    destruct Hn' as [-> | ->]; rewrite ?elem_of_cons; unfold matches; split.
    + intros [Hr Hmn]. split; [by right | done].
    + intros [[->|Hr] Hmn]; [by destruct Hne | done].
    + intros [[->|Hr] Hmn]; [|by split; [right|]].
      simpl in Hmn. by destruct (cmp_null _ _ Hcb k Hk).
    + intros [[->|Hr] Hmn]; [by destruct Hne | by split; [right|]].
  - by rewrite ht_remove_absent.
Qed.

(** ** Growth *)

Definition ht_insert_all (ht : hashtable) (kvs : list (ptr * ptr)) : hashtable :=
  foldl (λ h kv, ht_insert h kv.1 kv.2) ht kvs.

(** No key of the sequence compares equal to a later one. *)
Fixpoint distinct_keys (cmp : ptr → ptr → Z) (kvs : list (ptr * ptr)) : Prop :=
  match kvs with
  | [] => True
  | a :: kvs' => Forall (λ b, cmp a.1 b.1 ≠ 0) kvs' ∧ distinct_keys cmp kvs'
  end.

Lemma ht_get_node_fresh ht key :
  (∀ x, x ∈ ht_nodes ht → ht_compare ht (ht_key x) key ≠ 0) →
  ht_get_node ht key = None.
Proof.
  intros H. destruct (ht_get_node ht key) as [n|] eqn:E; [|done].
  apply ht_get_node_elem in E as [Hn Hm]. by destruct (H n Hn).
Qed.

(** What one insert of the run does to the counters. *)
Definition growth_step (before after : hashtable) : Prop :=
  ht_n_values after = ht_n_values before + 1
  ∧ ht_size after
    = (if ht_n_values after =? ht_size before
       then ht_size before * GROWTH_FACTOR else ht_size before)
  ∧ ht_n_values after < ht_size after.

Lemma growth_run ht kvs :
  0 < ht_size ht → ht_size ht ≤ 2 ^ 52 →
  length (ht_table ht) = Z.to_nat (ht_size ht) →
  0 ≤ ht_n_values ht < ht_size ht →
  2 * (ht_n_values ht + Z.of_nat (length kvs)) ≤ 2 ^ 52 →
  (∀ x kv, x ∈ ht_nodes ht → kv ∈ kvs → ht_compare ht (ht_key x) kv.1 ≠ 0) →
  distinct_keys (ht_compare ht) kvs →
  ∀ n kv, kvs !! n = Some kv →
    let before := ht_insert_all ht (take n kvs) in
    ht_n_values before = ht_n_values ht + Z.of_nat n
    ∧ growth_step before (ht_insert before kv.1 kv.2).
Proof.
  revert ht. induction kvs as [|a kvs IH];
    intros ht Hpos Hbound Hlen Hn Hroom Hfresh Hdist n kv Hkv; [done|].
  assert (ht_get_node ht a.1 = None) as Hget.
  { apply ht_get_node_fresh. intros x Hx. apply Hfresh; [done | by left]. }
  destruct (ht_insert_new_shape ht a.1 a.2 Hpos Hbound Hlen Hn Hget)
    as (Hv & Hs & Hl & Hc & Hh & Hnd & _).
  destruct n as [|n]; simpl in Hkv |- *.
  - injection Hkv as <-. split; [lia|]. unfold growth_step, GROWTH_FACTOR.
    rewrite Hv, Hs. split_and!; [done| |].
    + destruct (Z.eqb_spec (ht_n_values ht + 1) (ht_size ht)); lia.
    + destruct (Z.eqb_spec (ht_n_values ht + 1) (ht_size ht)); lia.
  - simpl in Hroom. destruct Hdist as [Ha Hdist].
    set (ht1 := ht_insert ht a.1 a.2) in *.
    assert (ht_size ht1 = ht_size ht ∨ ht_size ht1 = 2 * (ht_n_values ht + 1))
      as Hs1.
    { rewrite Hs. destruct (Z.eqb_spec (ht_n_values ht + 1) (ht_size ht)); lia. }
    assert (ht_n_values ht1 < ht_size ht1) as Hload1.
    { rewrite Hs, Hv.
      destruct (Z.eqb_spec (ht_n_values ht + 1) (ht_size ht)); lia. }
    destruct (IH ht1) with (n := n) (kv := kv) as [Hcount Hstep];
      try done; try lia.
    + intros x kv' Hx Hkv'. rewrite Hc. rewrite Hnd in Hx.
      apply elem_of_cons in Hx as [->|Hx].
      * simpl. rewrite Forall_forall in Ha. by apply Ha.
      * apply Hfresh; [done | by right].
    + by rewrite Hc.
    + split; [|done]. unfold ht_insert_all in *. lia.
Qed.

(** C5 (growth trigger).  Along a run of inserts with pairwise distinct
    keys into a table created with capacity [S], every insert adds one
    entry; the bucket count doubles right after exactly the inserts whose
    resulting entry count reaches the bucket count, and stays as it is
    after every other insert; after every insert the entry count is
    below the bucket count, so the load is at most 1.0. *)
Theorem ht_growth_trigger (S : Z) cmp hash (kvs : list (ptr * ptr)) :
  0 < S ≤ 2 ^ 52 → 2 * Z.of_nat (length kvs) ≤ 2 ^ 52 →
  distinct_keys cmp kvs →
  ∀ n kv, kvs !! n = Some kv →
    let before := ht_insert_all (ht_create S cmp hash) (take n kvs) in
    let after := ht_insert before kv.1 kv.2 in
    after = ht_insert_all (ht_create S cmp hash) (take (n + 1) kvs)
    ∧ ht_n_values before = Z.of_nat n
    ∧ ht_n_values after = Z.of_nat n + 1
    ∧ (ht_n_values after = ht_size before →
       ht_size after = ht_size before * GROWTH_FACTOR)
    ∧ (ht_n_values after ≠ ht_size before → ht_size after = ht_size before)
    ∧ ht_n_values after ≤ ht_size after * MAX_LOAD_FACTOR.
Proof.
  intros HS Hlen Hdist n kv Hkv.
  destruct (growth_run (ht_create S cmp hash) kvs) with (n := n) (kv := kv)
    as (Hcount & Hv & Hs & Hload); simpl; try done; try lia.
  { apply length_initialise_table. }
  { intros x kv' Hx. unfold ht_nodes in Hx. simpl in Hx.
    rewrite concat_initialise_table in Hx. by apply elem_of_nil in Hx. }
  simpl in Hcount. cbv zeta. unfold MAX_LOAD_FACTOR. split_and!.
  - rewrite Nat.add_1_r, (take_S_r _ _ _ Hkv).
    unfold ht_insert_all. by rewrite foldl_snoc.
  - lia.
  - lia.
  - intros E. rewrite Hs. apply Z.eqb_eq in E. by rewrite E.
  - intros E. rewrite Hs. apply Z.eqb_neq in E. by rewrite E.
  - lia.
Qed.

Lemma ht_growth_trigger_witness :
  let kvs := [(1, 10); (2, 20); (3, 30); (4, 40); (5, 50)] in
  let before := ht_insert_all (ht_create 2 addr_compare addr_hash) (take 3 kvs) in
  let after := ht_insert before 4 40 in
  ht_size before = 4 ∧ ht_n_values after = 4 ∧ ht_size after = 8.
Proof.
  intros kvs before after.
  assert (0 < 2 ≤ 2 ^ 52) as H1 by (by vm_compute).
  assert (2 * Z.of_nat (length kvs) ≤ 2 ^ 52) as H2 by (by vm_compute).
  assert (distinct_keys addr_compare kvs) as H3.
  { simpl. unfold addr_compare. repeat split; repeat constructor; simpl; lia. }
  destruct (ht_growth_trigger 2 addr_compare addr_hash kvs H1 H2 H3 3%nat
              (4, 40) eq_refl) as (_ & _ & Hv & Hd & _).
  split; [by vm_compute|]. split; [by vm_compute|].
  apply Hd. by vm_compute.
Defined.

(** ** Runs of inserts and removals *)

Inductive ht_op :=
  | Insert (key value : ptr)
  | Remove (key free_key free_value : ptr).

Definition op_key (op : ht_op) : ptr :=
  match op with Insert key _ => key | Remove key _ _ => key end.

Definition ht_step (ht : hashtable) (op : ht_op) : hashtable :=
  match op with
  | Insert key value => ht_insert ht key value
  | Remove key free_key free_value => (ht_remove ht key free_key free_value).1
  end.

Definition ht_run (ht : hashtable) (ops : list ht_op) : hashtable :=
  foldl ht_step ht ops.

(** What the calls of a run say about [k], read off the calls alone: the
    most recent call whose key equals [k] decides.  [Some (Some v)]: it
    was an insert of [v]; [Some None]: it was a removal; [None]: no call
    was about [k]. *)
Fixpoint last_write (cmp : ptr → ptr → Z) (k : ptr) (ops : list ht_op)
  : option (option ptr) :=
  match ops with
  | [] => None
  | op :: ops' =>
      match last_write cmp k ops' with
      | Some w => Some w
      | None =>
          if cmp (op_key op) k =? 0 then
            match op with
            | Insert _ value => Some (Some value)
            | Remove _ _ _ => Some None
            end
          else None
      end
  end.

Lemma ht_step_wf ht op :
  ht_wf ht → ht_n_values ht < ht_size ht → ht_size ht ≤ 2 ^ 52 →
  op_key op ≠ NULL →
  let ht' := ht_step ht op in
  ht_wf ht' ∧ ht_n_values ht' < ht_size ht'
  ∧ ht_compare ht' = ht_compare ht
  ∧ ht_n_values ht' ≤ ht_n_values ht + 1
  ∧ (ht_size ht' = ht_size ht ∨ ht_size ht' = 2 * (ht_n_values ht + 1)).
Proof.
  intros Hwf Hload Hbound Hk. destruct op as [key value | key fk fv]; simpl in *.
  - destruct (ht_insert_wf ht key value Hwf Hload Hbound Hk)
      as (Hwf' & Hl & Hc & _ & Hv & Hs).
    split_and!; try done; lia.
  - destruct (ht_remove_wf ht key fk fv Hwf Hk) as (Hwf' & Hs & Hc & _ & Hv).
    split_and!; try done; try lia.
Qed.

Lemma ht_step_lookup_same ht op k :
  ht_wf ht → ht_n_values ht < ht_size ht → ht_size ht ≤ 2 ^ 52 →
  op_key op ≠ NULL → k ≠ NULL → ht_compare ht (op_key op) k = 0 →
  match op with
  | Insert _ value =>
      ∃ n, ht_get_node (ht_step ht op) k = Some n ∧ ht_value n = value
  | Remove _ _ _ => ht_get_node (ht_step ht op) k = None
  end.
Proof.
  intros Hwf Hload Hbound Hkey Hk Hcmp.
  destruct op as [key value | key fk fv]; simpl in *.
  - by apply ht_insert_lookup_same.
  - by apply ht_remove_lookup_same.
Qed.

Lemma ht_step_lookup_other ht op k :
  ht_wf ht → ht_n_values ht < ht_size ht → ht_size ht ≤ 2 ^ 52 →
  op_key op ≠ NULL → k ≠ NULL → ht_compare ht (op_key op) k ≠ 0 →
  ht_get_node (ht_step ht op) k = ht_get_node ht k.
Proof.
  intros Hwf Hload Hbound Hkey Hk Hcmp.
  destruct op as [key value | key fk fv]; simpl in *.
  - by apply ht_insert_lookup_other.
  - by apply ht_remove_lookup_other.
Qed.

(** The answers of [ht_search] and [ht_contains] that [last_write]
    predicts, given the answers before the run. *)
Definition search_after (w : option (option ptr)) (before : ptr) : ptr :=
  match w with
  | Some (Some value) => value
  | Some None => NULL
  | None => before
  end.

Definition contains_after (w : option (option ptr)) (before : bool) : bool :=
  match w with
  | Some (Some _) => true
  | Some None => false
  | None => before
  end.

Lemma ht_run_lookup ops : ∀ ht k,
  ht_wf ht → ht_n_values ht < ht_size ht → ht_size ht ≤ 2 ^ 52 →
  2 * (ht_n_values ht + Z.of_nat (length ops)) ≤ 2 ^ 52 →
  Forall (λ op, op_key op ≠ NULL) ops → k ≠ NULL →
  let ht' := ht_run ht ops in
  ht_wf ht'
  ∧ ht_search ht' k
    = search_after (last_write (ht_compare ht) k ops) (ht_search ht k)
  ∧ ht_contains ht' k
    = contains_after (last_write (ht_compare ht) k ops) (ht_contains ht k).
Proof.
  induction ops as [|op ops IH]; intros ht k Hwf Hload Hbound Hroom Hkeys Hk.
  { done. }
  inversion Hkeys as [|? ? Hkey Hkeys']; subst. simpl in Hroom.
  destruct (ht_step_wf ht op Hwf Hload Hbound Hkey)
    as (Hwf1 & Hload1 & Hc1 & Hv1 & Hs1).
  assert (0 ≤ ht_n_values (ht_step ht op)) as Hpos1.
  { rewrite (wf_count _ Hwf1). lia. }
  assert (0 ≤ ht_n_values ht) as Hpos0.
  { rewrite (wf_count _ Hwf). lia. }
  destruct (IH (ht_step ht op) k) as (Hwf' & Hsearch & Hcont);
    try done; try lia.
  cbv zeta. simpl ht_run. fold (ht_run (ht_step ht op) ops).
  split; [done|]. rewrite Hsearch, Hcont, Hc1. simpl last_write.
  destruct (last_write (ht_compare ht) k ops) as [w|]; [done|]. simpl.
  destruct (Z.eqb_spec (ht_compare ht (op_key op) k) 0) as [E|E].
  - pose proof (ht_step_lookup_same ht op k Hwf Hload Hbound Hkey Hk E) as Hl.
    unfold ht_search, ht_contains.
    destruct op as [key value | key fk fv].
    + destruct Hl as (n & -> & Hv). done.
    + by rewrite Hl.
  - unfold ht_search, ht_contains.
    by rewrite ht_step_lookup_other.
Qed.

(** C6 (last write wins).  After any run of [ht_insert] and [ht_remove]
    calls, whatever resizes they trigger, [ht_search] of a key returns
    the value of the most recent insert of that key, and [ht_contains]
    is true exactly when the most recent call about the key was an
    insert; a key no call was about is answered as before the run. *)
Theorem ht_last_write_wins (ht : hashtable) (ops : list ht_op) (k : ptr) :
  ht_wf ht → ht_n_values ht < ht_size ht → ht_size ht ≤ 2 ^ 52 →
  2 * (ht_n_values ht + Z.of_nat (length ops)) ≤ 2 ^ 52 →
  Forall (λ op, op_key op ≠ NULL) ops → k ≠ NULL →
  let ht' := ht_run ht ops in
  match last_write (ht_compare ht) k ops with
  | Some (Some value) => ht_search ht' k = value ∧ ht_contains ht' k = true
  | Some None => ht_search ht' k = NULL ∧ ht_contains ht' k = false
  | None => ht_search ht' k = ht_search ht k
            ∧ ht_contains ht' k = ht_contains ht k
  end.
Proof.
  intros Hwf Hload Hbound Hroom Hkeys Hk.
  destruct (ht_run_lookup ops ht k Hwf Hload Hbound Hroom Hkeys Hk)
    as (_ & Hs & Hc).
  cbv zeta. rewrite Hs, Hc.
  by destruct (last_write (ht_compare ht) k ops) as [[v|]|].
Qed.

Lemma ht_last_write_wins_witness :
  let ht := ht_create 2 addr_compare addr_hash in
  let ops := [Insert 1 10; Insert 3 30; Insert 1 11; Insert 5 50;
              Remove 3 0 0; Insert 7 70] in
  let ht' := ht_run ht ops in
  (ht_search ht' 1 = 11 ∧ ht_contains ht' 1 = true)
  ∧ (ht_search ht' 3 = NULL ∧ ht_contains ht' 3 = false)
  ∧ (ht_search ht' 9 = NULL ∧ ht_contains ht' 9 = false).
Proof.
  intros ht ops ht'.
  assert (ht_wf ht) as Hwf.
  { apply ht_create_wf; [by vm_compute | apply addr_callbacks_ok]. }
  assert (ht_n_values ht < ht_size ht) as Hload by (by vm_compute).
  assert (ht_size ht ≤ 2 ^ 52) as Hbound by (by vm_compute).
  assert (2 * (ht_n_values ht + Z.of_nat (length ops)) ≤ 2 ^ 52) as Hroom
    by (by vm_compute).
  assert (Forall (λ op, op_key op ≠ NULL) ops) as Hkeys
    by (repeat constructor; by vm_compute).
  split; [|split].
  - apply (ht_last_write_wins ht ops 1 Hwf Hload Hbound Hroom Hkeys).
    by vm_compute.
  - apply (ht_last_write_wins ht ops 3 Hwf Hload Hbound Hroom Hkeys).
    by vm_compute.
  - apply (ht_last_write_wins ht ops 9 Hwf Hload Hbound Hroom Hkeys).
    by vm_compute.
Defined.

(** ** Removal *)

(** C7 (remove: frame and splice).  [ht_remove] of a key the table holds
    leaves the key absent, takes one off the entry count, keeps the
    bucket count and the bucket array length, and keeps the entry of every
    other key; of a key the table does not hold it changes nothing and
    calls nothing.  In the chain, the node found takes over the key and
    value of its successor, whose node goes, or, without a successor,
    stays with its fields cleared. *)
Theorem ht_remove_frame (ht : hashtable) (key free_key free_value : ptr) :
  ht_wf ht → key ≠ NULL →
  let ht' := (ht_remove ht key free_key free_value).1 in
  let index := ht_get_index ht key in
  (ht_contains ht key = true →
     ht_contains ht' key = false
     ∧ ht_n_values ht' = ht_n_values ht - 1
     ∧ ht_size ht' = ht_size ht
     ∧ length (ht_table ht') = length (ht_table ht)
     ∧ ∀ k, k ≠ NULL → ht_compare ht key k ≠ 0 →
            ht_get_node ht' k = ht_get_node ht k)
  ∧ (ht_contains ht key = false →
     ht_remove ht key free_key free_value = (ht, []))
  ∧ (∀ pre node post,
       bucket (ht_table ht) index = pre ++ node :: post →
       ht_get_node ht key = Some node →
       Forall (λ x, ¬ matches (ht_compare ht) key x) pre →
       ht_table ht'
       = <[Z.to_nat index :=
             pre ++ match post with
                    | next_node :: post' =>
                        HtNode (ht_key next_node) (ht_value next_node) :: post'
                    | [] => [HtNode NULL NULL]
                    end]> (ht_table ht)).
Proof.
  intros Hwf Hk. cbv zeta. split_and!.
  - unfold ht_contains at 1.
    destruct (ht_get_node ht key) as [n0|] eqn:Hget; [intros _ | done].
    destruct (ht_remove_found ht key free_key free_value n0 Hwf Hk Hget)
      as (Hwf' & Hv & Hs & Hc & Hh & Hl & _).
    split_and!; try done.
    + unfold ht_contains. rewrite ht_remove_lookup_same; try done.
      by apply (cmp_refl _ _ (wf_cb _ Hwf)).
    + intros k Hk' Hne. by apply ht_remove_lookup_other.
  - unfold ht_contains.
    destruct (ht_get_node ht key) eqn:Hget; [done | intros _].
    by apply ht_remove_absent.
  - intros pre node post Hb Hget Hpre.
    apply ht_get_node_elem in Hget as [_ Hm].
    unfold ht_remove. rewrite Hb, chain_remove_split by done. simpl.
    by destruct post as [|[] ?].
Qed.

Lemma ht_remove_frame_witness :
  let ht := ht_insert_all (ht_create 2 addr_compare addr_hash)
              [(1, 10); (3, 30); (5, 50); (9, 90)] in
  let ht' := (ht_remove ht 1 0 0).1 in
  ht_n_values ht' = 3 ∧ ht_size ht' = 8 ∧ ht_contains ht' 1 = false
  ∧ ht_get_node ht' 9 = Some (HtNode 9 90)
  ∧ bucket (ht_table ht) 1 = [HtNode 1 10; HtNode 9 90]
  ∧ bucket (ht_table ht') 1 = [HtNode 9 90].
Proof.
  intros ht ht'.
  assert (ht_wf ht) as Hwf.
  { apply (ht_run_lookup [Insert 1 10; Insert 3 30; Insert 5 50; Insert 9 90]
             (ht_create 2 addr_compare addr_hash) 1).
    - apply ht_create_wf; [by vm_compute | apply addr_callbacks_ok].
    - by vm_compute.
    - by vm_compute.
    - by vm_compute.
    - repeat constructor; by vm_compute.
    - by vm_compute. }
  assert (1 ≠ NULL) as Hk by (by vm_compute).
  destruct (ht_remove_frame ht 1 0 0 Hwf Hk) as (Hpresent & _ & Hsplice).
  destruct Hpresent as (Hc & Hn & Hs & _ & Hother);
    [vm_compute; reflexivity|].
  fold ht' in Hc, Hn, Hs, Hother, Hsplice.
  split_and!.
  - rewrite Hn. vm_compute; reflexivity.
  - rewrite Hs. vm_compute; reflexivity.
  - exact Hc.
  - rewrite Hother; [vm_compute; reflexivity | by vm_compute | by vm_compute].
  - vm_compute; reflexivity.
  - rewrite (Hsplice [] (HtNode 1 10) [HtNode 9 90]).
    + vm_compute; reflexivity.
    + vm_compute; reflexivity.
    + vm_compute; reflexivity.
    + constructor.
Defined.

(** Against C9 as the specification states it: after the removal of a chain's last
    node, a lookup in that bucket that finds its key earlier in the chain
    returns before it reaches the cleared node, and never passes [NULL]
    to [compare]. *)
Lemma ht_cleared_node_counterexample :
  let ht := ht_insert_all (ht_create 2 addr_compare addr_hash)
              [(1, 10); (3, 30); (5, 50)] in
  let ht' := (ht_remove ht 1 0 0).1 in
  bucket (ht_table ht) (ht_get_index ht 1) = [HtNode 5 50; HtNode 1 10]
  ∧ bucket (ht_table ht') (ht_get_index ht 1) = [HtNode 5 50; HtNode NULL NULL]
  ∧ ht_get_index ht' 5 = ht_get_index ht 1
  ∧ ht_compare_calls ht' 5 = [(5, 5)]
  ∧ ¬ (NULL, 5) ∈ ht_compare_calls ht' 5.
Proof.
  cbv zeta. split_and!; try by vm_compute.
  assert (ht_compare_calls
            (ht_remove (ht_insert_all (ht_create 2 addr_compare addr_hash)
                          [(1, 10); (3, 30); (5, 50)]) 1 0 0).1 5
          = [(5, 5)]) as -> by (by vm_compute).
  intros H%list_elem_of_singleton. discriminate H.
Qed.

(** A chain that ends in a cleared node. *)
Definition cleared_tail (t : list (list ht_node)) (b : Z) : Prop :=
  ∃ pre cleared, bucket t b = pre ++ [cleared] ∧ ht_key cleared = NULL.

(** A run that never grows the table. *)
Fixpoint no_resize (ht : hashtable) (ops : list ht_op) : Prop :=
  match ops with
  | [] => True
  | op :: ops' =>
      ht_size (ht_step ht op) = ht_size ht ∧ no_resize (ht_step ht op) ops'
  end.

Lemma bucket_insert_ne (t : list (list ht_node)) i j chain :
  Z.to_nat i ≠ Z.to_nat j → bucket (<[Z.to_nat i := chain]> t) j = bucket t j.
Proof. intros H. unfold bucket. by rewrite list_lookup_insert_ne. Qed.

Lemma chain_set_value_tail cmp key value pre c :
  ∃ pre' c', chain_set_value cmp key value (pre ++ [c]) = pre' ++ [c']
             ∧ ht_key c' = ht_key c.
Proof.
  induction pre as [|x pre IH]; simpl.
  - destruct (cmp (ht_key c) key =? 0).
    + by exists [], (HtNode (ht_key c) value).
    + by exists [], c.
  - destruct (cmp (ht_key x) key =? 0).
    + by exists (HtNode (ht_key x) value :: pre), c.
    + destruct IH as (pre' & c' & -> & Hk). by exists (x :: pre'), c'.
Qed.

Lemma chain_remove_tail cmp key pre c chain' old :
  ht_key c = NULL →
  chain_remove cmp key (pre ++ [c]) = Some (chain', old) →
  ∃ pre' c', chain' = pre' ++ [c'] ∧ ht_key c' = NULL.
Proof.
  intros Hc. revert chain'. induction pre as [|x pre IH]; intros chain'; simpl.
  - destruct (cmp (ht_key c) key =? 0); [|done].
    intros [= <- _]. by exists [], (HtNode NULL NULL).
  - destruct (cmp (ht_key x) key =? 0).
    + destruct pre as [|y pre]; simpl.
      * intros [= <- _]. exists [], (HtNode (ht_key c) (ht_value c)). done.
      * intros [= <- _].
        by exists (HtNode (ht_key y) (ht_value y) :: pre), c.
    + destruct (chain_remove cmp key (pre ++ [c])) as [[rest' o]|]; [|done].
      intros [= <- <-]. destruct (IH rest' eq_refl) as (pre' & c' & -> & Hk).
      by exists (x :: pre'), c'.
Qed.

(** A call that does not grow the table keeps a cleared node at the end
    of its chain. *)
Lemma cleared_tail_step ht op b :
  0 < ht_size ht < 2 ^ 64 → length (ht_table ht) = Z.to_nat (ht_size ht) →
  0 ≤ b < ht_size ht → ht_size (ht_step ht op) = ht_size ht →
  cleared_tail (ht_table ht) b →
  cleared_tail (ht_table (ht_step ht op)) b
  ∧ length (ht_table (ht_step ht op)) = length (ht_table ht)
  ∧ ht_compare (ht_step ht op) = ht_compare ht
  ∧ ht_hash (ht_step ht op) = ht_hash ht.
Proof.
  intros Hs Hl Hb Hsize (pre & c & Hbucket & Hc).
  assert (∀ key chain,
            (∃ pre' c', (ht_get_index ht key = b → chain = pre' ++ [c'])
                        ∧ ht_key c' = NULL) →
            cleared_tail (<[Z.to_nat (ht_get_index ht key) := chain]>
                            (ht_table ht)) b) as Hupd.
  { intros key chain (pre' & c' & Hchain & Hc').
    pose proof (ht_get_index_range ht key (proj1 Hs)) as Hr.
    destruct (decide (ht_get_index ht key = b)) as [E|E].
    - exists pre', c'. split; [|done]. rewrite (Hchain E), <- E.
      apply bucket_insert_eq. lia.
    - exists pre, c. split; [|done]. rewrite bucket_insert_ne by lia. done. }
  destruct op as [key value|key fk fv]; unfold ht_step in *.
  - unfold ht_insert in *. destruct (ht_get_node ht key) as [n|].
    + cbn [set_table ht_table ht_compare ht_hash].
      rewrite length_insert. split_and!; try done. apply Hupd.
      destruct (chain_set_value_tail (ht_compare ht) key value pre c)
        as (pre' & c' & E & Hk).
      exists pre', c'. split; [|congruence]. intros <-. by rewrite Hbucket.
    + cbv zeta in Hsize |- *.
      destruct (_needs_resize _).
      * exfalso. unfold _resize_ht, set_table, set_size, set_n_values in Hsize.
        cbn [ht_size] in Hsize. unfold wrap, SIZE_WIDTH, GROWTH_FACTOR in Hsize.
        pose proof (Z.div_mod (ht_size ht * 2) (2 ^ 64)) as Hdm.
        pose proof (Z.mod_pos_bound (ht_size ht * 2) (2 ^ 64)) as Hmb.
        lia.
      * cbn [set_n_values set_table ht_table ht_compare ht_hash].
        rewrite length_insert. split_and!; try done. apply Hupd.
        exists (HtNode key value :: pre), c. split; [|done].
        intros <-. by rewrite Hbucket.
  - unfold ht_remove in *.
    destruct (chain_remove _ _ _) as [[chain' old]|] eqn:Hrm;
      [|simpl; split_and!; try done; by exists pre, c].
    cbn [fst set_n_values set_table ht_table ht_compare ht_hash].
    rewrite length_insert. split_and!; try done. apply Hupd.
    destruct (decide (ht_get_index ht key = b)) as [E|E].
    + rewrite E, Hbucket in Hrm.
      destruct (chain_remove_tail _ _ _ _ _ _ Hc Hrm) as (pre' & c' & -> & Hk).
      by exists pre', c'.
    + exists [], c. by split.
Qed.

Lemma cleared_tail_run ops : ∀ ht b,
  0 < ht_size ht < 2 ^ 64 → length (ht_table ht) = Z.to_nat (ht_size ht) →
  0 ≤ b < ht_size ht → no_resize ht ops →
  cleared_tail (ht_table ht) b →
  cleared_tail (ht_table (ht_run ht ops)) b
  ∧ ht_size (ht_run ht ops) = ht_size ht
  ∧ ht_compare (ht_run ht ops) = ht_compare ht
  ∧ ht_hash (ht_run ht ops) = ht_hash ht.
Proof.
  induction ops as [|op ops IH]; intros ht b Hs Hl Hb Hno Hct; [done|].
  destruct Hno as [Hsize Hno].
  destruct (cleared_tail_step ht op b Hs Hl Hb Hsize Hct)
    as (Hct1 & Hl1 & Hc1 & Hh1).
  destruct (IH (ht_step ht op) b) as (Hct' & Hs' & Hc' & Hh'); try done.
  - by rewrite Hsize.
  - by rewrite Hl1, Hsize.
  - by rewrite Hsize.
  - cbn [ht_run foldl]. fold (ht_run (ht_step ht op) ops).
    split_and!; [done | congruence..].
Qed.

(** The calls of a lookup in a chain that ends in a cleared node. *)
Lemma cleared_tail_calls ht b pre cleared k :
  bucket (ht_table ht) b = pre ++ [cleared] → ht_key cleared = NULL →
  ht_get_index ht k = b →
  match chain_get_node (ht_compare ht) k pre with
  | None =>
      ht_compare_calls ht k = map (λ x, (ht_key x, k)) pre ++ [(NULL, k)]
  | Some m =>
      ∃ pre1 post1, pre = pre1 ++ m :: post1
        ∧ ht_compare_calls ht k = map (λ x, (ht_key x, k)) (pre1 ++ [m])
  end.
Proof.
  intros Hb Hc Hk. unfold ht_compare_calls. rewrite Hk, Hb.
  destruct (chain_get_node (ht_compare ht) k pre) as [m|] eqn:E.
  - apply chain_get_node_Some in E as (pre1 & post1 & -> & Hpre1 & Hm1).
    exists pre1, post1. split; [done|].
    rewrite <- (assoc (++)). simpl. by apply chain_compare_calls_found.
  - apply chain_get_node_None in E.
    rewrite chain_compare_calls_app by done. simpl. rewrite Hc.
    by destruct (_ =? _).
Qed.

(** C9, amended (cleared node).  When [ht_remove] removes the last node
    of its chain, the node stays in the chain with [NULL] key and value,
    and a cleared node stays at the end of that chain over every later
    insert and removal, as long as the table is not resized (or reset).
    In the state right after the removal and in every such later state, a
    lookup of a key of that bucket that no earlier node of the chain
    matches walks on to the cleared node and calls [compare] with [NULL]
    as first argument; a lookup that an earlier node matches stops
    there. *)
Theorem ht_remove_last_leaves_cleared_node
    (ht : hashtable) (key free_key free_value : ptr) (pre : list ht_node)
    (node : ht_node) :
  0 < ht_size ht < 2 ^ 64 → length (ht_table ht) = Z.to_nat (ht_size ht) →
  bucket (ht_table ht) (ht_get_index ht key) = pre ++ [node] →
  Forall (λ x, ¬ matches (ht_compare ht) key x) pre →
  matches (ht_compare ht) key node →
  let ht1 := (ht_remove ht key free_key free_value).1 in
  bucket (ht_table ht1) (ht_get_index ht key) = pre ++ [HtNode NULL NULL]
  ∧ (∀ k, ht_get_index ht1 k = ht_get_index ht key →
      match chain_get_node (ht_compare ht) k pre with
      | None =>
          ht_compare_calls ht1 k
          = map (λ x, (ht_key x, k)) pre ++ [(NULL, k)]
      | Some m =>
          ∃ pre1 post1, pre = pre1 ++ m :: post1
            ∧ ht_compare_calls ht1 k = map (λ x, (ht_key x, k)) (pre1 ++ [m])
      end)
  ∧ ∀ ops, no_resize ht1 ops →
      let ht' := ht_run ht1 ops in
      ∃ pre' cleared,
        bucket (ht_table ht') (ht_get_index ht key) = pre' ++ [cleared]
        ∧ ht_key cleared = NULL
        ∧ ∀ k, ht_get_index ht' k = ht_get_index ht key →
            match chain_get_node (ht_compare ht) k pre' with
            | None =>
                ht_compare_calls ht' k
                = map (λ x, (ht_key x, k)) pre' ++ [(NULL, k)]
            | Some m =>
                ∃ pre1 post1, pre' = pre1 ++ m :: post1
                  ∧ ht_compare_calls ht' k
                    = map (λ x, (ht_key x, k)) (pre1 ++ [m])
            end.
Proof.
  intros Hs Hl Hb Hpre Hm. cbv zeta.
  pose proof (ht_get_index_range ht key (proj1 Hs)) as Hr.
  set (ht1 := (ht_remove ht key free_key free_value).1).
  assert (bucket (ht_table ht1) (ht_get_index ht key)
          = pre ++ [HtNode NULL NULL]) as Hb1.
  { unfold ht1, ht_remove. rewrite Hb, chain_remove_split by done. simpl.
    apply bucket_insert_eq. lia. }
  assert (ht_compare ht1 = ht_compare ht ∧ ht_size ht1 = ht_size ht
          ∧ length (ht_table ht1) = length (ht_table ht)) as (Hc1 & Hs1 & Hl1).
  { unfold ht1, ht_remove. rewrite Hb, chain_remove_split by done. simpl.
    by rewrite length_insert. }
  split; [done|]. split.
  - intros k Hk. rewrite <- Hc1. by apply (cleared_tail_calls ht1 _ _ _ k Hb1).
  - intros ops Hno.
    destruct (cleared_tail_run ops ht1 (ht_get_index ht key))
      as ((pre' & c & Hb' & Hc) & _ & Hc' & _); try done.
    + by rewrite Hs1.
    + by rewrite Hl1, Hs1.
    + by rewrite Hs1.
    + by exists pre, (HtNode NULL NULL).
    + exists pre', c. split; [done|]. split; [done|]. intros k Hk.
      rewrite <- Hc1, <- Hc'. by apply (cleared_tail_calls _ _ _ _ k Hb' Hc).
Qed.

Lemma ht_remove_last_leaves_cleared_node_witness :
  let ht := ht_insert_all (ht_create 2 addr_compare addr_hash)
              [(1, 10); (3, 30); (5, 50)] in
  let ht1 := (ht_remove ht 1 0 0).1 in
  let ht' := ht_run ht1 [Insert 9 90; Remove 5 0 0] in
  bucket (ht_table ht1) (ht_get_index ht 1) = [HtNode 5 50; HtNode NULL NULL]
  ∧ ht_compare_calls ht1 9 = [(5, 9); (NULL, 9)]
  ∧ bucket (ht_table ht') (ht_get_index ht 1) = [HtNode 9 90; HtNode NULL NULL]
  ∧ ht_compare_calls ht' 13 = [(9, 13); (NULL, 13)].
Proof.
  intros ht ht1 ht'.
  destruct (ht_remove_last_leaves_cleared_node ht 1 0 0
              [HtNode 5 50] (HtNode 1 10)) as (Hb & Hcalls & Hlater).
  - by vm_compute.
  - by vm_compute.
  - by vm_compute.
  - repeat constructor. by vm_compute.
  - by vm_compute.
  - fold ht1 in Hb, Hcalls, Hlater.
    assert (no_resize ht1 [Insert 9 90; Remove 5 0 0]) as Hno.
    { vm_compute. split_and!; reflexivity || exact I. }
    destruct (Hlater [Insert 9 90; Remove 5 0 0] Hno)
      as (pre' & c & Hb' & Hc & Hcalls').
    fold ht' in Hb', Hcalls'.
    assert (bucket (ht_table ht') (ht_get_index ht 1)
            = [HtNode 9 90] ++ [HtNode NULL NULL]) as E
      by (vm_compute; reflexivity).
    rewrite E in Hb'. apply app_inj_tail in Hb' as [<- <-].
    split_and!; [exact Hb | | exact E |].
    + apply (Hcalls 9). vm_compute; reflexivity.
    + apply (Hcalls' 13). vm_compute; reflexivity.
Defined.

(** ** Absent key or null value *)





(** * Properties of the doubly linked list *)

Lemma malloc_not_null {A} (m : gmap Z A) : malloc m ≠ NULL.
Proof.
  unfold malloc. intros E.
  match type of E with fresh ?X = _ => apply (is_fresh X) end.
  apply elem_of_union. left. apply elem_of_singleton. exact E.
Qed.

Lemma malloc_fresh {A} (m : gmap Z A) : m !! malloc m = None.
Proof.
  apply not_elem_of_dom. unfold malloc. intros E.
  match type of E with fresh ?X ∈ _ => apply (is_fresh X) end.
  apply elem_of_union. right. exact E.
Qed.

(** ** The list a memory holds between two nodes *)

(** [dll_seg m prev cur l last nxt]: starting at [cur], whose [prev] is
    [prev], the nodes at the addresses of [l] are linked in this order and
    hold the data of [l]; [last] is the final node ([prev] when [l] is
    empty) and [nxt] its [next]. *)
Fixpoint dll_seg (m : gmap Z DLL_node) (prev cur : ptr)
    (l : list (ptr * ptr)) (last nxt : ptr) : Prop :=
  match l with
  | [] => cur = nxt ∧ last = prev
  | (a, d) :: l' =>
      cur = a ∧ a ≠ NULL
      ∧ ∃ nx, m !! a = Some (DllNode d prev nx) ∧ dll_seg m a nx l' last nxt
  end.

(** [dll] is the list of the nodes [l] (address, data), head first. *)
Definition dll_repr (m : gmap Z DLL_node) (dll : DLL_t)
    (l : list (ptr * ptr)) : Prop :=
  dll_seg m NULL (dll_head dll) l (dll_tail dll) NULL ∧ NoDup l.*1.

Lemma dll_seg_frame m m' prev cur l last nxt :
  (∀ a, a ∈ l.*1 → m' !! a = m !! a) →
  dll_seg m prev cur l last nxt → dll_seg m' prev cur l last nxt.
Proof.
  revert prev cur. induction l as [|[a d] l IH]; intros prev cur Hf; simpl.
  - done.
  - intros (-> & Ha & nx & Hm & Hseg). split_and!; [done..|].
    exists nx. split.
    + rewrite Hf; [done | by left].
    + apply IH; [|done]. intros b Hb. apply Hf. by right.
Qed.

Lemma dll_seg_dom m prev cur l last nxt a :
  dll_seg m prev cur l last nxt → a ∈ l.*1 → is_Some (m !! a) ∧ a ≠ NULL.
Proof.
  revert prev cur. induction l as [|[b d] l IH]; intros prev cur; simpl.
  - by intros _ ?%elem_of_nil.
  - intros (-> & Hb & nx & Hm & Hseg) [->|Ha]%elem_of_cons; [by eauto|].
    by eapply IH.
Qed.

Lemma dll_seg_app m prev cur l1 l2 last nxt :
  dll_seg m prev cur (l1 ++ l2) last nxt ↔
  ∃ mid_last mid, dll_seg m prev cur l1 mid_last mid
                  ∧ dll_seg m mid_last mid l2 last nxt.
Proof.
  revert prev cur. induction l1 as [|[a d] l1 IH]; intros prev cur; simpl.
  - split.
    + intros H. by exists prev, cur.
    + by intros (? & ? & [-> ->] & H).
  - split.
    + intros (-> & Ha & nx & Hm & Hseg).
      apply IH in Hseg as (ml & mc & H1 & H2). exists ml, mc.
      split; [|done]. split_and!; [done..|]. by exists nx.
    + intros (ml & mc & (-> & Ha & nx & Hm & H1) & H2).
      split_and!; [done..|]. exists nx. split; [done|].
      apply IH. by exists ml, mc.
Qed.

Lemma dll_seg_snoc m prev cur l a d last nxt :
  dll_seg m prev cur (l ++ [(a, d)]) last nxt ↔
  last = a ∧ a ≠ NULL
  ∧ ∃ pl, dll_seg m prev cur l pl a ∧ m !! a = Some (DllNode d pl nxt).
Proof.
  rewrite dll_seg_app. simpl. split.
  - intros (ml & mc & H1 & -> & Ha & nx & Hm & -> & ->).
    split_and!; [done..|]. by exists ml.
  - intros (-> & Ha & pl & H1 & Hm). exists pl, a.
    split; [done|]. split_and!; [done..|]. by exists nxt.
Qed.

Lemma dll_seg_last m prev cur l last nxt :
  dll_seg m prev cur l last nxt →
  last = List.last l.*1 prev ∧ (l ≠ [] → last ≠ NULL ∧ last ∈ l.*1).
Proof.
  destruct l as [|x l _] using rev_ind.
  - simpl. intros [_ ->]. done.
  - destruct x as [a d]. intros (-> & Ha & _)%dll_seg_snoc.
    rewrite fmap_app. simpl. rewrite last_last.
    split; [done | intros _].
    split; [done|]. apply elem_of_app. right. by left.
Qed.

Lemma dll_repr_nil m dll :
  dll_repr m dll [] ↔ dll_head dll = NULL ∧ dll_tail dll = NULL.
Proof. unfold dll_repr. simpl. split; [by intros [[??] _] | intros [??]]. split; [done | constructor]. Qed.

(** The walk of a represented list returns its data. *)
Lemma dll_seg_walk m prev cur l last fuel :
  dll_seg m prev cur l last NULL → (length l ≤ fuel)%nat →
  DLL_walk fuel m cur = Some l.*2.
Proof.
  revert prev cur fuel. induction l as [|[a d] l IH]; intros prev cur fuel.
  - simpl. intros [-> _] _. by destruct fuel.
  - simpl. intros (-> & Ha & nx & Hm & Hseg) Hlen.
    destruct fuel as [|fuel]; [lia|]. simpl.
    destruct (Z.eqb_spec a NULL) as [|_]; [done|].
    rewrite Hm. simpl. rewrite (IH a nx fuel) by (done || lia). done.
Qed.

Lemma dll_repr_length m dll l :
  dll_repr m dll l → (length l ≤ size m)%nat.
Proof.
  intros [Hseg Hnd]. rewrite <- (length_fmap fst).
  rewrite <- size_dom. unfold size, set_size. simpl.
  apply submseteq_length, NoDup_submseteq; [done|].
  intros a Ha. apply elem_of_elements, elem_of_dom.
  by apply (dll_seg_dom _ _ _ _ _ _ a Hseg).
Qed.

Lemma dll_repr_elements m dll l :
  dll_repr m dll l → DLL_elements m dll = Some l.*2.
Proof.
  intros Hr. unfold DLL_elements. destruct (Hr) as [Hseg _].
  eapply dll_seg_walk; [done|]. by eapply dll_repr_length.
Qed.


Lemma dll_seg_cur_not_null m prev cur l last nxt :
  dll_seg m prev cur l last nxt → nxt ≠ NULL → cur ≠ NULL.
Proof.
  destruct l as [|[a d] l]; simpl.
  - by intros [-> _].
  - by intros (-> & Ha & _) _.
Qed.

(** ** [DLL_insert_tail] *)

Lemma DLL_insert_tail_repr m dll l data :
  dll_repr m dll l →
  ∃ m' dll',
    DLL_insert_tail m dll data = Some (m', dll')
    ∧ dll_repr m' dll' (l ++ [(malloc m, data)])
    ∧ dll_tail dll' = malloc m
    ∧ (∀ a, a ≠ malloc m → a ∉ l.*1 → m' !! a = m !! a)
    ∧ dom m' = dom m ∪ {[malloc m]}.
Proof.
  intros [Hseg Hnd]. unfold DLL_insert_tail.
  pose proof (malloc_not_null m) as Hn. pose proof (malloc_fresh m) as Hf.
  set (node := malloc m) in *.
  assert (node ∉ l.*1) as Hnode.
  { intros Hin. destruct (dll_seg_dom _ _ _ _ _ _ _ Hseg Hin) as [[? E] _].
    congruence. }
  assert (NoDup (l ++ [(node, data)]).*1) as Hnd'.
  { rewrite fmap_app. apply NoDup_app. split_and!; [done| |apply NoDup_singleton].
    intros x Hx ->%list_elem_of_singleton. done. }
  destruct l as [|[t dt] l _] using rev_ind.
  - destruct Hseg as [Hh Ht]. rewrite Ht. simpl.
    eexists _, _. split; [done|]. rewrite Hh. simpl. split_and!; try done.
    + split; [|done]. simpl. split_and!; [done..|].
      exists NULL. by rewrite lookup_insert_eq.
    + intros a Ha _. by rewrite lookup_insert_ne.
    + rewrite dom_insert_L. apply (comm (∪)).
  - apply dll_seg_snoc in Hseg as (Ht & Htn & pl & Hseg & Hm).
    rewrite Ht. destruct (Z.eqb_spec t NULL) as [|_]; [done|].
    assert (t ≠ node) as Htnode by (intros ->; congruence).
    unfold dll_write. rewrite lookup_insert_ne by done. rewrite Hm. simpl.
    eexists _, _. split; [done|]. simpl.
    rewrite fmap_app in Hnd. apply NoDup_app in Hnd as (Hndl & Hdisj & _).
    assert (t ∉ l.*1) as Htl.
    { intros Hin. apply (Hdisj t Hin). by left. }
    rewrite fmap_app in Hnode. apply not_elem_of_app in Hnode as [Hnl _].
    pose proof (dll_seg_cur_not_null _ _ _ _ _ _ Hseg Htn) as Hhead.
    destruct (Z.eqb_spec (dll_head dll) NULL) as [|_]; [done|].
    split_and!; try done.
    + split; [|done]. apply dll_seg_snoc. split_and!; [done..|].
      exists t. split.
      * apply dll_seg_snoc. split_and!; [done..|]. exists pl. split.
        -- eapply dll_seg_frame; [|done]. intros a Ha.
           rewrite !lookup_insert_ne; [done|congruence..].
        -- by rewrite lookup_insert_eq.
      * rewrite lookup_insert_ne by done. by rewrite lookup_insert_eq.
    + intros a Ha Hal. rewrite fmap_app in Hal.
      apply not_elem_of_app in Hal as [_ Hat].
      rewrite !lookup_insert_ne; [done | done |].
      intros ->. apply Hat. by left.
    + rewrite !dom_insert_L.
      assert (t ∈ dom m) as Htd by (apply elem_of_dom; eauto).
      rewrite subseteq_union_1_L; [apply (comm (∪))|].
      apply singleton_subseteq_l, elem_of_union. by right.
Qed.

Lemma dll_repr_frame m m' dll l :
  (∀ a, a ∈ l.*1 → m' !! a = m !! a) → dll_repr m dll l → dll_repr m' dll l.
Proof. intros Hf [Hseg Hnd]. split; [|done]. by eapply dll_seg_frame. Qed.

(** * Properties of the resource allocation graph *)

(** ** The graphs the operations build *)

(** [key->type], read through the key memory. *)
Definition key_has_type (m : memory) (type : type_t) (key : ptr) : Prop :=
  ck_type <$> mem_keys m !! key = Some type.

(** [rag_ok m rag lp lr]: the order lists of [rag] are the nodes [lp] and
    [lr] (address, key); the counters are their lengths; the keys of the
    node table are the keys of the two lists, filed by type; every value
    of the node table is the address of a graph node. *)
Record rag_ok (m : memory) (rag : RAG_t) (lp lr : list (ptr * ptr)) : Prop := {
  ok_size_pos : 0 < ht_size (rag_ht rag);
  ok_length :
    length (ht_table (rag_ht rag)) = Z.to_nat (ht_size (rag_ht rag));
  ok_load : ht_n_values (rag_ht rag) < ht_size (rag_ht rag);
  ok_count :
    ht_n_values (rag_ht rag) = Z.of_nat (length (ht_nodes (rag_ht rag)));
  ok_values :
    ∀ x, x ∈ ht_nodes (rag_ht rag) → is_Some (mem_nodes m !! ht_value x);
  ok_keys : ht_key <$> ht_nodes (rag_ht rag) ≡ₚ lp.*2 ++ lr.*2;
  ok_proc : dll_repr (mem_dll m) (proc_key_list rag) lp;
  ok_res : dll_repr (mem_dll m) (res_key_list rag) lr;
  ok_disj : ∀ a, a ∈ lp.*1 → a ∉ lr.*1;
  ok_ptype : Forall (key_has_type m PROCESS_T) lp.*2;
  ok_rtype : Forall (key_has_type m RESOURCE_T) lr.*2;
  ok_np : n_processes rag = Z.of_nat (length lp);
  ok_nr : n_resources rag = Z.of_nat (length lr)
}.

Lemma ht_nodes_create size cmp hash : ht_nodes (ht_create size cmp hash) = [].
Proof. unfold ht_nodes, ht_create. simpl. apply concat_initialise_table. Qed.

Lemma RAG_create_ok m cmp hash : rag_ok m (RAG_create cmp hash) [] [].
Proof.
  split; unfold RAG_create;
    cbn [rag_ht proc_key_list res_key_list n_processes n_resources];
    rewrite ?ht_nodes_create.
  - done.
  - apply length_initialise_table.
  - done.
  - done.
  - intros x Hx. by apply elem_of_nil in Hx.
  - done.
  - by apply dll_repr_nil.
  - by apply dll_repr_nil.
  - intros a Ha. by apply elem_of_nil in Ha.
  - constructor.
  - constructor.
  - done.
  - done.
Qed.

Lemma ht_unique_insert_new ht key value :
  ht_get_node ht key = None →
  (ht_unique_insert ht key value).1 = ht_insert ht key value.
Proof. intros H. unfold ht_unique_insert, ht_contains. by rewrite H. Qed.

(** The creation path: a new graph node, a new entry of the node table,
    the key appended to the order list of its type, that counter
    incremented. *)
Lemma RAG_add_node_ok m rag lp lr key data next k :
  rag_ok m rag lp lr → ht_size (rag_ht rag) ≤ 2 ^ 52 →
  ht_get_node (rag_ht rag) key = None → mem_keys m !! key = Some k →
  ∃ m' rag' a,
    RAG_add_node m rag key data next = Some (m', rag', ADDED_NODE)
    ∧ rag_ok m' rag'
        (if decide (ck_type k = PROCESS_T) then lp ++ [(a, key)] else lp)
        (if decide (ck_type k = PROCESS_T) then lr else lr ++ [(a, key)])
    ∧ mem_keys m' = mem_keys m
    ∧ mem_nodes m'
      = <[malloc (mem_nodes m) := RagNode key data NULL next]> (mem_nodes m)
    ∧ rag_ht rag' = ht_insert (rag_ht rag) key (malloc (mem_nodes m)).
Proof.
  intros [Hsp Hlen Hload Hcount Hval Hkeys Hproc Hres Hdisj Hpt Hrt Hnp Hnr]
    Hbound Hget Hk.
  assert (0 ≤ ht_n_values (rag_ht rag)) as Hn0 by lia.
  destruct (ht_insert_new_shape (rag_ht rag) key (malloc (mem_nodes m))
              Hsp Hbound Hlen (conj Hn0 Hload) Hget)
    as (Hv' & Hs' & Hl' & _ & _ & Hnd' & _).
  set (node := malloc (mem_nodes m)) in *.
  set (ht' := ht_insert (rag_ht rag) key node) in *.
  assert (ht_n_values ht' < ht_size ht') as Hload'.
  { rewrite Hs', Hv'.
    destruct (Z.eqb_spec (ht_n_values (rag_ht rag) + 1) (ht_size (rag_ht rag)));
      lia. }
  assert (2 ^ 52 < 2 ^ 64) as Hpow by (by vm_compute).
  assert (Z.of_nat (length lp + length lr) < 2 ^ 52) as Hsmall.
  { apply Permutation_length in Hkeys.
    rewrite length_fmap, length_app, !length_fmap in Hkeys. lia. }
  unfold RAG_add_node, _RAG_create_node, _RAG_DLL_insert. fold node.
  rewrite (ht_unique_insert_new _ _ _ Hget). fold ht'. simpl.
  rewrite Hk. simpl.
  assert (∀ x, x ∈ ht_nodes ht' →
               is_Some (<[node := RagNode key data NULL next]> (mem_nodes m)
                          !! ht_value x)) as Hval'.
  { intros x Hx. rewrite Hnd' in Hx. apply elem_of_cons in Hx as [->|Hx].
    - simpl. rewrite lookup_insert_eq. by eauto.
    - destruct (decide (ht_value x = node)) as [->|Hne].
      + rewrite lookup_insert_eq. by eauto.
      + rewrite lookup_insert_ne by done. by apply Hval. }
  assert (Z.of_nat (length (ht_nodes ht')) = ht_n_values ht') as Hcount'.
  { rewrite Hnd', Hv', Hcount. simpl length. lia. }
  destruct (ck_type k) eqn:Htype.
  - destruct (DLL_insert_tail_repr _ _ _ key Hproc)
      as (d' & l' & -> & Hrepr' & _ & Hframe & Hdom).
    simpl. rewrite lookup_insert_eq. simpl. rewrite Hk. simpl.
    rewrite Htype. eexists _, _, (malloc (mem_dll m)).
    split; [done|]. split; [|done].
    split; simpl; try done.
    + lia.
    + rewrite Hnd'. simpl. rewrite Hkeys, !fmap_app. simpl.
      rewrite <- (assoc (++)). apply Permutation_middle.
    + eapply dll_repr_frame; [|done]. intros a Ha. apply Hframe.
      * intros ->. destruct Hres as [Hseg _].
        destruct (dll_seg_dom _ _ _ _ _ _ _ Hseg Ha) as [[? E] _].
        by rewrite malloc_fresh in E.
      * intros Hin. by apply (Hdisj a).
    + intros a Ha Hr. rewrite fmap_app in Ha.
      apply elem_of_app in Ha as [Ha|Ha]; [by apply (Hdisj a)|].
      apply list_elem_of_singleton in Ha as ->. destruct Hres as [Hseg _].
      destruct (dll_seg_dom _ _ _ _ _ _ _ Hseg Hr) as [[? E] _].
      simpl in E. by rewrite malloc_fresh in E.
    + rewrite fmap_app. apply Forall_app. split; [done|].
      constructor; [|done]. unfold key_has_type. simpl. by rewrite Hk, <- Htype.
    + rewrite length_app. simpl. rewrite wrap_small; lia.
  - destruct (DLL_insert_tail_repr _ _ _ key Hres)
      as (d' & l' & -> & Hrepr' & _ & Hframe & Hdom).
    simpl. rewrite lookup_insert_eq. simpl. rewrite Hk. simpl.
    rewrite Htype. eexists _, _, (malloc (mem_dll m)).
    split; [done|]. split; [|done].
    split; simpl; try done.
    + lia.
    + rewrite Hnd'. simpl. rewrite Hkeys, !fmap_app. simpl.
      rewrite (assoc (++)). apply Permutation_cons_append.
    + eapply dll_repr_frame; [|done]. intros a Ha. apply Hframe.
      * intros ->. destruct Hproc as [Hseg _].
        destruct (dll_seg_dom _ _ _ _ _ _ _ Hseg Ha) as [[? E] _].
        by rewrite malloc_fresh in E.
      * intros Hin. by apply (Hdisj a).
    + intros a Ha Hr. rewrite fmap_app in Hr.
      apply elem_of_app in Hr as [Hr|Hr]; [by apply (Hdisj a)|].
      apply list_elem_of_singleton in Hr as ->. destruct Hproc as [Hseg _].
      destruct (dll_seg_dom _ _ _ _ _ _ _ Hseg Ha) as [[? E] _].
      simpl in E. by rewrite malloc_fresh in E.
    + rewrite fmap_app. apply Forall_app. split; [done|].
      constructor; [|done]. unfold key_has_type. simpl. by rewrite Hk, <- Htype.
    + rewrite length_app. simpl. rewrite wrap_small; lia.
Qed.

(** ** Soft and hard insert on a node that exists *)

(** The node after a soft or hard update that takes [data] and [next] as
    the two flags say. *)
Definition updated_node (n : RAG_node) (takes_data takes_next : bool)
    (data next : ptr) : RAG_node :=
  RagNode (rn_key n) (if takes_data then data else rn_data n) (rn_prev n)
          (if takes_next then next else rn_next n).

Definition update_status (takes_data takes_next : bool) : status_t :=
  match takes_next, takes_data with
  | true, true => UPDATED_NEXT_DATA
  | true, false => UPDATED_NEXT
  | false, true => UPDATED_DATA
  | false, false => NO_UPDATE
  end.

Lemma set_mem_nodes_id m n node :
  mem_nodes m !! node = Some n →
  set_mem_nodes (<[node := n]> (mem_nodes m)) m = m.
Proof.
  intros H. unfold set_mem_nodes. rewrite insert_id by done. by destruct m.
Qed.

Lemma RAG_insert_present m rag key data next ht_node n :
  ht_get_node (rag_ht rag) key = Some ht_node →
  mem_nodes m !! ht_value ht_node = Some n →
  let takes_next := negb (next =? NULL) && (rn_next n =? NULL) in
  let takes_data := negb (data =? NULL) && (rn_data n =? NULL) in
  RAG_insert m rag key data next
  = Some (set_mem_nodes
            (<[ht_value ht_node := updated_node n takes_data takes_next data next]>
               (mem_nodes m)) m,
          rag, update_status takes_data takes_next).
Proof.
  intros Hget Hn. unfold RAG_insert. rewrite Hget, Hn. simpl.
  destruct (negb (next =? NULL) && (rn_next n =? NULL)) eqn:En;
    destruct (negb (data =? NULL) && (rn_data n =? NULL)) eqn:Ed; simpl.
  - done.
  - unfold updated_node, set_rn_next. done.
  - unfold updated_node, set_rn_data. done.
  - unfold updated_node. destruct n. simpl. by rewrite set_mem_nodes_id.
Qed.

Lemma RAG_hard_insert_present m rag key data next ht_node n :
  ht_get_node (rag_ht rag) key = Some ht_node →
  mem_nodes m !! ht_value ht_node = Some n →
  let takes_next := negb (next =? NULL) in
  let takes_data := negb (data =? NULL) in
  RAG_hard_insert m rag key data next
  = Some (set_mem_nodes
            (<[ht_value ht_node := updated_node n takes_data takes_next data next]>
               (mem_nodes m)) m,
          rag, update_status takes_data takes_next).
Proof.
  intros Hget Hn. unfold RAG_hard_insert. rewrite Hget, Hn. simpl.
  destruct (negb (next =? NULL)) eqn:En;
    destruct (negb (data =? NULL)) eqn:Ed; simpl.
  - done.
  - unfold updated_node, set_rn_next. done.
  - unfold updated_node, set_rn_data. done.
  - unfold updated_node. destruct n. simpl. by rewrite set_mem_nodes_id.
Qed.

(** An update in place keeps the graph well formed. *)
Lemma rag_ok_update m rag lp lr node n n' :
  rag_ok m rag lp lr → mem_nodes m !! node = Some n →
  rag_ok (set_mem_nodes (<[node := n']> (mem_nodes m)) m) rag lp lr.
Proof.
  intros [Hsp Hlen Hload Hcount Hval Hkeys Hproc Hres Hdisj Hpt Hrt Hnp Hnr] Hn.
  split; try done. simpl. intros x Hx.
  destruct (decide (ht_value x = node)) as [->|Hne].
  - rewrite lookup_insert_eq. by eauto.
  - rewrite lookup_insert_ne by done. by apply Hval.
Qed.

Lemma rag_ok_lookup m rag lp lr key ht_node :
  rag_ok m rag lp lr → ht_get_node (rag_ht rag) key = Some ht_node →
  is_Some (mem_nodes m !! ht_value ht_node).
Proof.
  intros Hok Hget. apply (ok_values _ _ _ _ Hok).
  by apply ht_get_node_elem in Hget as [? _].
Qed.

(** C1 (soft insert).  On a key the node table holds, [RAG_insert]
    writes [data] only when it is supplied and the node's [data] is unset,
    and likewise [next]; a set field is never overwritten, the graph is
    otherwise unchanged, and the status names the fields written.  After
    [insert(K, D1, absent)] on a new key, [insert(K, D2, N1)] returns
    [UPDATED_NEXT] and leaves the node with [data = D1], [next = N1]. *)
Theorem RAG_insert_soft (m : memory) (rag : RAG_t) (lp lr : list (ptr * ptr))
    (key : ptr) :
  rag_ok m rag lp lr →
  (∀ data next ht_node,
     ht_get_node (rag_ht rag) key = Some ht_node →
     ∃ n, mem_nodes m !! ht_value ht_node = Some n
       ∧ let takes_next := negb (next =? NULL) && (rn_next n =? NULL) in
         let takes_data := negb (data =? NULL) && (rn_data n =? NULL) in
         RAG_insert m rag key data next
         = Some (set_mem_nodes
                   (<[ht_value ht_node :=
                        RagNode (rn_key n)
                                (if takes_data then data else rn_data n)
                                (rn_prev n)
                                (if takes_next then next else rn_next n)]>
                      (mem_nodes m)) m,
                 rag,
                 if takes_next && takes_data then UPDATED_NEXT_DATA
                 else if takes_next then UPDATED_NEXT
                 else if takes_data then UPDATED_DATA
                 else NO_UPDATE))
  ∧ (∀ D1 D2 N1 k,
       ht_wf (rag_ht rag) → ht_size (rag_ht rag) ≤ 2 ^ 52 →
       key ≠ NULL → D1 ≠ NULL → N1 ≠ NULL →
       ht_get_node (rag_ht rag) key = None → mem_keys m !! key = Some k →
       ∃ m1 rag1 m2,
         RAG_insert m rag key D1 NULL = Some (m1, rag1, ADDED_NODE)
         ∧ RAG_insert m1 rag1 key D2 N1 = Some (m2, rag1, UPDATED_NEXT)
         ∧ mem_nodes m2 !! ht_search (rag_ht rag1) key
           = Some (RagNode key D1 NULL N1)).
Proof.
  intros Hok. split.
  - intros data next ht_node Hget.
    destruct (rag_ok_lookup _ _ _ _ _ _ Hok Hget) as [n Hn].
    exists n. split; [done|]. cbv zeta.
    rewrite (RAG_insert_present _ _ _ _ _ _ _ Hget Hn).
    unfold updated_node, update_status.
    by destruct (negb (next =? NULL) && (rn_next n =? NULL)),
                (negb (data =? NULL) && (rn_data n =? NULL)).
  - intros D1 D2 N1 k Hwf Hbound Hkey HD1 HN1 Hget Hk.
    destruct (RAG_add_node_ok m rag lp lr key D1 NULL k Hok Hbound Hget Hk)
      as (m1 & rag1 & a & Hadd & Hok1 & Hkeys1 & Hnodes1 & Hht1).
    destruct (ht_insert_lookup_same (rag_ht rag) key
                (malloc (mem_nodes m)) key) as (hn & Hget1 & Hv1); try done.
    { apply (ok_load _ _ _ _ Hok). }
    { by apply (cmp_refl _ _ (wf_cb _ Hwf)). }
    rewrite <- Hht1 in Hget1.
    assert (mem_nodes m1 !! ht_value hn = Some (RagNode key D1 NULL NULL))
      as Hn1.
    { rewrite Hv1, Hnodes1. apply lookup_insert_eq. }
    exists m1, rag1. eexists. split_and!.
    + unfold RAG_insert. by rewrite Hget.
    + rewrite (RAG_insert_present _ _ _ _ _ _ _ Hget1 Hn1). simpl.
      destruct (Z.eqb_spec N1 NULL) as [|_]; [done|].
      destruct (Z.eqb_spec D1 NULL) as [|_]; [done|].
      rewrite andb_false_r. simpl. done.
    + unfold ht_search. rewrite Hget1. simpl.
      destruct (Z.eqb_spec N1 NULL) as [|_]; [done|].
      destruct (Z.eqb_spec D1 NULL) as [|_]; [done|].
      by rewrite lookup_insert_eq.
Qed.

(** A memory with three composite keys, for the examples: keys [1] and
    [3] are processes, key [2] is a resource. *)
Definition example_keys : gmap Z ckey :=
  <[1 := CKey PROCESS_T 100]>
    (<[2 := CKey RESOURCE_T 200]> (<[3 := CKey PROCESS_T 300]> ∅)).

Definition example_memory : memory := Memory ∅ ∅ example_keys.

Lemma RAG_insert_soft_witness :
  let rag := RAG_create addr_compare addr_hash in
  ∃ m1 rag1 m2,
    RAG_insert example_memory rag 1 11 NULL = Some (m1, rag1, ADDED_NODE)
    ∧ RAG_insert m1 rag1 1 22 5 = Some (m2, rag1, UPDATED_NEXT)
    ∧ mem_nodes m2 !! ht_search (rag_ht rag1) 1 = Some (RagNode 1 11 NULL 5).
Proof.
  intros rag.
  destruct (RAG_insert_soft example_memory rag [] [] 1
              (RAG_create_ok example_memory addr_compare addr_hash))
    as [_ Hexample].
  apply (Hexample 11 22 5 (CKey PROCESS_T 100)).
  - apply ht_create_wf; [by vm_compute | apply addr_callbacks_ok].
  - by vm_compute.
  - by vm_compute.
  - by vm_compute.
  - by vm_compute.
  - vm_compute; reflexivity.
  - vm_compute; reflexivity.
Defined.

(** C2 (hard insert).  On a key the node table holds, [RAG_hard_insert]
    writes whichever of [data] and [next] is supplied, whatever the node
    holds, and reports the fields written; the status is [NO_UPDATE] only
    when neither is supplied.  On a key the table does not hold it does
    what [RAG_insert] does and returns [ADDED_NODE].  After
    [hard_insert(K, D1)], [hard_insert(K, D2)] returns [UPDATED_DATA] and
    leaves [data = D2]. *)
Theorem RAG_hard_insert_overwrites (m : memory) (rag : RAG_t)
    (lp lr : list (ptr * ptr)) (key : ptr) :
  rag_ok m rag lp lr →
  (∀ data next ht_node,
     ht_get_node (rag_ht rag) key = Some ht_node →
     ∃ n, mem_nodes m !! ht_value ht_node = Some n
       ∧ let takes_next := negb (next =? NULL) in
         let takes_data := negb (data =? NULL) in
         let status :=
           if takes_next && takes_data then UPDATED_NEXT_DATA
           else if takes_next then UPDATED_NEXT
           else if takes_data then UPDATED_DATA
           else NO_UPDATE in
         RAG_hard_insert m rag key data next
         = Some (set_mem_nodes
                   (<[ht_value ht_node :=
                        RagNode (rn_key n)
                                (if takes_data then data else rn_data n)
                                (rn_prev n)
                                (if takes_next then next else rn_next n)]>
                      (mem_nodes m)) m,
                 rag, status)
         ∧ (status = NO_UPDATE ↔ data = NULL ∧ next = NULL))
  ∧ (∀ data next k,
       ht_get_node (rag_ht rag) key = None → mem_keys m !! key = Some k →
       ht_size (rag_ht rag) ≤ 2 ^ 52 →
       RAG_hard_insert m rag key data next = RAG_insert m rag key data next
       ∧ ∃ m' rag',
           RAG_hard_insert m rag key data next = Some (m', rag', ADDED_NODE))
  ∧ (∀ D1 D2 k,
       ht_wf (rag_ht rag) → ht_size (rag_ht rag) ≤ 2 ^ 52 →
       key ≠ NULL → D2 ≠ NULL → mem_keys m !! key = Some k →
       ∃ m1 rag1 status1 m2 n,
         RAG_hard_insert m rag key D1 NULL = Some (m1, rag1, status1)
         ∧ RAG_hard_insert m1 rag1 key D2 NULL = Some (m2, rag1, UPDATED_DATA)
         ∧ mem_nodes m2 !! ht_search (rag_ht rag1) key = Some n
         ∧ rn_data n = D2).
Proof.
  intros Hok. split_and!.
  - intros data next ht_node Hget.
    destruct (rag_ok_lookup _ _ _ _ _ _ Hok Hget) as [n Hn].
    exists n. split; [done|]. cbv zeta.
    rewrite (RAG_hard_insert_present _ _ _ _ _ _ _ Hget Hn).
    unfold updated_node, update_status.
    destruct (Z.eqb_spec next NULL), (Z.eqb_spec data NULL); simpl;
      (split; [done|]); split; try done; by intros [??].
  - intros data next k Hget Hk Hbound.
    unfold RAG_hard_insert, RAG_insert. rewrite Hget. split; [done|].
    destruct (RAG_add_node_ok m rag lp lr key data next k Hok Hbound Hget Hk)
      as (m' & rag' & a & Hadd & _). by exists m', rag'.
  - intros D1 D2 k Hwf Hbound Hkey HD2 Hk.
    (* the state after the first call, in which the key is present *)
    assert (∃ m1 rag1 status1 lp1 lr1 hn n1,
              RAG_hard_insert m rag key D1 NULL = Some (m1, rag1, status1)
              ∧ rag_ok m1 rag1 lp1 lr1
              ∧ ht_get_node (rag_ht rag1) key = Some hn
              ∧ mem_nodes m1 !! ht_value hn = Some n1)
      as (m1 & rag1 & status1 & lp1 & lr1 & hn & n1 & H1 & Hok1 & Hget1 & Hn1).
    { destruct (ht_get_node (rag_ht rag) key) as [hn|] eqn:Hget.
      - destruct (rag_ok_lookup _ _ _ _ _ _ Hok Hget) as [n Hn].
        rewrite (RAG_hard_insert_present _ _ _ _ _ _ _ Hget Hn).
        eexists _, rag, _, lp, lr, hn, _. split_and!; [done| |done|].
        + by eapply rag_ok_update.
        + simpl. apply lookup_insert_eq.
      - destruct (RAG_add_node_ok m rag lp lr key D1 NULL k Hok Hbound Hget Hk)
          as (m1 & rag1 & a & Hadd & Hok1 & Hkeys1 & Hnodes1 & Hht1).
        destruct (ht_insert_lookup_same (rag_ht rag) key
                    (malloc (mem_nodes m)) key) as (hn & Hget1 & Hv1);
          try done.
        { apply (ok_load _ _ _ _ Hok). }
        { by apply (cmp_refl _ _ (wf_cb _ Hwf)). }
        rewrite <- Hht1 in Hget1.
        eexists m1, rag1, _, _, _, hn, _. split_and!; [|done|done|].
        + unfold RAG_hard_insert. by rewrite Hget.
        + rewrite Hv1, Hnodes1. apply lookup_insert_eq. }
    exists m1, rag1, status1. eexists _, _. split; [done|].
    rewrite (RAG_hard_insert_present _ _ _ _ _ _ _ Hget1 Hn1). simpl.
    destruct (Z.eqb_spec D2 NULL) as [|_]; [done|]. simpl.
    split; [done|]. unfold ht_search. rewrite Hget1.
    split; [apply lookup_insert_eq | done].
Qed.

Lemma RAG_hard_insert_overwrites_witness :
  let rag := RAG_create addr_compare addr_hash in
  ∃ m1 rag1 status1 m2 n,
    RAG_hard_insert example_memory rag 2 11 NULL = Some (m1, rag1, status1)
    ∧ RAG_hard_insert m1 rag1 2 22 NULL = Some (m2, rag1, UPDATED_DATA)
    ∧ mem_nodes m2 !! ht_search (rag_ht rag1) 2 = Some n
    ∧ rn_data n = 22.
Proof.
  intros rag.
  destruct (RAG_hard_insert_overwrites example_memory rag [] [] 2
              (RAG_create_ok example_memory addr_compare addr_hash))
    as (_ & _ & Hexample).
  apply (Hexample 11 22 (CKey RESOURCE_T 200)).
  - apply ht_create_wf; [by vm_compute | apply addr_callbacks_ok].
  - by vm_compute.
  - by vm_compute.
  - by vm_compute.
  - vm_compute; reflexivity.
Defined.

(** ** Counters *)

Inductive rag_op :=
  | RInsert (key data next : ptr)
  | RHardInsert (key data next : ptr)
  | RIncrement (type : type_t)
  | RDecrement (type : type_t).

Definition RAG_step (m : memory) (rag : RAG_t) (op : rag_op)
  : option (memory * RAG_t) :=
  match op with
  | RInsert key data next =>
      '(m', rag', _) ← RAG_insert m rag key data next; Some (m', rag')
  | RHardInsert key data next =>
      '(m', rag', _) ← RAG_hard_insert m rag key data next; Some (m', rag')
  | RIncrement type => Some (m, RAG_increment rag type)
  | RDecrement type => Some (m, RAG_decrement rag type)
  end.

Fixpoint RAG_run (m : memory) (rag : RAG_t) (ops : list rag_op)
  : option (memory * RAG_t) :=
  match ops with
  | [] => Some (m, rag)
  | op :: ops' => '(m', rag') ← RAG_step m rag op; RAG_run m' rag' ops'
  end.

(** The key of an insert is a [ckey_t] of the key memory. *)
Definition insert_of (m : memory) (op : rag_op) : Prop :=
  match op with
  | RInsert key _ _ | RHardInsert key _ _ => is_Some (mem_keys m !! key)
  | RIncrement _ | RDecrement _ => False
  end.

Lemma RAG_step_ok m rag lp lr op :
  rag_ok m rag lp lr → ht_size (rag_ht rag) ≤ 2 ^ 52 → insert_of m op →
  ∃ m' rag' lp' lr',
    RAG_step m rag op = Some (m', rag') ∧ rag_ok m' rag' lp' lr'
    ∧ mem_keys m' = mem_keys m
    ∧ (ht_size (rag_ht rag') = ht_size (rag_ht rag)
       ∨ ht_size (rag_ht rag') = 2 * (ht_n_values (rag_ht rag) + 1))
    ∧ ht_n_values (rag_ht rag') ≤ ht_n_values (rag_ht rag) + 1.
Proof.
  intros Hok Hbound Hop.
  assert (∀ key data next k,
            ht_get_node (rag_ht rag) key = None → mem_keys m !! key = Some k →
            ∃ m' rag' lp' lr',
              RAG_add_node m rag key data next = Some (m', rag', ADDED_NODE)
              ∧ rag_ok m' rag' lp' lr' ∧ mem_keys m' = mem_keys m
              ∧ (ht_size (rag_ht rag') = ht_size (rag_ht rag)
                 ∨ ht_size (rag_ht rag') = 2 * (ht_n_values (rag_ht rag) + 1))
              ∧ ht_n_values (rag_ht rag') ≤ ht_n_values (rag_ht rag) + 1)
    as Hadd.
  { intros key data next k Hget Hk.
    destruct (RAG_add_node_ok m rag lp lr key data next k Hok Hbound Hget Hk)
      as (m' & rag' & a & Hadd & Hok' & Hkeys' & _ & Hht').
    pose proof (ok_load _ _ _ _ Hok) as Hload.
    pose proof (ok_count _ _ _ _ Hok) as Hcount.
    destruct (ht_insert_new_shape (rag_ht rag) key (malloc (mem_nodes m)))
      as (Hv & Hs & _); try done.
    { apply (ok_size_pos _ _ _ _ Hok). }
    { apply (ok_length _ _ _ _ Hok). }
    { lia. }
    rewrite <- Hht' in Hv, Hs.
    exists m', rag'. eexists _, _. split_and!; [done..| |lia].
    rewrite Hs.
    destruct (Z.eqb_spec (ht_n_values (rag_ht rag) + 1) (ht_size (rag_ht rag)));
      lia. }
  destruct op as [key data next | key data next | |]; simpl in Hop; try done;
    destruct Hop as [k Hk]; simpl.
  - destruct (ht_get_node (rag_ht rag) key) as [hn|] eqn:Hget.
    + destruct (rag_ok_lookup _ _ _ _ _ _ Hok Hget) as [n Hn].
      rewrite (RAG_insert_present _ _ _ _ _ _ _ Hget Hn). simpl.
      eexists _, rag, lp, lr. split_and!; [done| |done| |lia].
      * by eapply rag_ok_update.
      * by left.
    + destruct (Hadd key data next k Hget Hk)
        as (m' & rag' & lp' & lr' & Ha & Hrest).
      unfold RAG_insert. rewrite Hget, Ha. simpl. by exists m', rag', lp', lr'.
  - destruct (ht_get_node (rag_ht rag) key) as [hn|] eqn:Hget.
    + destruct (rag_ok_lookup _ _ _ _ _ _ Hok Hget) as [n Hn].
      rewrite (RAG_hard_insert_present _ _ _ _ _ _ _ Hget Hn). simpl.
      eexists _, rag, lp, lr. split_and!; [done| |done| |lia].
      * by eapply rag_ok_update.
      * by left.
    + destruct (Hadd key data next k Hget Hk)
        as (m' & rag' & lp' & lr' & Ha & Hrest).
      unfold RAG_hard_insert. rewrite Hget, Ha. simpl.
      by exists m', rag', lp', lr'.
Qed.

Lemma RAG_run_ok ops : ∀ m rag lp lr,
  rag_ok m rag lp lr → ht_size (rag_ht rag) ≤ 2 ^ 52 →
  2 * (ht_n_values (rag_ht rag) + Z.of_nat (length ops)) ≤ 2 ^ 52 →
  Forall (insert_of m) ops →
  ∃ m' rag' lp' lr',
    RAG_run m rag ops = Some (m', rag') ∧ rag_ok m' rag' lp' lr'
    ∧ mem_keys m' = mem_keys m.
Proof.
  induction ops as [|op ops IH]; intros m rag lp lr Hok Hbound Hroom Hops.
  { simpl. by exists m, rag, lp, lr. }
  inversion Hops as [|? ? Hop Hops']; subst. simpl in Hroom.
  destruct (RAG_step_ok m rag lp lr op Hok Hbound Hop)
    as (m1 & rag1 & lp1 & lr1 & Hstep & Hok1 & Hkeys1 & Hs1 & Hv1).
  assert (0 ≤ ht_n_values (rag_ht rag)) as Hn0.
  { rewrite (ok_count _ _ _ _ Hok). lia. }
  destruct (IH m1 rag1 lp1 lr1) as (m' & rag' & lp' & lr' & Hrun & Hok' & Hkeys');
    try done; try lia.
  { eapply Forall_impl; [done|]. intros [] H; simpl in *; try done;
      by rewrite Hkeys1. }
  exists m', rag', lp', lr'. simpl. rewrite Hstep. simpl.
  split_and!; [done..|]. by rewrite Hkeys'.
Qed.

Lemma insert_of_key m op :
  mem_keys m !! NULL = None → insert_of m op →
  match op with
  | RInsert key _ _ | RHardInsert key _ _ => key ≠ NULL
  | RIncrement _ | RDecrement _ => True
  end.
Proof.
  intros Hnull. destruct op; simpl; try done; intros [k Hk] ->; congruence.
Qed.

(** With a well-behaved [compare] and [hash] the node table stays well
    formed: at most one entry per key. *)
Lemma RAG_step_wf m rag lp lr op m' rag' :
  rag_ok m rag lp lr → ht_size (rag_ht rag) ≤ 2 ^ 52 → insert_of m op →
  mem_keys m !! NULL = None → ht_wf (rag_ht rag) →
  RAG_step m rag op = Some (m', rag') →
  ht_wf (rag_ht rag') ∧ ht_compare (rag_ht rag') = ht_compare (rag_ht rag).
Proof.
  intros Hok Hbound Hop Hnull Hwf Hstep.
  pose proof (insert_of_key _ _ Hnull Hop) as Hkey.
  assert (∀ key data next k,
            key ≠ NULL → ht_get_node (rag_ht rag) key = None →
            mem_keys m !! key = Some k →
            ∀ st, RAG_add_node m rag key data next = Some (m', rag', st) →
            ht_wf (rag_ht rag')
            ∧ ht_compare (rag_ht rag') = ht_compare (rag_ht rag)) as Hadd.
  { intros key data next k Hk Hget Hmk st Hrun.
    destruct (RAG_add_node_ok m rag lp lr key data next k Hok Hbound Hget Hmk)
      as (m1 & rag1 & a & Hadd & _ & _ & _ & Hht).
    rewrite Hadd in Hrun. injection Hrun as <- <- <-. rewrite Hht.
    destruct (ht_insert_new (rag_ht rag) key (malloc (mem_nodes m)) Hwf
                (ok_load _ _ _ _ Hok) Hbound Hk Hget) as (Hwf' & _ & _ & _ & Hc & _).
    done. }
  destruct op as [key data next | key data next | |]; simpl in Hop; try done;
    destruct Hop as [k Hk]; simpl in Hstep.
  - destruct (ht_get_node (rag_ht rag) key) as [hn|] eqn:Hget.
    + destruct (rag_ok_lookup _ _ _ _ _ _ Hok Hget) as [n Hn].
      rewrite (RAG_insert_present _ _ _ _ _ _ _ Hget Hn) in Hstep.
      simpl in Hstep. by injection Hstep as <- <-.
    + unfold RAG_insert in Hstep. rewrite Hget in Hstep.
      destruct (RAG_add_node m rag key data next) as [[[m1 rag1] st]|] eqn:E;
        simpl in Hstep; [|done].
      injection Hstep as <- <-. by eapply Hadd.
  - destruct (ht_get_node (rag_ht rag) key) as [hn|] eqn:Hget.
    + destruct (rag_ok_lookup _ _ _ _ _ _ Hok Hget) as [n Hn].
      rewrite (RAG_hard_insert_present _ _ _ _ _ _ _ Hget Hn) in Hstep.
      simpl in Hstep. by injection Hstep as <- <-.
    + unfold RAG_hard_insert in Hstep. rewrite Hget in Hstep.
      destruct (RAG_add_node m rag key data next) as [[[m1 rag1] st]|] eqn:E;
        simpl in Hstep; [|done].
      injection Hstep as <- <-. by eapply Hadd.
Qed.

Lemma RAG_run_wf ops : ∀ m rag lp lr m' rag',
  rag_ok m rag lp lr → ht_size (rag_ht rag) ≤ 2 ^ 52 →
  2 * (ht_n_values (rag_ht rag) + Z.of_nat (length ops)) ≤ 2 ^ 52 →
  Forall (insert_of m) ops →
  mem_keys m !! NULL = None → ht_wf (rag_ht rag) →
  RAG_run m rag ops = Some (m', rag') →
  ht_wf (rag_ht rag') ∧ ht_compare (rag_ht rag') = ht_compare (rag_ht rag).
Proof.
  induction ops as [|op ops IH];
    intros m rag lp lr m' rag' Hok Hbound Hroom Hops Hnull Hwf Hrun.
  { simpl in Hrun. by injection Hrun as <- <-. }
  inversion Hops as [|? ? Hop Hops']; subst. simpl in Hroom, Hrun.
  destruct (RAG_step_ok m rag lp lr op Hok Hbound Hop)
    as (m1 & rag1 & lp1 & lr1 & Hstep & Hok1 & Hkeys1 & Hs1 & Hv1).
  destruct (RAG_step_wf _ _ _ _ _ _ _ Hok Hbound Hop Hnull Hwf Hstep)
    as [Hwf1 Hc1].
  rewrite Hstep in Hrun. simpl in Hrun.
  assert (0 ≤ ht_n_values (rag_ht rag)) as Hn0.
  { rewrite (ok_count _ _ _ _ Hok). lia. }
  destruct (IH m1 rag1 lp1 lr1 m' rag') as [Hwf' Hc']; try done; try lia.
  { eapply Forall_impl; [done|]. intros [] H; simpl in *; try done;
      by rewrite Hkeys1. }
  { by rewrite Hkeys1. }
  split; [done|]. by rewrite Hc'.
Qed.

Lemma filter_fmap_key (P : ptr → Prop) `{!∀ x, Decision (P x)}
    (l : list ht_node) :
  filter P (ht_key <$> l) = ht_key <$> filter (λ n, P (ht_key n)) l.
Proof.
  induction l as [|x l IH]; [done|]. rewrite fmap_cons, !filter_cons.
  destruct (decide (P (ht_key x))); by rewrite IH.
Qed.

(** Against C3 as the specification states it: [RAG_increment] is an operation of the
    sequence, and it raises a counter without a key being present. *)
Lemma RAG_counter_counterexample :
  let rag := RAG_create addr_compare addr_hash in
  ∃ m' rag' procs,
    RAG_run example_memory rag [RIncrement PROCESS_T] = Some (m', rag')
    ∧ DLL_elements (mem_dll m') (proc_key_list rag') = Some procs
    ∧ ht_nodes (rag_ht rag') = []
    ∧ n_processes rag' = 1
    ∧ n_processes rag' ≠ Z.of_nat (length procs).
Proof.
  eexists _, _, []. split; [reflexivity|]. split_and!.
  - vm_compute; reflexivity.
  - apply ht_nodes_create.
  - vm_compute; reflexivity.
  - vm_compute. discriminate.
Qed.

(** C3, amended (counter consistency).  After any run of [RAG_insert] and
    [RAG_hard_insert] calls on a freshly created graph, with no direct
    [RAG_increment] or [RAG_decrement] call, [n_processes] is the number
    of keys of the process order list, which are the process-typed keys
    of the node table, and [n_resources] likewise for resources; with a
    well-behaved [compare] and [hash] no two of these keys are equal, so
    the counters count distinct keys; and [RAG_decrement] of a counter
    that is 0 changes nothing. *)
Theorem RAG_counter_consistency cmp hash (m : memory) (ops : list rag_op) :
  Forall (insert_of m) ops → 2 * Z.of_nat (length ops) ≤ 2 ^ 52 →
  (∃ m' rag' procs ress,
     RAG_run m (RAG_create cmp hash) ops = Some (m', rag')
     ∧ DLL_elements (mem_dll m') (proc_key_list rag') = Some procs
     ∧ DLL_elements (mem_dll m') (res_key_list rag') = Some ress
     ∧ n_processes rag' = Z.of_nat (length procs)
     ∧ n_resources rag' = Z.of_nat (length ress)
     ∧ Forall (key_has_type m' PROCESS_T) procs
     ∧ Forall (key_has_type m' RESOURCE_T) ress
     ∧ ht_key <$> ht_nodes (rag_ht rag') ≡ₚ procs ++ ress
     ∧ (callbacks_ok cmp hash → mem_keys m !! NULL = None →
        ∀ k, k ≠ NULL →
             (length (filter (λ x, (cmp x k = 0)%Z) (procs ++ ress)) ≤ 1)%nat))
  ∧ (∀ rag, n_processes rag = 0 → RAG_decrement rag PROCESS_T = rag)
  ∧ (∀ rag, n_resources rag = 0 → RAG_decrement rag RESOURCE_T = rag).
Proof.
  intros Hops Hroom. split_and!.
  - assert (49 ≤ 2 ^ 52) as Hsz by (by vm_compute).
    destruct (RAG_run_ok ops m (RAG_create cmp hash) [] []
                (RAG_create_ok m cmp hash) Hsz)
      as (m' & rag' & lp & lr & Hrun & Hok & Hkeys); [exact Hroom|done|].
    exists m', rag', lp.*2, lr.*2. rewrite !length_fmap.
    split_and!; try (by destruct Hok); try (apply dll_repr_elements; by destruct Hok).
    intros Hcb Hnull k Hk.
    destruct (RAG_run_wf ops m (RAG_create cmp hash) [] [] m' rag'
                (RAG_create_ok m cmp hash) Hsz Hroom Hops Hnull) as [Hwf Hc];
      [|done|].
    { apply ht_create_wf; [by vm_compute | done]. }
    pose proof (wf_uniq _ Hwf k Hk) as Hu. rewrite Hc in Hu.
    rewrite <- (ok_keys _ _ _ _ Hok), filter_fmap_key, length_fmap.
    exact Hu.
  - intros rag H. unfold RAG_decrement. by rewrite H.
  - intros rag H. unfold RAG_decrement. by rewrite H.
Qed.

Lemma RAG_counter_consistency_witness :
  ∃ m' rag' procs ress,
    RAG_run example_memory (RAG_create addr_compare addr_hash)
      [RInsert 1 11 0; RInsert 2 0 0; RHardInsert 1 12 0; RInsert 3 0 0]
    = Some (m', rag')
    ∧ DLL_elements (mem_dll m') (proc_key_list rag') = Some procs
    ∧ DLL_elements (mem_dll m') (res_key_list rag') = Some ress
    ∧ n_processes rag' = Z.of_nat (length procs)
    ∧ n_resources rag' = Z.of_nat (length ress)
    ∧ Forall (key_has_type m' PROCESS_T) procs
    ∧ Forall (key_has_type m' RESOURCE_T) ress
    ∧ ht_key <$> ht_nodes (rag_ht rag') ≡ₚ procs ++ ress.
Proof.
  destruct (RAG_counter_consistency addr_compare addr_hash example_memory
              [RInsert 1 11 0; RInsert 2 0 0; RHardInsert 1 12 0; RInsert 3 0 0])
    as [(m' & rag' & procs & ress & H1 & H2 & H3 & H4 & H5 & H6 & H7 & H8 & _) _].
  - repeat constructor; simpl; eexists; vm_compute; reflexivity.
  - by vm_compute.
  - by exists m', rag', procs, ress.
Defined.

(** ** Conversion to an undirected graph *)

(** The rounds of the two loops of [RAG_convert_to_undirected], at the
    keys the order lists hold. *)
Fixpoint undirected_visits (ht : hashtable) (nodes : gmap Z RAG_node)
    (keys : list ptr) : option (gmap Z RAG_node) :=
  match keys with
  | [] => Some nodes
  | key :: keys' =>
      nodes' ← undirected_visit ht nodes key;
      undirected_visits ht nodes' keys'
  end.

Lemma undirected_loop_walk fuel : ∀ ht dll nodes node keys,
  DLL_walk fuel dll node = Some keys →
  undirected_loop fuel ht dll nodes node = undirected_visits ht nodes keys.
Proof.
  induction fuel as [|fuel IH]; intros ht dll nodes node keys; simpl.
  - destruct (node =? NULL); [by intros [= <-] | done].
  - destruct (node =? NULL); [by intros [= <-]|].
    destruct (dll !! node) as [n|]; simpl; [|done].
    destruct (DLL_walk fuel dll (dll_next n)) as [ks|] eqn:E; simpl; [|done].
    intros [= <-]. simpl.
    destruct (undirected_visit ht nodes (dll_data n)); simpl; [|done].
    by apply IH.
Qed.

Lemma undirected_visits_app ht nodes keys1 keys2 :
  undirected_visits ht nodes (keys1 ++ keys2)
  = nodes' ← undirected_visits ht nodes keys1;
    undirected_visits ht nodes' keys2.
Proof.
  revert nodes. induction keys1 as [|k keys1 IH]; intros nodes; simpl; [done|].
  destruct (undirected_visit ht nodes k); simpl; [apply IH | done].
Qed.

(** Two node memories that differ in [_prev] fields only. *)
Definition up_to_prev (nodes nodes' : gmap Z RAG_node) : Prop :=
  ∀ a, set_rn_prev NULL <$> nodes' !! a = set_rn_prev NULL <$> nodes !! a.

(** The node at [p] exists and its edge is unset or leads to a node. *)
Definition edge_ok (nodes : gmap Z RAG_node) (p : ptr) : Prop :=
  ∃ n, nodes !! p = Some n
       ∧ (rn_next n = NULL ∨ is_Some (nodes !! rn_next n)).

(** [p] has its [next] edge set and pointing at [B]. *)
Definition points_at (nodes : gmap Z RAG_node) (B : ptr) (p : ptr) : Prop :=
  B ≠ NULL ∧ rn_next <$> nodes !! p = Some B.

Global Instance points_at_dec nodes B p : Decision (points_at nodes B p).
Proof. unfold points_at. apply _. Defined.

Lemma last_cons {A} (a d : A) (l : list A) :
  List.last (a :: l) d = List.last l a.
Proof.
  revert a d. induction l as [|b l IH]; intros a d; [done|].
  change (List.last (a :: b :: l) d) with (List.last (b :: l) d).
  by rewrite !IH.
Qed.

Lemma up_to_prev_next nodes nodes' a :
  up_to_prev nodes nodes' → rn_next <$> nodes' !! a = rn_next <$> nodes !! a.
Proof.
  intros H. specialize (H a).
  destruct (nodes' !! a) as [[]|], (nodes !! a) as [[]|];
    unfold set_rn_prev in H; simpl in *; congruence.
Qed.

Lemma undirected_visits_spec ht nodes0 visited : ∀ cur,
  up_to_prev nodes0 cur →
  Forall (edge_ok nodes0) (ht_search ht <$> visited) →
  ∃ cur',
    undirected_visits ht cur visited = Some cur'
    ∧ up_to_prev nodes0 cur'
    ∧ ∀ B, rn_prev <$> cur' !! B
           = (λ n, List.last (filter (points_at nodes0 B)
                                     (ht_search ht <$> visited))
                             (rn_prev n)) <$> cur !! B.
Proof.
  induction visited as [|key visited IH]; intros cur Hup Hok.
  { exists cur. split_and!; [done..|]. intros B. simpl.
    by destruct (cur !! B). }
  rewrite fmap_cons in Hok. apply Forall_cons in Hok as [(n0 & Hn0 & Hnext) Hok].
  set (p := ht_search ht key) in *.
  pose proof (up_to_prev_next _ _ p Hup) as Hpn. rewrite Hn0 in Hpn.
  destruct (cur !! p) as [n|] eqn:Hn; [|done]. simpl in Hpn.
  injection Hpn as Hpn.
  simpl. unfold undirected_visit. fold p. rewrite Hn. simpl.
  destruct (Z.eqb_spec (rn_next n) NULL) as [Hnull|Hset].
  - destruct (IH cur Hup Hok) as (cur' & Hrun & Hup' & Hprev).
    exists cur'. split_and!; [done..|]. intros B. rewrite Hprev.
    rewrite filter_cons_False; [done|].
    intros [HB E]. rewrite Hn0 in E. simpl in E. congruence.
  - destruct Hnext as [?|[t0 Ht0]]; [congruence|]. rewrite <- Hpn in Ht0.
    pose proof (Hup (rn_next n)) as Ht. rewrite Ht0 in Ht.
    destruct (cur !! rn_next n) as [t|] eqn:Hcur; [|done]. simpl.
    set (cur1 := <[rn_next n := set_rn_prev p t]> cur).
    assert (up_to_prev nodes0 cur1) as Hup1.
    { intros a. unfold cur1. destruct (decide (a = rn_next n)) as [->|Hne].
      - rewrite lookup_insert_eq, Ht0, <- Ht. by destruct t.
      - rewrite lookup_insert_ne by done. apply Hup. }
    destruct (IH cur1 Hup1 Hok) as (cur' & Hrun & Hup' & Hprev).
    exists cur'. split_and!; [done..|]. intros B. rewrite Hprev.
    unfold cur1. destruct (decide (B = rn_next n)) as [->|Hne].
    + rewrite lookup_insert_eq, Hcur. simpl.
      rewrite filter_cons_True.
      * by rewrite last_cons.
      * split; [done|]. rewrite Hn0. simpl. by rewrite Hpn.
    + rewrite lookup_insert_ne by done.
      rewrite filter_cons_False; [done|].
      intros [_ E]. rewrite Hn0 in E. simpl in E. congruence.
Qed.

(** C4 (single-slot back-reference).  [RAG_convert_to_undirected] visits
    the nodes of the process order list, then those of the resource order
    list, each in list order, and writes only [_prev] fields: afterwards
    the [_prev] of a node [B] is the last visited node whose [next] is
    [B], whatever other nodes point at [B], and the [_prev] of a node
    nothing points at is as before. *)
Theorem RAG_undirected_single_slot (m : memory) (rag : RAG_t)
    (procs ress : list ptr) :
  DLL_elements (mem_dll m) (proc_key_list rag) = Some procs →
  DLL_elements (mem_dll m) (res_key_list rag) = Some ress →
  let visited := ht_search (rag_ht rag) <$> (procs ++ ress) in
  Forall (edge_ok (mem_nodes m)) visited →
  ∃ m',
    RAG_convert_to_undirected m rag = Some m'
    ∧ undirected_visits (rag_ht rag) (mem_nodes m) (procs ++ ress)
      = Some (mem_nodes m')
    ∧ mem_dll m' = mem_dll m ∧ mem_keys m' = mem_keys m
    ∧ ∀ B,
        mem_nodes m' !! B
        = (λ n, set_rn_prev
                  (List.last (filter (points_at (mem_nodes m) B) visited)
                             (rn_prev n)) n)
          <$> mem_nodes m !! B.
Proof.
  intros Hp Hr visited Hok. unfold RAG_convert_to_undirected.
  unfold DLL_elements in Hp, Hr.
  rewrite (undirected_loop_walk _ _ _ _ _ _ Hp).
  destruct (undirected_visits_spec (rag_ht rag) (mem_nodes m) (procs ++ ress)
              (mem_nodes m)) as (cur' & Hrun & Hup & Hprev); [done..|].
  rewrite Hrun. rewrite undirected_visits_app in Hrun.
  destruct (undirected_visits (rag_ht rag) (mem_nodes m) procs) as [nodes1|];
    simpl in Hrun |- *; [|done].
  rewrite (undirected_loop_walk _ _ _ _ _ _ Hr), Hrun. simpl.
  eexists. split_and!; [done..|]. intros B. simpl.
  specialize (Hprev B). specialize (Hup B). fold visited in Hprev.
  destruct (cur' !! B) as [[k d pv nx]|], (mem_nodes m !! B) as [[k0 d0 pv0 nx0]|];
    simpl in *; try done.
  unfold set_rn_prev in *. simpl in *. congruence.
Qed.

(** The graph of the edges [A → B] and [C → B], inserted in this order:
    [B] is the resource key [2], [A] and [C] the process keys [1], [3];
    the node of [B] is at address [1], those of [A] and [C] at [2], [3]. *)
Definition example_graph : memory * RAG_t :=
  default (example_memory, RAG_create addr_compare addr_hash)
    (RAG_run example_memory (RAG_create addr_compare addr_hash)
       [RInsert 2 0 0; RInsert 1 11 1; RInsert 3 33 1]).

Lemma RAG_undirected_single_slot_witness :
  ∃ m',
    RAG_convert_to_undirected example_graph.1 example_graph.2 = Some m'
    ∧ filter (points_at (mem_nodes example_graph.1) 1)
             (ht_search (rag_ht example_graph.2) <$> [1; 3; 2]) = [2; 3]
    ∧ mem_nodes m' !! 1 = Some (RagNode 2 0 3 0).
Proof.
  destruct (RAG_undirected_single_slot example_graph.1 example_graph.2
              [1; 3] [2]) as (m' & Hrun & _ & _ & _ & Hprev).
  - vm_compute; reflexivity.
  - vm_compute; reflexivity.
  - repeat constructor; eexists; (split; [vm_compute; reflexivity|]);
      first [left; vm_compute; reflexivity | right; eexists; vm_compute; reflexivity].
  - exists m'. split; [done|]. split; [vm_compute; reflexivity|].
    rewrite (Hprev 1).
    assert (filter (points_at (mem_nodes example_graph.1) 1)
              (ht_search (rag_ht example_graph.2) <$> [1; 3] ++ [2]) = [2; 3])
      as -> by (vm_compute; reflexivity).
    vm_compute; reflexivity.
Defined.

(** * Properties of the keyed list *)

(** ** Unlinking a node of a list *)

(** [last->next = nxt'] on a segment that has a last node. *)
Lemma dll_seg_set_next m prev cur l last nxt nxt' n :
  dll_seg m prev cur l last nxt → l ≠ [] → NoDup l.*1 →
  m !! last = Some n →
  dll_seg (<[last := set_dll_next nxt' n]> m) prev cur l last nxt'.
Proof.
  intros Hseg Hne Hnd Hn. destruct l as [|[a d] l _] using rev_ind; [done|].
  apply dll_seg_snoc in Hseg as (-> & Ha & pl & Hseg & Hm).
  rewrite fmap_app in Hnd. apply NoDup_app in Hnd as (_ & Hdisj & _).
  apply dll_seg_snoc. split_and!; [done..|]. exists pl. split.
  - eapply dll_seg_frame; [|done]. intros b Hb.
    rewrite lookup_insert_ne; [done|]. intros ->. apply (Hdisj _ Hb). by left.
  - rewrite lookup_insert_eq. rewrite Hm in Hn. by injection Hn as <-.
Qed.

(** [cur->prev = prev'] on a segment that has a first node. *)
Lemma dll_seg_set_prev m prev prev' cur l last nxt n :
  dll_seg m prev cur l last nxt → l ≠ [] → NoDup l.*1 →
  m !! cur = Some n →
  dll_seg (<[cur := set_dll_prev prev' n]> m) prev' cur l last nxt.
Proof.
  intros Hseg Hne Hnd Hn. destruct l as [|[a d] l]; [done|].
  simpl in Hseg. destruct Hseg as (-> & Ha & nx & Hm & Hseg).
  simpl in Hnd. apply NoDup_cons in Hnd as [Hal _].
  simpl. split_and!; [done..|]. exists nx. split.
  - rewrite lookup_insert_eq. rewrite Hm in Hn. by injection Hn as <-.
  - eapply dll_seg_frame; [|done]. intros b Hb.
    rewrite lookup_insert_ne; [done|]. by intros ->.
Qed.

Lemma dll_seg_delete m a prev cur l last nxt :
  a ∉ l.*1 → dll_seg m prev cur l last nxt →
  dll_seg (delete a m) prev cur l last nxt.
Proof.
  intros Ha. apply dll_seg_frame. intros b Hb.
  rewrite lookup_delete_ne; [done|]. by intros ->.
Qed.

(** The list part of [DLL_HT_remove]: the node [a] the index gives is
    unlinked through its own [prev] and [next] and freed. *)
Lemma DLL_HT_remove_list m dll_ht key free_data l1 a d l2 :
  ht_search (dh_ht dll_ht) key = a →
  dll_repr m (dh_list dll_ht) (l1 ++ (a, d) :: l2) →
  ∃ m' list',
    DLL_HT_remove m dll_ht key free_data
    = Some (m', DllHt list' (ht_remove (dh_ht dll_ht) key NULL NULL).1,
            call_if free_data d)
    ∧ dll_repr m' list' (l1 ++ l2)
    ∧ dom m' = dom m ∖ {[a]}.
Proof.
  intros Hsearch [Hseg Hnd].
  apply dll_seg_app in Hseg as (pl & mc & Hseg1 & Hseg2).
  simpl in Hseg2. destruct Hseg2 as (-> & Ha & nx & Hm & Hseg2).
  rewrite fmap_app in Hnd. simpl in Hnd.
  apply NoDup_app in Hnd as (Hnd1 & Hdisj & Hnd2).
  apply NoDup_cons in Hnd2 as [Hal2 Hnd2].
  assert (a ∉ l1.*1) as Hal1.
  { intros Hin. apply (Hdisj a Hin). by left. }
  assert (∀ b, b ∈ l1.*1 → b ∉ l2.*1) as Hdisj12.
  { intros b Hb Hb2. apply (Hdisj b Hb). by right. }
  assert (NoDup (l1 ++ l2).*1) as Hnd'.
  { rewrite fmap_app. apply NoDup_app. by split_and!. }
  unfold DLL_HT_remove. rewrite Hsearch, Hm. simpl.
  destruct l1 as [|[p0 d0] l1 _] using rev_ind;
    destruct l2 as [|[n0 dn] l2].
  - (* the only node *)
    simpl in Hseg1, Hseg2. destruct Hseg1 as [Hh ->]. destruct Hseg2 as [-> Ht].
    simpl. rewrite Hm. simpl. rewrite Hm. simpl.
    eexists _, _. split; [done|]. split; [by apply dll_repr_nil|].
    by rewrite dom_delete_L.
  - (* the head, with a successor *)
    simpl in Hseg1. destruct Hseg1 as [Hh ->]. simpl. rewrite Hm. simpl.
    pose proof Hseg2 as Hseg2'.
    simpl in Hseg2. destruct Hseg2 as (-> & Hn0 & nx2 & Hmn & Hseg2).
    destruct (Z.eqb_spec n0 NULL) as [|_]; [done|].
    unfold dll_write. rewrite Hmn. simpl.
    assert (n0 ≠ a) as Hn0a. { intros ->. apply Hal2. by left. }
    rewrite lookup_insert_ne by done. rewrite Hm. simpl.
    eexists _, _. split; [done|]. split.
    + split; [|done]. simpl app. apply dll_seg_delete; [done|].
      by apply (dll_seg_set_prev _ a NULL).
    + rewrite dom_delete_L, dom_insert_L.
      assert (n0 ∈ dom m) as Hd by (apply elem_of_dom; eauto).
      f_equal. apply subseteq_union_1_L, singleton_subseteq_l, Hd.
  - (* the tail, with a predecessor *)
    simpl in Hseg2. destruct Hseg2 as [-> Ht].
    pose proof Hseg1 as Hseg1'.
    apply dll_seg_snoc in Hseg1 as (-> & Hp0 & pp & Hseg1 & Hmp).
    destruct (Z.eqb_spec p0 NULL) as [|_]; [done|].
    unfold dll_write. rewrite Hmp. simpl.
    assert (p0 ≠ a) as Hp0a.
    { intros ->. apply Hal1. rewrite fmap_app. apply elem_of_app. right. by left. }
    rewrite lookup_insert_ne by done. rewrite Hm. simpl.
    rewrite lookup_insert_ne by done. rewrite Hm. simpl.
    eexists _, _. split; [done|]. rewrite app_nil_r. split.
    + split; [|done]. apply dll_seg_delete; [done|]. simpl.
      apply (dll_seg_set_next _ _ _ _ _ a NULL); try done.
      by destruct l1.
    + rewrite dom_delete_L, dom_insert_L.
      assert (p0 ∈ dom m) as Hd by (apply elem_of_dom; eauto).
      f_equal. apply subseteq_union_1_L, singleton_subseteq_l, Hd.
  - (* in the middle *)
    pose proof Hseg1 as Hseg1'. pose proof Hseg2 as Hseg2'.
    apply dll_seg_snoc in Hseg1 as (-> & Hp0 & pp & Hseg1 & Hmp).
    simpl in Hseg2. destruct Hseg2 as (-> & Hn0 & nx2 & Hmn & Hseg2).
    destruct (Z.eqb_spec p0 NULL) as [|_]; [done|].
    assert (p0 ≠ a) as Hp0a.
    { intros ->. apply Hal1. rewrite fmap_app. apply elem_of_app. right. by left. }
    assert (n0 ≠ a) as Hn0a. { intros ->. apply Hal2. by left. }
    assert (p0 ∈ (l1 ++ [(p0, d0)]).*1) as Hp0in.
    { rewrite fmap_app. apply elem_of_app. right. by left. }
    assert (n0 ≠ p0) as Hnp.
    { intros ->. apply (Hdisj12 p0 Hp0in). by left. }
    unfold dll_write. rewrite Hmp. simpl.
    rewrite lookup_insert_ne by done. rewrite Hm. simpl.
    destruct (Z.eqb_spec n0 NULL) as [|_]; [done|].
    rewrite lookup_insert_ne by done. rewrite Hmn. simpl.
    rewrite !lookup_insert_ne by done. rewrite Hm. simpl.
    eexists _, _. split; [done|]. split.
    + split; [|done]. apply dll_seg_delete.
      { rewrite fmap_app. apply not_elem_of_app. by split. }
      apply dll_seg_app. exists p0, n0. split.
      * apply (dll_seg_frame
                 (<[p0 := set_dll_next n0 (DllNode d0 pp a)]> m)).
        { intros b Hb. rewrite lookup_insert_ne; [done|].
          intros ->. apply (Hdisj12 _ Hb). by left. }
        apply (dll_seg_set_next _ _ _ _ _ a n0); try done. by destruct l1.
      * apply (dll_seg_set_prev _ a p0); try done.
        -- apply (dll_seg_frame m); [|done]. intros b Hb.
           rewrite lookup_insert_ne; [done|]. intros ->.
           by apply (Hdisj12 _ Hp0in).
        -- by rewrite lookup_insert_ne.
    + rewrite dom_delete_L, !dom_insert_L.
      assert (p0 ∈ dom m) as Hd by (apply elem_of_dom; eauto).
      assert (n0 ∈ dom m) as Hd' by (apply elem_of_dom; eauto).
      f_equal.
      rewrite (subseteq_union_1_L {[p0]}) by (by apply singleton_subseteq_l).
      apply subseteq_union_1_L, singleton_subseteq_l, Hd'.
Qed.

(** ** Draining a list *)

Lemma DLL_pop_repr m dll a d l :
  dll_repr m dll ((a, d) :: l) →
  ∃ m' dll', DLL_pop m dll = Some (m', dll', d) ∧ dll_repr m' dll' l.
Proof.
  intros [Hseg Hnd]. simpl in Hseg, Hnd.
  destruct Hseg as (Hh & Ha & nx & Hm & Hseg).
  apply NoDup_cons in Hnd as [Hal Hnd].
  unfold DLL_pop. rewrite Hh.
  destruct (Z.eqb_spec a NULL) as [|_]; [done|]. rewrite Hm. simpl.
  destruct l as [|[n0 dn] l].
  - simpl in Hseg. destruct Hseg as [-> Ht]. simpl. rewrite Hm. simpl.
    rewrite Ht, Z.eqb_refl. eexists _, _. split; [done|].
    by apply dll_repr_nil.
  - pose proof Hseg as Hseg'. simpl in Hseg.
    destruct Hseg as (-> & Hn0 & nx2 & Hmn & Hseg).
    destruct (Z.eqb_spec n0 NULL) as [|_]; [done|].
    unfold dll_write. rewrite Hmn. simpl.
    assert (n0 ≠ a) as Hn0a. { intros ->. apply Hal. by left. }
    rewrite lookup_insert_ne by done. rewrite Hm. simpl.
    apply dll_seg_last in Hseg' as [_ Hlast].
    destruct Hlast as [_ Htl]; [done|].
    destruct (Z.eqb_spec a (dll_tail dll)) as [E|_].
    { rewrite <- E in Htl. done. }
    eexists _, _. split; [done|]. split; [|done].
    apply dll_seg_delete; [done|].
    apply (dll_seg_set_prev _ a NULL); try done.
    simpl. split_and!; [done..|]. by exists nx2.
Qed.

Lemma DLL_clean_loop_repr free_data fuel : ∀ m dll l,
  dll_repr m dll l → (length l ≤ fuel)%nat →
  ∃ m', DLL_clean_loop fuel m dll free_data
        = Some (m', concat (call_if free_data <$> l.*2)).
Proof.
  induction fuel as [|fuel IH]; intros m dll l Hrepr Hlen.
  - destruct l; [|simpl in Hlen; lia].
    apply dll_repr_nil in Hrepr as [Hh _]. simpl. rewrite Hh. simpl.
    by eexists.
  - destruct l as [|[a d] l].
    + apply dll_repr_nil in Hrepr as [Hh _]. simpl. rewrite Hh. simpl.
      by eexists.
    + destruct (DLL_pop_repr _ _ _ _ _ Hrepr) as (m1 & dll1 & Hpop & Hrepr1).
      destruct (IH m1 dll1 l Hrepr1) as (m' & Hloop); [simpl in Hlen; lia|].
      destruct Hrepr as [Hseg _]. simpl in Hseg. destruct Hseg as (Hh & Ha & _).
      simpl. rewrite Hh. destruct (Z.eqb_spec a NULL) as [|_]; [done|].
      rewrite Hpop. simpl. rewrite Hloop. simpl. by eexists.
Qed.

Lemma DLL_clean_repr m dll l free_data :
  dll_repr m dll l →
  ∃ m', DLL_clean m dll free_data
        = Some (m', concat (call_if free_data <$> l.*2)).
Proof.
  intros Hrepr. apply DLL_clean_loop_repr; [done|].
  by eapply dll_repr_length.
Qed.

Lemma concat_map_concat {A B} (f : A → list B) (t : list (list A)) :
  concat (map (λ chain, concat (map f chain)) t) = concat (f <$> concat t).
Proof.
  induction t as [|chain t IH]; simpl; [done|].
  by rewrite IH, fmap_app, concat_app.
Qed.

(** The calls of [ht_clean]: every node of the table, cleared or not. *)
Lemma ht_clean_calls ht free_key free_value :
  length (ht_table ht) = Z.to_nat (ht_size ht) →
  ht_clean ht free_key free_value
  = concat (node_frees free_key free_value <$> ht_nodes ht).
Proof.
  intros Hl. unfold ht_clean, table_frees, ht_nodes.
  rewrite take_ge by lia. apply concat_map_concat.
Qed.

(** ** The keyed list and its index *)

(** An entry of the keyed list: its key, the address of its list node,
    the value the node holds. *)
Record kl_entry := KlEntry { ke_key : ptr; ke_node : ptr; ke_data : ptr }.

Definition entry_cell (e : kl_entry) : ptr * ptr := (ke_node e, ke_data e).
Definition entry_index (e : kl_entry) : ht_node :=
  HtNode (ke_key e) (ke_node e).
Definition entry_pair (e : kl_entry) : ptr * ptr := (ke_key e, ke_data e).

(** [dh_ok m dll_ht entries]: the list holds the nodes of [entries] in
    this order, and the live nodes of the index map the key of each entry
    to its list node. *)
Record dh_ok (m : gmap Z DLL_node) (dll_ht : DLL_HT_t)
    (entries : list kl_entry) : Prop := {
  dh_wf : ht_wf (dh_ht dll_ht);
  dh_load : ht_n_values (dh_ht dll_ht) < ht_size (dh_ht dll_ht);
  dh_repr : dll_repr m (dh_list dll_ht) (entry_cell <$> entries);
  dh_index :
    filter live (ht_nodes (dh_ht dll_ht)) ≡ₚ entry_index <$> entries
}.

Lemma DLL_HT_create_ok m cmp hash :
  callbacks_ok cmp hash → dh_ok m (DLL_HT_create cmp hash) [].
Proof.
  intros Hcb. unfold DLL_HT_create. split; simpl.
  - apply ht_create_wf; [by vm_compute | done].
  - by vm_compute.
  - by apply dll_repr_nil.
  - by rewrite ht_nodes_create.
Qed.

Lemma dh_lookup m dll_ht entries key n :
  dh_ok m dll_ht entries → key ≠ NULL →
  ht_get_node (dh_ht dll_ht) key = Some n ↔
  ∃ e, e ∈ entries ∧ n = entry_index e
       ∧ ht_compare (dh_ht dll_ht) (ke_key e) key = 0.
Proof.
  intros [Hwf _ _ Hidx] Hk. rewrite ht_get_node_iff by done. split.
  - intros [Hn Hm].
    assert (n ∈ entry_index <$> entries) as Hin.
    { rewrite <- Hidx. apply list_elem_of_filter. split; [|done].
      by eapply matches_live; [apply (wf_cb _ Hwf)|..]. }
    apply list_elem_of_fmap in Hin as (e & -> & He). by exists e.
  - intros (e & He & -> & Hc). split; [|done].
    assert (entry_index e ∈ filter live (ht_nodes (dh_ht dll_ht))) as Hin.
    { rewrite Hidx. by apply list_elem_of_fmap_2. }
    by apply list_elem_of_filter in Hin as [_ ?].
Qed.

(** ** The list as a sequence of calls sees it *)

Inductive kl_op :=
  | KInsert (key data : ptr)
  | KRemove (key : ptr).

Definition DLL_HT_step (free_data : ptr) (m : gmap Z DLL_node)
    (dll_ht : DLL_HT_t) (op : kl_op)
  : option (gmap Z DLL_node * DLL_HT_t * list call) :=
  match op with
  | KInsert key data =>
      '(m', dll_ht') ← DLL_HT_insert m dll_ht key data; Some (m', dll_ht', [])
  | KRemove key => DLL_HT_remove m dll_ht key free_data
  end.

(** A run of inserts and removals, with the calls it makes. *)
Fixpoint DLL_HT_run (free_data : ptr) (m : gmap Z DLL_node)
    (dll_ht : DLL_HT_t) (ops : list kl_op)
  : option (gmap Z DLL_node * DLL_HT_t * list call) :=
  match ops with
  | [] => Some (m, dll_ht, [])
  | op :: ops' =>
      '(m1, dll_ht1, calls1) ← DLL_HT_step free_data m dll_ht op;
      '(m2, dll_ht2, calls2) ← DLL_HT_run free_data m1 dll_ht1 ops';
      Some (m2, dll_ht2, calls1 ++ calls2)
  end.

(** The keys and values a keyed list holds, read off the calls alone. *)
Definition kl_has (cmp : ptr → ptr → Z) (model : list (ptr * ptr))
    (key : ptr) : bool :=
  bool_decide (Exists (λ e, cmp e.1 key = 0) model).

Definition kl_step (cmp : ptr → ptr → Z) (model : list (ptr * ptr))
    (op : kl_op) : list (ptr * ptr) :=
  match op with
  | KInsert key data =>
      if kl_has cmp model key then model else model ++ [(key, data)]
  | KRemove key => filter (λ e, cmp e.1 key ≠ 0) model
  end.

Fixpoint kl_entries (cmp : ptr → ptr → Z) (model : list (ptr * ptr))
    (ops : list kl_op) : list (ptr * ptr) :=
  match ops with
  | [] => model
  | op :: ops' => kl_entries cmp (kl_step cmp model op) ops'
  end.

(** The values the inserts of a run store: an insert of a key the list
    holds stores nothing. *)
Fixpoint kl_stored (cmp : ptr → ptr → Z) (model : list (ptr * ptr))
    (ops : list kl_op) : list ptr :=
  match ops with
  | [] => []
  | op :: ops' =>
      match op with
      | KInsert key data => if kl_has cmp model key then [] else [data]
      | KRemove _ => []
      end ++ kl_stored cmp (kl_step cmp model op) ops'
  end.

(** Keys are not [NULL], and every removal is of a key the list holds. *)
Fixpoint kl_valid (cmp : ptr → ptr → Z) (model : list (ptr * ptr))
    (ops : list kl_op) : Prop :=
  match ops with
  | [] => True
  | op :: ops' =>
      match op with
      | KInsert key _ => key ≠ NULL
      | KRemove key => key ≠ NULL ∧ kl_has cmp model key = true
      end ∧ kl_valid cmp (kl_step cmp model op) ops'
  end.

Lemma dh_contains m dll_ht entries key :
  dh_ok m dll_ht entries → key ≠ NULL →
  ht_contains (dh_ht dll_ht) key
  = kl_has (ht_compare (dh_ht dll_ht)) (entry_pair <$> entries) key.
Proof.
  intros Hok Hk. unfold ht_contains, kl_has.
  destruct (ht_get_node (dh_ht dll_ht) key) as [n|] eqn:Hget.
  - symmetry. apply bool_decide_eq_true. apply Exists_exists.
    apply (dh_lookup _ _ _ _ _ Hok Hk) in Hget as (e & He & _ & Hc).
    exists (entry_pair e). split; [by apply list_elem_of_fmap_2 | done].
  - symmetry. apply bool_decide_eq_false. intros Hex.
    apply Exists_exists in Hex as (p & Hp & Hc).
    apply list_elem_of_fmap in Hp as (e & -> & He).
    assert (ht_get_node (dh_ht dll_ht) key = Some (entry_index e)) as E.
    { apply (dh_lookup _ _ _ _ _ Hok Hk). by exists e. }
    congruence.
Qed.

Lemma filter_all {A} (P : A → Prop) `{!∀ x, Decision (P x)} (l : list A) :
  Forall P l → filter P l = l.
Proof.
  induction 1 as [|x l Hx _ IH]; [done|].
  by rewrite filter_cons_True, IH.
Qed.

Lemma DLL_HT_insert_new m dll_ht entries key data :
  dh_ok m dll_ht entries → ht_size (dh_ht dll_ht) ≤ 2 ^ 52 → key ≠ NULL →
  ht_contains (dh_ht dll_ht) key = false →
  ∃ m' dll_ht',
    DLL_HT_insert m dll_ht key data = Some (m', dll_ht')
    ∧ dh_ok m' dll_ht' (entries ++ [KlEntry key (malloc m) data])
    ∧ ht_compare (dh_ht dll_ht') = ht_compare (dh_ht dll_ht)
    ∧ ht_n_values (dh_ht dll_ht') ≤ ht_n_values (dh_ht dll_ht) + 1
    ∧ (ht_size (dh_ht dll_ht') = ht_size (dh_ht dll_ht)
       ∨ ht_size (dh_ht dll_ht')
         = 2 * (ht_n_values (dh_ht dll_ht) + 1)).
Proof.
  intros [Hwf Hload Hrepr Hidx] Hbound Hk Hc.
  assert (ht_get_node (dh_ht dll_ht) key = None) as Hget.
  { unfold ht_contains in Hc. by destruct (ht_get_node _ _). }
  unfold DLL_HT_insert. rewrite Hc.
  destruct (DLL_insert_tail_repr _ _ _ data Hrepr)
    as (m' & list' & -> & Hrepr' & Htail & _ & _).
  simpl. rewrite Htail, (ht_unique_insert_new _ _ _ Hget).
  destruct (ht_insert_new (dh_ht dll_ht) key (malloc m) Hwf Hload Hbound Hk Hget)
    as (Hwf' & Hload' & Hv' & Hs' & Hc' & _ & Hnd').
  eexists _, _. split; [done|]. split_and!; simpl.
  - split; simpl; [done..| |].
    + by rewrite fmap_app.
    + rewrite Hnd', filter_cons_True by done. rewrite Hidx, fmap_app. simpl.
      apply Permutation_cons_append.
  - done.
  - lia.
  - rewrite Hs'.
    destruct (Z.eqb_spec (ht_n_values (dh_ht dll_ht) + 1)
                (ht_size (dh_ht dll_ht))); lia.
Qed.

Lemma DLL_HT_insert_present m dll_ht key data :
  ht_contains (dh_ht dll_ht) key = true →
  DLL_HT_insert m dll_ht key data = Some (m, dll_ht).
Proof. intros Hc. unfold DLL_HT_insert. by rewrite Hc. Qed.

Lemma DLL_HT_remove_present m dll_ht entries key free_data :
  dh_ok m dll_ht entries → key ≠ NULL →
  ht_contains (dh_ht dll_ht) key = true →
  ∃ e1 e e2 m' dll_ht',
    entries = e1 ++ e :: e2
    ∧ ht_compare (dh_ht dll_ht) (ke_key e) key = 0
    ∧ (∀ e', e' ∈ e1 ++ e2 →
             ht_compare (dh_ht dll_ht) (ke_key e') key ≠ 0)
    ∧ DLL_HT_remove m dll_ht key free_data
      = Some (m', dll_ht', call_if free_data (ke_data e))
    ∧ dh_ok m' dll_ht' (e1 ++ e2)
    ∧ ht_compare (dh_ht dll_ht') = ht_compare (dh_ht dll_ht)
    ∧ ht_n_values (dh_ht dll_ht') ≤ ht_n_values (dh_ht dll_ht)
    ∧ ht_size (dh_ht dll_ht') = ht_size (dh_ht dll_ht).
Proof.
  intros Hok Hk Hc. pose proof Hok as [Hwf Hload Hrepr Hidx].
  unfold ht_contains in Hc.
  destruct (ht_get_node (dh_ht dll_ht) key) as [n|] eqn:Hget; [|done].
  pose proof Hget as Hget'.
  apply (dh_lookup _ _ _ _ _ Hok Hk) in Hget' as (e & He & -> & Hcmp).
  apply list_elem_of_split in He as (e1 & e2 & ->).
  assert (ht_search (dh_ht dll_ht) key = ke_node e) as Hsearch.
  { unfold ht_search. by rewrite Hget. }
  rewrite fmap_app in Hrepr. simpl in Hrepr.
  destruct (DLL_HT_remove_list m dll_ht key free_data _ _ _ _ Hsearch Hrepr)
    as (m' & list' & Hrm & Hrepr' & _).
  destruct (ht_remove_found (dh_ht dll_ht) key NULL NULL _ Hwf Hk Hget)
    as (Hwf' & Hv' & Hs' & Hc' & _ & _ & rest & Hn & Hn').
  assert (live (entry_index e)) as Hlive.
  { apply ht_get_node_elem in Hget as [_ Hm].
    by eapply matches_live; [apply (wf_cb _ Hwf)|..]. }
  assert (filter live rest ≡ₚ entry_index <$> (e1 ++ e2)) as Hidx'.
  { rewrite Hn, filter_cons_True in Hidx by done.
    rewrite fmap_app in Hidx. simpl in Hidx.
    rewrite <- Permutation_middle in Hidx.
    apply Permutation.Permutation_cons_inv in Hidx.
    by rewrite fmap_app. }
  assert (filter (matches (ht_compare (dh_ht dll_ht)) key) rest = []) as Hnone.
  { pose proof (wf_uniq _ Hwf key Hk) as Hu. rewrite Hn in Hu.
    apply ht_get_node_elem in Hget as [_ Hm].
    rewrite filter_cons_True in Hu by done. simpl in Hu.
    apply length_zero_iff_nil. lia. }
  exists e1, e, e2, m'. eexists. split_and!; [done..| |exact Hrm| | | |].
  - intros e' He' Hcmp'.
    assert (entry_index e' ∈ filter live rest) as Hin.
    { rewrite Hidx'. by apply list_elem_of_fmap_2. }
    apply list_elem_of_filter in Hin as [_ Hin].
    eapply (filter_nil_not_elem_of _ _ (entry_index e')); [exact Hnone| |done].
    done.
  - split; cbn [dh_ht dh_list].
    + done.
    + lia.
    + by rewrite fmap_app.
    + destruct Hn' as [-> | ->]; [done|].
      rewrite filter_cons_False; [done|]. unfold live. simpl. by intros [].
  - done.
  - cbn [dh_ht]. lia.
  - done.
Qed.

Lemma kl_remove_model (cmp : ptr → ptr → Z) (key : ptr)
    (e1 : list kl_entry) (e : kl_entry) (e2 : list kl_entry) :
  cmp (ke_key e) key = 0 →
  (∀ e', e' ∈ e1 ++ e2 → cmp (ke_key e') key ≠ 0) →
  filter (λ p : ptr * ptr, cmp p.1 key ≠ 0) (entry_pair <$> (e1 ++ e :: e2))
  = entry_pair <$> (e1 ++ e2).
Proof.
  intros Hc Hne. rewrite !fmap_app, filter_app. simpl.
  rewrite filter_cons_False by (simpl; by intros []).
  rewrite !filter_all; [done|..]; apply Forall_forall; intros p Hp;
    apply list_elem_of_fmap in Hp as (e' & -> & He'); simpl; apply Hne;
    apply elem_of_app; first [by right | by left].
Qed.

Lemma DLL_HT_run_ok free_data ops : ∀ m dll_ht entries,
  free_data ≠ NULL → dh_ok m dll_ht entries →
  ht_size (dh_ht dll_ht) ≤ 2 ^ 52 →
  2 * (ht_n_values (dh_ht dll_ht) + Z.of_nat (length ops)) ≤ 2 ^ 52 →
  kl_valid (ht_compare (dh_ht dll_ht)) (entry_pair <$> entries) ops →
  ∃ m' dll_ht' entries' calls,
    DLL_HT_run free_data m dll_ht ops = Some (m', dll_ht', calls)
    ∧ dh_ok m' dll_ht' entries'
    ∧ entry_pair <$> entries'
      = kl_entries (ht_compare (dh_ht dll_ht)) (entry_pair <$> entries) ops
    ∧ Forall (λ c, call_fn c = free_data) calls
    ∧ (call_arg <$> calls) ++ (ke_data <$> entries')
      ≡ₚ (ke_data <$> entries)
         ++ kl_stored (ht_compare (dh_ht dll_ht)) (entry_pair <$> entries) ops.
Proof.
  induction ops as [|op ops IH];
    intros m dll_ht entries Hfd Hok Hbound Hroom Hvalid.
  { exists m, dll_ht, entries, []. simpl. split_and!; try done.
    by rewrite app_nil_r. }
  simpl in Hroom, Hvalid. destruct Hvalid as [Hop Hvalid].
  assert (0 ≤ ht_n_values (dh_ht dll_ht)) as Hn0.
  { rewrite (wf_count _ (dh_wf _ _ _ Hok)). lia. }
  destruct op as [key data | key].
  - (* insert *)
    pose proof (dh_contains _ _ _ key Hok Hop) as Hhas.
    destruct (ht_contains (dh_ht dll_ht) key) eqn:Hc.
    + simpl in Hvalid. rewrite <- Hhas in Hvalid.
      destruct (IH m dll_ht entries) as (m' & dh' & entries' & calls & Hrun & H);
        try done; try lia.
      exists m', dh', entries', calls. simpl.
      rewrite (DLL_HT_insert_present _ _ _ _ Hc). simpl. rewrite Hrun. simpl.
      by rewrite <- Hhas.
    + destruct (DLL_HT_insert_new m dll_ht entries key data Hok Hbound Hop Hc)
        as (m1 & dh1 & Hins & Hok1 & Hc1 & Hv1 & Hs1).
      simpl in Hvalid. rewrite <- Hhas in Hvalid.
      destruct (IH m1 dh1 (entries ++ [KlEntry key (malloc m) data]))
        as (m' & dh' & entries' & calls & Hrun & Hok' & Hent & Hfn & Hperm);
        try done; try lia.
      { rewrite Hc1, fmap_app. done. }
      exists m', dh', entries', calls. simpl. rewrite Hins. simpl.
      rewrite Hrun. simpl. rewrite <- Hhas.
      rewrite Hc1, fmap_app in Hent, Hperm. simpl in Hent, Hperm.
      split_and!; try done.
      rewrite Hperm, fmap_app. simpl. by rewrite <- (assoc (++)).
  - (* removal *)
    destruct Hop as [Hk Hhas].
    rewrite <- (dh_contains _ _ _ key Hok Hk) in Hhas.
    destruct (DLL_HT_remove_present m dll_ht entries key free_data Hok Hk Hhas)
      as (e1 & e & e2 & m1 & dh1 & -> & Hcmp & Hne & Hrm & Hok1 & Hc1 & Hv1 & Hs1).
    simpl in Hvalid. rewrite (kl_remove_model _ _ _ _ _ Hcmp Hne) in Hvalid.
    destruct (IH m1 dh1 (e1 ++ e2))
      as (m' & dh' & entries' & calls & Hrun & Hok' & Hent & Hfn & Hperm);
      try done; try lia.
    { by rewrite Hc1. }
    exists m', dh', entries'. eexists. simpl. rewrite Hrm. simpl.
    rewrite Hrun. simpl. rewrite (kl_remove_model _ _ _ _ _ Hcmp Hne).
    rewrite Hc1 in Hent, Hperm.
    unfold call_if. destruct (Z.eqb_spec free_data NULL) as [|_]; [done|].
    split_and!; try done.
    + by constructor.
    + simpl. rewrite Hperm, !fmap_app. simpl.
      rewrite <- !(assoc (++)). simpl. apply Permutation_middle.
Qed.

(** Against C8 as the specification states it: [DLL_HT_remove] drops the index entry
    with no free function, so the key of a removed entry is never passed
    to [free_key], neither by the removal nor by [DLL_HT_clean], whose
    index pass meets the cleared slot instead. *)
Lemma DLL_HT_free_counterexample :
  let free_key := 1001 in
  let free_data := 1002 in
  ∃ m1 dll_ht1 m2 calls2,
    DLL_HT_run free_data ∅ (DLL_HT_create addr_compare addr_hash)
      [KInsert 7 70; KRemove 7] = Some (m1, dll_ht1, [Call free_data 70])
    ∧ DLL_HT_clean m1 dll_ht1 free_key free_data = Some (m2, calls2)
    ∧ calls2 = [Call free_key NULL]
    ∧ ¬ Call free_key 7 ∈ [Call free_data 70] ++ calls2.
Proof.
  eexists _, _, _, _. split; [vm_compute; reflexivity|].
  split; [vm_compute; reflexivity|]. split; [reflexivity|].
  intros H. repeat (apply elem_of_cons in H as [H|H]; [discriminate H|]).
  by apply elem_of_nil in H.
Qed.

(** ** The calls of a whole session *)

Lemma concat_call_if f (l : list ptr) :
  f ≠ NULL → concat (call_if f <$> l) = Call f <$> l.
Proof.
  intros Hf. induction l as [|x l IH]; csimpl; [done|].
  rewrite IH. unfold call_if. by destruct (Z.eqb_spec f NULL).
Qed.

Lemma concat_node_frees f (l : list ht_node) :
  f ≠ NULL →
  concat (node_frees f NULL <$> l) = (λ n, Call f (ht_key n)) <$> l.
Proof.
  intros Hf. induction l as [|x l IH]; csimpl; [done|].
  rewrite IH. unfold node_frees, call_if. simpl.
  by destruct (Z.eqb_spec f NULL).
Qed.

Lemma call_arg_calls f (l : list ptr) : call_arg <$> (Call f <$> l) = l.
Proof. induction l as [|x l IH]; csimpl; [done | by rewrite IH]. Qed.

Lemma filter_calls_same f (l : list ptr) :
  filter (λ c, call_fn c = f) (Call f <$> l) = Call f <$> l.
Proof.
  apply filter_all, Forall_forall. intros c Hc.
  by apply list_elem_of_fmap in Hc as (x & -> & _).
Qed.

Lemma filter_calls_same_key {A} f (h : A → ptr) (l : list A) :
  filter (λ c, call_fn c = f) ((λ x, Call f (h x)) <$> l)
  = (λ x, Call f (h x)) <$> l.
Proof.
  apply filter_all, Forall_forall. intros c Hc.
  by apply list_elem_of_fmap in Hc as (x & -> & _).
Qed.

Lemma filter_calls_other {A} f g (h : A → ptr) (l : list A) :
  f ≠ g → filter (λ c, call_fn c = f) ((λ x, Call g (h x)) <$> l) = [].
Proof.
  intros Hne. apply filter_nil_forall. intros c Hc.
  apply list_elem_of_fmap in Hc as (x & -> & _). simpl. congruence.
Qed.

Lemma filter_live_keys (l : list ht_node) :
  filter (λ k, k ≠ NULL) (ht_key <$> l) = ht_key <$> filter live l.
Proof.
  induction l as [|x l IH]; [done|]. rewrite fmap_cons, !filter_cons.
  unfold live at 1. destruct (decide (ht_key x ≠ NULL)); by rewrite IH.
Qed.

(** C8, amended (frees of the keyed list).  Over any run of inserts and
    of removals of keys the list holds, followed by [DLL_HT_clean], with
    two distinct free functions: [free_data] is called exactly once on
    every value stored, by the removal that deletes it or by the drain of
    the list; [free_key] is called only by the index pass of the clean,
    exactly once on every key the index still holds; the removals call
    nothing but [free_data], so the key of a removed entry is never passed
    to [free_key]; and the index pass makes no [free_data] call. *)
Theorem DLL_HT_free_once cmp hash (m : gmap Z DLL_node) (ops : list kl_op)
    (free_key free_data : ptr) :
  callbacks_ok cmp hash → kl_valid cmp [] ops →
  2 * Z.of_nat (length ops) ≤ 2 ^ 52 →
  free_key ≠ NULL → free_data ≠ NULL → free_key ≠ free_data →
  ∃ m1 dll_ht1 calls1 m2 calls2,
    DLL_HT_run free_data m (DLL_HT_create cmp hash) ops
    = Some (m1, dll_ht1, calls1)
    ∧ DLL_HT_clean m1 dll_ht1 free_key free_data = Some (m2, calls2)
    ∧ Forall (λ c, call_fn c = free_data) calls1
    ∧ call_arg <$> filter (λ c, call_fn c = free_data) (calls1 ++ calls2)
      ≡ₚ kl_stored cmp [] ops
    ∧ filter (λ k, k ≠ NULL)
        (call_arg <$> filter (λ c, call_fn c = free_key) (calls1 ++ calls2))
      ≡ₚ (kl_entries cmp [] ops).*1
    ∧ filter (λ c, call_fn c = free_data) calls2
      = Call free_data <$> (kl_entries cmp [] ops).*2.
Proof.
  intros Hcb Hvalid Hroom Hfk Hfd Hne.
  assert (49 ≤ 2 ^ 52) as Hsz by (by vm_compute).
  destruct (DLL_HT_run_ok free_data ops m (DLL_HT_create cmp hash) [] Hfd
              (DLL_HT_create_ok m cmp hash Hcb) Hsz Hroom Hvalid)
    as (m1 & dh1 & entries & calls1 & Hrun & Hok & Hent & Hfn & Hperm).
  cbn [DLL_HT_create dh_ht ht_create ht_compare fmap list_fmap] in Hent, Hperm.
  simpl in Hperm.
  destruct (DLL_clean_repr m1 (dh_list dh1) _ free_data (dh_repr _ _ _ Hok))
    as (m2 & Hclean).
  exists m1, dh1, calls1, m2. eexists. split; [done|].
  unfold DLL_HT_clean. rewrite Hclean. simpl.
  rewrite (ht_clean_calls _ _ _ (wf_length _ (dh_wf _ _ _ Hok))).
  rewrite concat_call_if, concat_node_frees by done.
  split; [done|]. split; [done|].
  assert ((entry_cell <$> entries).*2 = ke_data <$> entries) as Hdata.
  { clear. induction entries as [|e l IH]; csimpl; [done | by rewrite IH]. }
  assert ((kl_entries cmp [] ops).*2 = ke_data <$> entries) as Hdata'.
  { rewrite <- Hent. clear.
    induction entries as [|e l IH]; csimpl; [done | by f_equal]. }
  assert ((kl_entries cmp [] ops).*1 = ke_key <$> entries) as Hkeys.
  { rewrite <- Hent. clear.
    induction entries as [|e l IH]; csimpl; [done | by f_equal]. }
  rewrite Hdata. split_and!.
  - rewrite !filter_app, (filter_all _ calls1) by done.
    rewrite filter_calls_same, filter_calls_other by done.
    rewrite app_nil_r, fmap_app, <- Hperm. f_equiv.
    by rewrite call_arg_calls.
  - rewrite !filter_app.
    rewrite (filter_nil_forall _ calls1); last first.
    { intros c Hc. rewrite Forall_forall in Hfn. rewrite (Hfn c Hc). congruence. }
    rewrite (filter_calls_other free_key free_data (λ x, x)) by done.
    rewrite !app_nil_l.
    rewrite filter_calls_same_key, Hkeys.
    assert (call_arg <$> ((λ n, Call free_key (ht_key n)) <$> ht_nodes (dh_ht dh1))
            = ht_key <$> ht_nodes (dh_ht dh1)) as ->.
    { induction (ht_nodes (dh_ht dh1)) as [|x l IH]; csimpl; [done | by f_equal]. }
    rewrite filter_live_keys, (dh_index _ _ _ Hok).
    clear. induction entries as [|e l IH]; csimpl; [done | by f_equiv].
  - rewrite filter_app, filter_calls_same.
    rewrite (filter_calls_other free_data free_key) by done.
    by rewrite app_nil_r, Hdata'.
Qed.

Lemma DLL_HT_free_once_witness :
  let free_key := 1001 in
  let free_data := 1002 in
  let ops := [KInsert 7 70; KInsert 8 80; KInsert 7 71; KRemove 7;
              KInsert 9 90] in
  ∃ m1 dll_ht1 calls1 m2 calls2,
    DLL_HT_run free_data ∅ (DLL_HT_create addr_compare addr_hash) ops
    = Some (m1, dll_ht1, calls1)
    ∧ DLL_HT_clean m1 dll_ht1 free_key free_data = Some (m2, calls2)
    ∧ call_arg <$> filter (λ c, call_fn c = free_data) (calls1 ++ calls2)
      ≡ₚ [70; 80; 90]
    ∧ filter (λ k, k ≠ NULL)
        (call_arg <$> filter (λ c, call_fn c = free_key) (calls1 ++ calls2))
      ≡ₚ [8; 9].
Proof.
  intros free_key free_data ops.
  destruct (DLL_HT_free_once addr_compare addr_hash ∅ ops free_key free_data)
    as (m1 & dh1 & calls1 & m2 & calls2 & Hrun & Hclean & _ & Hd & Hk & _).
  - apply addr_callbacks_ok.
  - simpl. unfold kl_has. repeat split; try (by vm_compute).
  - by vm_compute.
  - by vm_compute.
  - by vm_compute.
  - by vm_compute.
  - exists m1, dh1, calls1, m2, calls2. split_and!; [done..| |].
    + rewrite Hd. vm_compute. reflexivity.
    + rewrite Hk. vm_compute. reflexivity.
Defined.

(** * Further properties of the hash table *)

(** ** [ht_unique_insert] *)

(** X1.  [ht_unique_insert] never overwrites: it reports whether the key
    was absent; on a key the table holds the table is returned as it is,
    and on an absent key the value becomes the one found under the key
    and the entry count grows by one. *)
Theorem ht_unique_insert_spec (ht : hashtable) (key value : ptr) :
  ht_wf ht → ht_n_values ht < ht_size ht → ht_size ht ≤ 2 ^ 52 →
  key ≠ NULL →
  let ht' := (ht_unique_insert ht key value).1 in
  (ht_unique_insert ht key value).2 = negb (ht_contains ht key)
  ∧ ht_contains ht' key = true
  ∧ ht_search ht' key
    = (if ht_contains ht key then ht_search ht key else value)
  ∧ ht_n_values ht'
    = (if ht_contains ht key then ht_n_values ht else ht_n_values ht + 1)
  ∧ (ht_contains ht key = true → ht' = ht).
Proof.
  intros Hwf Hload Hbound Hk. unfold ht_unique_insert.
  destruct (ht_contains ht key) eqn:Hc; simpl.
  - by rewrite Hc.
  - assert (ht_get_node ht key = None) as Hget.
    { unfold ht_contains in Hc. by destruct (ht_get_node ht key). }
    destruct (ht_insert_lookup_same ht key value key) as (n & Hn & Hv);
      try done.
    { by apply (cmp_refl _ _ (wf_cb _ Hwf)). }
    destruct (ht_insert_new ht key value Hwf Hload Hbound Hk Hget)
      as (_ & _ & Hcount & _).
    unfold ht_contains, ht_search. rewrite Hn. done.
Qed.

Lemma ht_unique_insert_spec_witness :
  let ht := ht_insert (ht_create 2 addr_compare addr_hash) 1 10 in
  (ht_unique_insert ht 1 11).2 = false
  ∧ ht_search (ht_unique_insert ht 1 11).1 1 = 10
  ∧ (ht_unique_insert ht 3 30).2 = true
  ∧ ht_search (ht_unique_insert ht 3 30).1 3 = 30.
Proof.
  intros ht.
  assert (ht_wf ht ∧ ht_n_values ht < ht_size ht) as [Hwf Hload].
  { assert (ht_wf (ht_create 2 addr_compare addr_hash)) as Hwf0.
    { apply ht_create_wf; [by vm_compute | apply addr_callbacks_ok]. }
    destruct (ht_insert_wf _ 1 10 Hwf0) as (Hwf & Hload & _);
      [by vm_compute..|done]. }
  assert (ht_size ht ≤ 2 ^ 52) as Hbound by (by vm_compute).
  destruct (ht_unique_insert_spec ht 1 11 Hwf Hload Hbound)
    as (H1 & _ & H2 & _); [by vm_compute|].
  destruct (ht_unique_insert_spec ht 3 30 Hwf Hload Hbound)
    as (H3 & _ & H4 & _); [by vm_compute|].
  split_and!.
  - rewrite H1. vm_compute; reflexivity.
  - rewrite H2. vm_compute; reflexivity.
  - rewrite H3. vm_compute; reflexivity.
  - rewrite H4. vm_compute; reflexivity.
Defined.

(** ** [_resize_ht] *)

Lemma _resize_ht_wf ht :
  ht_wf ht → 2 * ht_size ht < 2 ^ 64 →
  ht_wf (_resize_ht ht) ∧ ht_nodes (_resize_ht ht) ≡ₚ ht_nodes ht
  ∧ ht_compare (_resize_ht ht) = ht_compare ht.
Proof.
  intros [Hcb Hs Hsr Hl Hp Hu Hc Hnr] Hbound.
  destruct (_resize_ht_spec ht Hs Hbound Hl)
    as (Hs' & Hv' & Hc' & Hh' & Hl' & Hp' & Hnd').
  split_and!; [split|done..].
  - by rewrite Hc', Hh'.
  - lia.
  - lia.
  - done.
  - by apply placed_ht_place.
  - intros k Hk. rewrite Hc', Hnd'. by apply Hu.
  - by rewrite Hv', Hnd'.
  - by rewrite Hv'.
Qed.

(** X2.  Growing the table loses nothing: [_resize_ht] doubles the bucket
    count, keeps the entry count, relinks exactly the nodes it had, and
    every key is found with the same node as before. *)
Theorem _resize_ht_preserves (ht : hashtable) (k : ptr) :
  ht_wf ht → 2 * ht_size ht < 2 ^ 64 → k ≠ NULL →
  ht_size (_resize_ht ht) = ht_size ht * GROWTH_FACTOR
  ∧ ht_n_values (_resize_ht ht) = ht_n_values ht
  ∧ ht_nodes (_resize_ht ht) ≡ₚ ht_nodes ht
  ∧ ht_get_node (_resize_ht ht) k = ht_get_node ht k.
Proof.
  intros Hwf Hbound Hk.
  destruct (_resize_ht_wf ht Hwf Hbound) as (Hwf' & Hnd & Hc).
  destruct (_resize_ht_spec ht (wf_size_pos _ Hwf) Hbound (wf_length _ Hwf))
    as (Hs' & Hv' & _).
  unfold GROWTH_FACTOR. split_and!; [lia | done | done |].
  apply ht_get_node_transfer; [done..|]. intros n. by rewrite Hc, Hnd.
Qed.

Lemma _resize_ht_preserves_witness :
  let ht := ht_insert_all (ht_create 4 addr_compare addr_hash)
              [(1, 10); (5, 50); (2, 20)] in
  ht_size (_resize_ht ht) = 8
  ∧ ht_get_node (_resize_ht ht) 5 = Some (HtNode 5 50)
  ∧ bucket (ht_table ht) 1 = [HtNode 5 50; HtNode 1 10]
  ∧ bucket (ht_table (_resize_ht ht)) 5 = [HtNode 5 50].
Proof.
  intros ht.
  assert (ht_wf ht) as Hwf.
  { apply (ht_run_lookup [Insert 1 10; Insert 5 50; Insert 2 20]
             (ht_create 4 addr_compare addr_hash) 1).
    - apply ht_create_wf; [by vm_compute | apply addr_callbacks_ok].
    - by vm_compute.
    - by vm_compute.
    - by vm_compute.
    - repeat constructor; by vm_compute.
    - by vm_compute. }
  destruct (_resize_ht_preserves ht 5 Hwf) as (Hs & _ & _ & Hg);
    [by vm_compute | by vm_compute |].
  split_and!.
  - rewrite Hs. vm_compute; reflexivity.
  - rewrite Hg. vm_compute; reflexivity.
  - vm_compute; reflexivity.
  - vm_compute; reflexivity.
Defined.

(** ** [ht_insert] on a key the table holds *)

(** X3.  An insert under a key the table already holds replaces the value
    only: the node keeps the key object it was created with (the pointer
    passed now is not stored), the entry count and the bucket count do not
    change, whatever the load, and every other key keeps its node. *)
Theorem ht_insert_keeps_stored_key (ht : hashtable) (key value : ptr)
    (n0 : ht_node) :
  ht_wf ht → key ≠ NULL → ht_get_node ht key = Some n0 →
  let ht' := ht_insert ht key value in
  ht_get_node ht' key = Some (HtNode (ht_key n0) value)
  ∧ ht_get_key ht' key = ht_get_key ht key
  ∧ ht_n_values ht' = ht_n_values ht ∧ ht_size ht' = ht_size ht
  ∧ ∀ k, k ≠ NULL → ht_compare ht key k ≠ 0 →
         ht_get_node ht' k = ht_get_node ht k.
Proof.
  intros Hwf Hkey Hget ht'. pose proof (wf_cb _ Hwf) as Hcb.
  destruct (ht_insert_found ht key value n0 Hwf Hget)
    as (Hwf' & Hv & Hs & Hc & _ & rest & Hn & Hn').
  pose proof (ht_get_node_elem _ _ _ Hget) as [_ Hm]. unfold matches in Hm.
  assert (ht_get_node ht' key = Some (HtNode (ht_key n0) value)) as Hget'.
  { apply ht_get_node_iff; [done..|]. split.
    - unfold ht'. rewrite Hn'. by left.
    - unfold ht'. by rewrite Hc. }
  split_and!; [done | | done | done |].
  - unfold ht_get_key. by rewrite Hget', Hget.
  - intros k Hk Hcmp.
    assert (ht_compare ht (ht_key n0) k ≠ 0) as Hne.
    { intros E. apply Hcmp. apply (cmp_trans _ _ Hcb _ (ht_key n0)); [|done].
      by apply (cmp_sym _ _ Hcb). }
    apply ht_get_node_transfer; [done..|]. intros n. unfold ht'.
    rewrite Hc, Hn, Hn', !elem_of_cons. unfold matches.
    split; (intros [[->|Hr] Hmn]; [by destruct Hne | by split; [right|]]).
Qed.

Lemma ht_insert_keeps_stored_key_witness :
  let hash := λ k : ptr, (Z.abs k + 9) / 10 in
  let cmp := λ a b : ptr, hash a - hash b in
  let ht := ht_insert (ht_create 4 cmp hash) 3 30 in
  ht_get_node (ht_insert ht 7 31) 7 = Some (HtNode 3 31)
  ∧ ht_get_key (ht_insert ht 7 31) 7 = 3.
Proof.
  intros hash cmp ht.
  assert (callbacks_ok cmp hash) as Hcb.
  { unfold cmp. split; intros; try lia.
    assert (1 ≤ hash k); [|change (hash NULL) with 0; lia].
    unfold hash. apply Z.div_le_lower_bound; unfold NULL in *; lia. }
  assert (ht_wf ht) as Hwf.
  { assert (ht_wf (ht_create 4 cmp hash)) as Hwf0.
    { apply ht_create_wf; [by vm_compute | done]. }
    destruct (ht_insert_wf _ 3 30 Hwf0) as (Hwf & _);
      [by vm_compute..|done]. }
  destruct (ht_insert_keeps_stored_key ht 7 31 (HtNode 3 30) Hwf)
    as (H1 & H2 & _); [by vm_compute | vm_compute; reflexivity |].
  split; [exact H1|]. rewrite H2. vm_compute; reflexivity.
Defined.

(** ** Insert and remove *)

(** X4.  Removing a key right after inserting it, when the table did not
    hold it, restores the table as a map: every key is found with the node
    it had before and the entry count is back (the bucket count may have
    doubled on the way). *)
Theorem ht_insert_remove_round_trip (ht : hashtable) (key value : ptr)
    (free_key free_value : ptr) (k : ptr) :
  ht_wf ht → ht_n_values ht < ht_size ht → ht_size ht ≤ 2 ^ 52 →
  key ≠ NULL → ht_get_node ht key = None → k ≠ NULL →
  let ht' := (ht_remove (ht_insert ht key value) key free_key free_value).1 in
  ht_get_node ht' k = ht_get_node ht k
  ∧ ht_n_values ht' = ht_n_values ht.
Proof.
  intros Hwf Hload Hbound Hkey Habs Hk ht'. pose proof (wf_cb _ Hwf) as Hcb.
  destruct (ht_insert_new ht key value Hwf Hload Hbound Hkey Habs)
    as (Hwf1 & _ & Hv1 & _ & Hc1 & _ & Hn1).
  assert (ht_get_node (ht_insert ht key value) key = Some (HtNode key value))
    as Hget1.
  { apply ht_get_node_iff; [done..|]. split.
    - rewrite Hn1. by left.
    - rewrite Hc1. by apply (cmp_refl _ _ Hcb). }
  destruct (ht_remove_found _ key free_key free_value _ Hwf1 Hkey Hget1)
    as (_ & Hv2 & _).
  split; [|unfold ht'; lia].
  destruct (decide (ht_compare ht key k = 0)) as [E|E].
  - unfold ht'. rewrite ht_remove_lookup_same; [|done..|by rewrite Hc1].
    symmetry. apply ht_get_node_None_iff; [done..|]. intros n Hin Hm.
    apply (proj1 (ht_get_node_None_iff ht key Hwf Hkey) Habs n Hin).
    unfold matches in *. apply (cmp_trans _ _ Hcb _ k); [done|].
    by apply (cmp_sym _ _ Hcb).
  - unfold ht'. rewrite ht_remove_lookup_other; [|done..|by rewrite Hc1].
    by apply ht_insert_lookup_other.
Qed.

Lemma ht_insert_remove_round_trip_witness :
  let ht := ht_insert (ht_create 2 addr_compare addr_hash) 1 10 in
  ht_get_node (ht_remove (ht_insert ht 3 30) 3 NULL NULL).1 1
  = Some (HtNode 1 10)
  ∧ ht_size (ht_remove (ht_insert ht 3 30) 3 NULL NULL).1 = 4
  ∧ ht_size ht = 2.
Proof.
  intros ht.
  assert (ht_wf ht ∧ ht_n_values ht < ht_size ht) as [Hwf Hload].
  { assert (ht_wf (ht_create 2 addr_compare addr_hash)) as Hwf0.
    { apply ht_create_wf; [by vm_compute | apply addr_callbacks_ok]. }
    destruct (ht_insert_wf _ 1 10 Hwf0) as (Hwf & Hload & _);
      [by vm_compute..|done]. }
  destruct (ht_insert_remove_round_trip ht 3 30 NULL NULL 1 Hwf Hload)
    as (H1 & _); [by vm_compute | by vm_compute | vm_compute; reflexivity
                  | by vm_compute |].
  split_and!.
  - rewrite H1. vm_compute; reflexivity.
  - vm_compute; reflexivity.
  - vm_compute; reflexivity.
Defined.

(** ** The calls of [ht_remove], [ht_reset] and [ht_clean] *)

(** X5.  [ht_remove] frees what the table stored, not what the caller
    passed: the removal of a key the table holds calls [free_key] on the
    stored key object, then [free_value] on the stored value, each only
    when the function and the object are not [NULL]; whatever the state
    of the table, no call of [ht_remove] passes [NULL] or goes through a
    [NULL] function. *)
Theorem ht_remove_calls (ht : hashtable) (key free_key free_value : ptr) :
  (∀ n, ht_get_node ht key = Some n →
        (ht_remove ht key free_key free_value).2
        = call_if_both free_key (ht_key n)
            ++ call_if_both free_value (ht_value n))
  ∧ (ht_get_node ht key = None →
     (ht_remove ht key free_key free_value).2 = [])
  ∧ Forall (λ c, call_fn c ≠ NULL ∧ call_arg c ≠ NULL)
           (ht_remove ht key free_key free_value).2.
Proof.
  assert (∀ n, ht_get_node ht key = Some n →
               (ht_remove ht key free_key free_value).2
               = call_if_both free_key (ht_key n)
                   ++ call_if_both free_value (ht_value n)) as Hfound.
  { intros n Hget. unfold ht_get_node in Hget.
    apply chain_get_node_Some in Hget as (pre & post & Hb & Hpre & Hn).
    unfold ht_remove. rewrite Hb, chain_remove_split by done. done. }
  split_and!; [done | |].
  - intros Hget. by rewrite ht_remove_absent.
  - assert (∀ f p, Forall (λ c, call_fn c ≠ NULL ∧ call_arg c ≠ NULL)
                          (call_if_both f p)) as Hboth.
    { intros f p. unfold call_if_both.
      destruct (Z.eqb_spec f NULL), (Z.eqb_spec p NULL); simpl;
        repeat constructor; done. }
    destruct (ht_get_node ht key) as [n|] eqn:Hget.
    + rewrite (Hfound n eq_refl). apply Forall_app. split; apply Hboth.
    + rewrite ht_remove_absent by done. constructor.
Qed.

Lemma node_frees_keys (fk fv : ptr) (l : list ht_node) :
  fk ≠ NULL → fv ≠ NULL → fk ≠ fv →
  call_arg <$> filter (λ c, call_fn c = fk) (concat (node_frees fk fv <$> l))
  = ht_key <$> l.
Proof.
  intros Hfk Hfv Hne. induction l as [|n l IH]; [done|].
  rewrite !fmap_cons. cbn [concat]. unfold node_frees at 1, call_if.
  destruct (Z.eqb_spec fk NULL), (Z.eqb_spec fv NULL); try done.
  cbn [app]. rewrite filter_cons_True by done.
  rewrite filter_cons_False by (simpl; congruence).
  rewrite fmap_cons. by rewrite IH.
Qed.

Lemma node_frees_values (fk fv : ptr) (l : list ht_node) :
  fk ≠ NULL → fv ≠ NULL → fk ≠ fv →
  call_arg <$> filter (λ c, call_fn c = fv) (concat (node_frees fk fv <$> l))
  = ht_value <$> l.
Proof.
  intros Hfk Hfv Hne. induction l as [|n l IH]; [done|].
  rewrite !fmap_cons. cbn [concat]. unfold node_frees at 1, call_if.
  destruct (Z.eqb_spec fk NULL), (Z.eqb_spec fv NULL); try done.
  cbn [app]. rewrite filter_cons_False by (simpl; congruence).
  rewrite filter_cons_True by done.
  rewrite fmap_cons. by rewrite IH.
Qed.

(** X6.  [ht_reset] hands back the table [ht_create] would make for the
    same bucket count and callbacks, and [ht_clean] makes the same calls:
    with two distinct free functions, [free_key] is called exactly once
    per node of the table with the node's key and [free_value] once with
    its value, in bucket order.  Unlike [ht_remove] the two do not test
    the object: a slot cleared by an earlier removal gets
    [free_key(NULL)] and [free_value(NULL)]. *)
Theorem ht_reset_spec (ht : hashtable) (free_key free_value : ptr) :
  length (ht_table ht) = Z.to_nat (ht_size ht) →
  free_key ≠ NULL → free_value ≠ NULL → free_key ≠ free_value →
  let calls := (ht_reset ht free_key free_value).2 in
  (ht_reset ht free_key free_value).1
  = ht_create (ht_size ht) (ht_compare ht) (ht_hash ht)
  ∧ ht_clean ht free_key free_value = calls
  ∧ call_arg <$> filter (λ c, call_fn c = free_key) calls
    = ht_key <$> ht_nodes ht
  ∧ call_arg <$> filter (λ c, call_fn c = free_value) calls
    = ht_value <$> ht_nodes ht
  ∧ (ht_reset ht NULL NULL).2 = [].
Proof.
  intros Hlen Hfk Hfv Hne calls.
  assert (calls = concat (node_frees free_key free_value <$> ht_nodes ht))
    as Hcalls.
  { unfold calls. rewrite <- (ht_clean_calls ht _ _ Hlen). done. }
  split_and!.
  - unfold ht_reset, ht_create, set_n_values, set_table, _initialise_table.
    cbn [fst ht_size ht_compare ht_hash ht_table]. f_equal.
    rewrite drop_ge by lia. by rewrite app_nil_r.
  - done.
  - rewrite Hcalls. by apply node_frees_keys.
  - rewrite Hcalls. by apply node_frees_values.
  - change ((ht_reset ht NULL NULL).2) with (ht_clean ht NULL NULL).
    rewrite (ht_clean_calls ht _ _ Hlen).
    generalize (ht_nodes ht). intros l.
    induction l as [|n l IH]; [done|].
    rewrite fmap_cons. cbn [concat]. rewrite IH. done.
Qed.

Lemma ht_reset_spec_witness :
  let ht := (ht_remove (ht_insert (ht_insert
               (ht_create 2 addr_compare addr_hash) 1 10) 2 20) 1 NULL NULL).1
  in
  (ht_reset ht 100 200).1 = ht_create 4 addr_compare addr_hash
  ∧ call_arg <$> filter (λ c, call_fn c = 100) (ht_clean ht 100 200)
    = [NULL; 2].
Proof.
  intros ht.
  destruct (ht_reset_spec ht 100 200) as (H1 & H2 & H3 & _);
    [vm_compute; reflexivity | by vm_compute..|].
  split; [exact H1|]. rewrite H2, H3. vm_compute; reflexivity.
Defined.

Lemma ht_remove_calls_witness :
  let ht := ht_insert (ht_create 2 addr_compare addr_hash) 1 10 in
  (ht_remove ht 1 100 200).2 = [Call 100 1; Call 200 10]
  ∧ (ht_remove ht 3 100 200).2 = [].
Proof.
  intros ht. destruct (ht_remove_calls ht 1 100 200) as (H1 & _).
  destruct (ht_remove_calls ht 3 100 200) as (_ & H2 & _).
  split.
  - rewrite (H1 (HtNode 1 10)); vm_compute; reflexivity.
  - apply H2. vm_compute; reflexivity.
Defined.

(** ** Cleared slots *)

(** The nodes a removal cleared and left in their chain. *)
Definition cleared_slots (ht : hashtable) : nat :=
  length (filter (λ n, ¬ live n) (ht_nodes ht)).

Lemma ht_nodes_count ht :
  ht_wf ht →
  Z.of_nat (length (ht_nodes ht))
  = ht_n_values ht + Z.of_nat (cleared_slots ht).
Proof.
  intros Hwf. rewrite (wf_count _ Hwf). unfold cleared_slots.
  rewrite <- Nat2Z.inj_add, <- length_app.
  by rewrite (filter_app_complement live (ht_nodes ht)).
Qed.

Lemma ht_step_cleared ht op :
  ht_wf ht → ht_n_values ht < ht_size ht → ht_size ht ≤ 2 ^ 52 →
  op_key op ≠ NULL →
  (cleared_slots ht ≤ cleared_slots (ht_step ht op))%nat.
Proof.
  intros Hwf Hload Hbound Hkey. unfold cleared_slots.
  destruct op as [key value|key fk fv]; simpl in *.
  - destruct (ht_get_node ht key) as [n0|] eqn:Hget.
    + destruct (ht_insert_found ht key value n0 Hwf Hget)
        as (_ & _ & _ & _ & _ & rest & Hn & Hn').
      apply ht_get_node_elem in Hget as [_ Hm].
      pose proof (matches_live _ _ _ (wf_cb _ Hwf) Hkey Hm) as Hlive.
      rewrite Hn, Hn'. rewrite !filter_cons_False; [done|..].
      * intros Hnl. by apply Hnl.
      * intros Hnl. by apply Hnl.
    + destruct (ht_insert_new ht key value Hwf Hload Hbound Hkey Hget)
        as (_ & _ & _ & _ & _ & _ & Hn').
      rewrite Hn'. rewrite filter_cons_False; [done|].
      intros Hnl. by apply Hnl.
  - destruct (ht_get_node ht key) as [n0|] eqn:Hget.
    + destruct (ht_remove_found ht key fk fv n0 Hwf Hkey Hget)
        as (_ & _ & _ & _ & _ & _ & rest & Hn & Hn').
      apply ht_get_node_elem in Hget as [_ Hm].
      pose proof (matches_live _ _ _ (wf_cb _ Hwf) Hkey Hm) as Hlive.
      rewrite Hn. rewrite filter_cons_False by (intros Hnl; by apply Hnl).
      destruct Hn' as [-> | ->]; [done|].
      rewrite filter_cons_True; [simpl; lia|].
      intros Hl. by apply Hl.
    + by rewrite ht_remove_absent.
Qed.

(** X7.  Removals never give a slot back: over any run of inserts and
    removals the number of cleared nodes held by the chains does not go
    down, and the table holds one node per entry plus these cleared
    nodes; they stay allocated until [ht_reset] or [ht_clean]. *)
Theorem ht_cleared_slots_accumulate (ops : list ht_op) (ht : hashtable) :
  ht_wf ht → ht_n_values ht < ht_size ht → ht_size ht ≤ 2 ^ 52 →
  2 * (ht_n_values ht + Z.of_nat (length ops)) ≤ 2 ^ 52 →
  Forall (λ op, op_key op ≠ NULL) ops →
  let ht' := ht_run ht ops in
  (cleared_slots ht ≤ cleared_slots ht')%nat
  ∧ Z.of_nat (length (ht_nodes ht'))
    = ht_n_values ht' + Z.of_nat (cleared_slots ht').
Proof.
  revert ht. induction ops as [|op ops IH];
    intros ht Hwf Hload Hbound Hroom Hkeys.
  { split; [done | by apply ht_nodes_count]. }
  inversion Hkeys as [|? ? Hkey Hkeys']; subst. simpl in Hroom.
  destruct (ht_step_wf ht op Hwf Hload Hbound Hkey)
    as (Hwf1 & Hload1 & Hc1 & Hv1 & Hs1).
  assert (0 ≤ ht_n_values ht) as Hpos.
  { rewrite (wf_count _ Hwf). lia. }
  destruct (IH (ht_step ht op)) as (Hle & Hcount); try done; try lia.
  cbv zeta. cbn [ht_run foldl]. fold (ht_run (ht_step ht op) ops).
  split; [|done].
  pose proof (ht_step_cleared ht op Hwf Hload Hbound Hkey). lia.
Qed.

Lemma ht_cleared_slots_accumulate_witness :
  let ht := ht_create 2 addr_compare addr_hash in
  let ops := [Insert 1 10; Remove 1 NULL NULL; Insert 1 11;
              Remove 1 NULL NULL; Insert 3 30] in
  (cleared_slots ht ≤ cleared_slots (ht_run ht ops))%nat
  ∧ ht_nodes (ht_run ht ops) = [HtNode 3 30; HtNode NULL NULL]
  ∧ ht_n_values (ht_run ht ops) = 1.
Proof.
  intros ht ops.
  destruct (ht_cleared_slots_accumulate ops ht) as (H1 & _).
  - apply ht_create_wf; [by vm_compute | apply addr_callbacks_ok].
  - by vm_compute.
  - by vm_compute.
  - by vm_compute.
  - repeat constructor; by vm_compute.
  - split_and!; [exact H1 | vm_compute; reflexivity..].
Defined.

(** ** The counter table *)

(** [ht_insert_count] on each key of a list, first to last. *)
Fixpoint ht_count_all (cells : gmap Z Z) (ht : hashtable) (keys : list ptr)
  : option (gmap Z Z * hashtable) :=
  match keys with
  | [] => Some (cells, ht)
  | key :: keys' =>
      match ht_insert_count cells ht key with
      | Some (cells', ht', _) => ht_count_all cells' ht' keys'
      | None => None
      end
  end.

(** How many keys of [l] compare equal to [k]. *)
Definition occurrences (cmp : ptr → ptr → Z) (k : ptr) (l : list ptr) : Z :=
  Z.of_nat (length (filter (λ x, cmp x k = 0) l)).

Lemma occurrences_snoc cmp k l x :
  occurrences cmp k (l ++ [x])
  = occurrences cmp k l + (if decide (cmp x k = 0) then 1 else 0).
Proof.
  unfold occurrences. rewrite filter_app, length_app.
  rewrite filter_cons, filter_nil. destruct (decide (cmp x k = 0)); simpl; lia.
Qed.

Lemma occurrences_le cmp k l : 0 ≤ occurrences cmp k l ≤ Z.of_nat (length l).
Proof.
  unfold occurrences. pose proof (length_filter (λ x, cmp x k = 0) l). lia.
Qed.

Lemma occurrences_equiv cmp hash a b l :
  callbacks_ok cmp hash → cmp a b = 0 →
  occurrences cmp a l = occurrences cmp b l.
Proof.
  intros Hcb Hab. unfold occurrences. f_equal. f_equal.
  apply list_filter_iff. intros x. split; intros Hx.
  - by apply (cmp_trans _ _ Hcb _ a).
  - apply (cmp_trans _ _ Hcb _ b); [done|]. by apply (cmp_sym _ _ Hcb).
Qed.

Lemma NoDup_fmap_elem {A B} (f : A → B) (l : list A) x y :
  NoDup (f <$> l) → x ∈ l → y ∈ l → f x = f y → x = y.
Proof.
  induction l as [|a l IH]; intros Hnd Hx Hy Hf.
  { by apply elem_of_nil in Hx. }
  rewrite fmap_cons in Hnd. apply NoDup_cons in Hnd as [Ha Hnd].
  apply elem_of_cons in Hx as [->|Hx], Hy as [->|Hy]; [done| | |by apply IH].
  - destruct Ha. rewrite Hf. by apply list_elem_of_fmap_2.
  - destruct Ha. rewrite <- Hf. by apply list_elem_of_fmap_2.
Qed.

(** The state of a counter table after the keys [seen]: every node's value
    is a cell of its own that holds the number of keys equal to the node's
    key, and a key without a node did not occur. *)
Record count_ok (cmp : ptr → ptr → Z) (cells : gmap Z Z) (ht : hashtable)
    (seen : list ptr) : Prop := {
  co_wf : ht_wf ht;
  co_load : ht_n_values ht < ht_size ht;
  co_bound : ht_size ht ≤ 2 ^ 52;
  co_n : ht_n_values ht ≤ Z.of_nat (length seen);
  co_cmp : ht_compare ht = cmp;
  co_cells : ∀ n, n ∈ ht_nodes ht →
    ht_value n ≠ NULL
    ∧ cells !! ht_value n = Some (occurrences cmp (ht_key n) seen);
  co_nodup : NoDup (ht_value <$> ht_nodes ht);
  co_absent : ∀ k, k ≠ NULL → ht_get_node ht k = None →
    occurrences cmp k seen = 0
}.

Lemma count_ok_create cmp hash cells size :
  callbacks_ok cmp hash → 0 < size ≤ 2 ^ 52 →
  count_ok cmp cells (ht_create size cmp hash) [].
Proof.
  intros Hcb Hs.
  assert (ht_wf (ht_create size cmp hash)) as Hwf.
  { apply ht_create_wf; [|done]. split; [lia|].
    apply Z.le_lt_trans with (2 ^ 52); [lia | by vm_compute]. }
  split; try done; simpl; try lia.
  - rewrite ht_nodes_create. intros n Hn. by apply elem_of_nil in Hn.
  - rewrite ht_nodes_create. constructor.
Qed.

Lemma ht_insert_count_ok cmp cells ht seen key :
  count_ok cmp cells ht seen → key ≠ NULL →
  2 * (Z.of_nat (length seen) + 1) ≤ 2 ^ 52 →
  ∃ cells' ht',
    ht_insert_count cells ht key
    = Some (cells', ht', occurrences cmp key (seen ++ [key]))
    ∧ count_ok cmp cells' ht' (seen ++ [key]).
Proof.
  intros [Hwf Hload Hbound Hn Hc Hcells Hnd Habs] Hkey Hroom.
  pose proof (wf_cb _ Hwf) as Hcb. rewrite Hc in Hcb.
  assert (cmp key key = 0) as Hrefl by (by apply (cmp_refl _ _ Hcb)).
  unfold ht_insert_count.
  destruct (ht_get_node ht key) as [n0|] eqn:Hget.
  - pose proof (ht_get_node_elem _ _ _ Hget) as [Hin0 Hm0].
    rewrite Hc in Hm0. unfold matches in Hm0.
    destruct (Hcells n0 Hin0) as [Hv0 Hcell0]. rewrite Hcell0.
    pose proof (occurrences_le cmp (ht_key n0) seen) as Hocc.
    assert (2 ^ 52 < 2 ^ 64) as Hpow by (by vm_compute).
    rewrite wrap_small by lia.
    assert (occurrences cmp key (seen ++ [key])
            = occurrences cmp (ht_key n0) seen + 1) as Hret.
    { rewrite occurrences_snoc, decide_True by done.
      f_equal. apply (occurrences_equiv cmp (ht_hash ht)); [done|].
      by apply (cmp_sym _ _ Hcb). }
    eexists _, _. split; [by rewrite Hret|].
    split; try done.
    + rewrite length_app. simpl. lia.
    + intros n Hin. destruct (Hcells n Hin) as [Hv Hcell]. split; [done|].
      destruct (decide (ht_value n = ht_value n0)) as [E|E].
      * assert (n = n0) as -> by (by apply (NoDup_fmap_elem ht_value _ _ _ Hnd)).
        rewrite lookup_insert_eq. f_equal.
        rewrite occurrences_snoc, decide_True; [done|].
        by apply (cmp_sym _ _ Hcb).
      * rewrite lookup_insert_ne by done. rewrite Hcell. f_equal.
        rewrite occurrences_snoc, decide_False; [lia|].
        intros Hx. apply E. f_equal.
        assert (ht_get_node ht key = Some n) as Hget'.
        { apply ht_get_node_iff; [done..|]. split; [done|].
          unfold matches. rewrite Hc. by apply (cmp_sym _ _ Hcb). }
        congruence.
    + intros k Hk Hnone. rewrite occurrences_snoc, (Habs k Hk Hnone).
      rewrite decide_False; [done|]. intros Hx.
      apply (proj1 (ht_get_node_None_iff ht k Hwf Hk) Hnone n0 Hin0).
      unfold matches. rewrite Hc. by apply (cmp_trans _ _ Hcb _ key).
  - destruct (ht_insert_new ht key (malloc cells) Hwf Hload Hbound Hkey Hget)
      as (Hwf' & Hload' & Hv' & Hs' & Hc' & _ & Hn').
    assert (occurrences cmp key seen = 0) as Hzero by (by apply Habs).
    assert (∀ n, n ∈ ht_nodes ht → cmp key (ht_key n) ≠ 0) as Hother.
    { intros n Hin Hx.
      apply (proj1 (ht_get_node_None_iff ht key Hwf Hkey) Hget n Hin).
      unfold matches. rewrite Hc. by apply (cmp_sym _ _ Hcb). }
    eexists _, _. split.
    { by rewrite occurrences_snoc, Hzero, decide_True. }
    split; try done.
    + rewrite Hs'. destruct (Z.eqb_spec (ht_n_values ht + 1) (ht_size ht)); lia.
    + rewrite length_app. simpl. lia.
    + congruence.
    + intros n Hin. rewrite Hn' in Hin.
      apply elem_of_cons in Hin as [->|Hin]; simpl.
      * split; [apply malloc_not_null|]. rewrite lookup_insert_eq. f_equal.
        by rewrite occurrences_snoc, Hzero, decide_True.
      * destruct (Hcells n Hin) as [Hv Hcell]. split; [done|].
        rewrite lookup_insert_ne.
        -- rewrite Hcell. f_equal. rewrite occurrences_snoc, decide_False; [lia|].
           by apply Hother.
        -- intros E. rewrite <- E, malloc_fresh in Hcell. done.
    + rewrite Hn', fmap_cons. apply NoDup_cons. split; [|done]. simpl.
      intros Hin. apply list_elem_of_fmap in Hin as (n & E & Hin).
      destruct (Hcells n Hin) as [_ Hcell].
      rewrite <- E, malloc_fresh in Hcell. done.
    + intros k Hk Hnone.
      destruct (decide (cmp key k = 0)) as [E|E].
      * destruct (ht_insert_lookup_same ht key (malloc cells) k)
          as (n & Hsome & _); try done; [by rewrite Hc | congruence].
      * rewrite occurrences_snoc, decide_False by done.
        rewrite Habs; [done | done |].
        rewrite <- Hnone. symmetry.
        apply ht_insert_lookup_other; try done. by rewrite Hc.
Qed.

Lemma ht_count_all_ok cmp keys : ∀ cells ht seen,
  count_ok cmp cells ht seen → Forall (λ k, k ≠ NULL) keys →
  2 * (Z.of_nat (length seen) + Z.of_nat (length keys)) ≤ 2 ^ 52 →
  ∃ cells' ht',
    ht_count_all cells ht keys = Some (cells', ht')
    ∧ count_ok cmp cells' ht' (seen ++ keys).
Proof.
  induction keys as [|key keys IH]; intros cells ht seen Hok Hkeys Hroom.
  { exists cells, ht. by rewrite app_nil_r. }
  inversion Hkeys as [|? ? Hkey Hkeys']; subst. simpl in Hroom.
  destruct (ht_insert_count_ok cmp cells ht seen key Hok Hkey)
    as (cells1 & ht1 & Hstep & Hok1); [lia|].
  destruct (IH cells1 ht1 (seen ++ [key]) Hok1 Hkeys')
    as (cells' & ht' & Hrun & Hok').
  { rewrite length_app. simpl. lia. }
  exists cells', ht'. simpl. rewrite Hstep.
  split; [done|]. by rewrite <- app_assoc in Hok'.
Qed.

Lemma ht_get_count_ok cmp cells ht seen k :
  count_ok cmp cells ht seen → k ≠ NULL →
  ht_get_count cells ht k = Some (occurrences cmp k seen).
Proof.
  intros [Hwf _ _ _ Hc Hcells _ Habs] Hk.
  pose proof (wf_cb _ Hwf) as Hcb. rewrite Hc in Hcb.
  unfold ht_get_count, ht_search.
  destruct (ht_get_node ht k) as [n|] eqn:Hget.
  - apply ht_get_node_elem in Hget as [Hin Hm].
    rewrite Hc in Hm. unfold matches in Hm.
    destruct (Hcells n Hin) as [Hv Hcell].
    destruct (Z.eqb_spec (ht_value n) NULL); [done|].
    rewrite Hcell. f_equal. by apply (occurrences_equiv cmp (ht_hash ht)).
  - simpl. by rewrite Habs.
Qed.

(** X8.  The counter table counts: after [ht_insert_count] on every key of
    a list, into a table just created, [ht_get_count] of any key returns
    the number of keys of the list that compare equal to it (0 for a key
    that did not occur), and one more [ht_insert_count] returns that
    number plus one.  Equal keys share the cell of the first of them. *)
Theorem ht_counter_counts cmp hash (size : Z) (cells : gmap Z Z)
    (keys : list ptr) (k : ptr) :
  callbacks_ok cmp hash → 0 < size ≤ 2 ^ 52 →
  2 * (Z.of_nat (length keys) + 1) ≤ 2 ^ 52 →
  Forall (λ k, k ≠ NULL) keys → k ≠ NULL →
  ∃ cells1 ht1 cells2 ht2,
    ht_count_all cells (ht_create size cmp hash) keys = Some (cells1, ht1)
    ∧ ht_get_count cells1 ht1 k = Some (occurrences cmp k keys)
    ∧ ht_insert_count cells1 ht1 k
      = Some (cells2, ht2, occurrences cmp k keys + 1).
Proof.
  intros Hcb Hs Hroom Hkeys Hk.
  destruct (ht_count_all_ok cmp keys cells (ht_create size cmp hash) [])
    as (cells1 & ht1 & Hrun & Hok); [by apply (count_ok_create cmp hash) | done
                                     | simpl; lia |].
  simpl in Hok.
  destruct (ht_insert_count_ok cmp cells1 ht1 keys k Hok Hk)
    as (cells2 & ht2 & Hstep & _); [lia|].
  exists cells1, ht1, cells2, ht2. split_and!; [done | |].
  - by apply (ht_get_count_ok cmp _ _ keys).
  - rewrite Hstep. do 2 f_equal. rewrite occurrences_snoc, decide_True; [done|].
    by apply (cmp_refl _ _ Hcb).
Qed.

Lemma ht_counter_counts_witness :
  ∃ cells1 ht1 cells2 ht2,
    ht_count_all ∅ (ht_create 2 addr_compare addr_hash) [5; 7; 5; 9; 5]
    = Some (cells1, ht1)
    ∧ ht_get_count cells1 ht1 5 = Some 3
    ∧ ht_insert_count cells1 ht1 5 = Some (cells2, ht2, 4).
Proof.
  destruct (ht_counter_counts addr_compare addr_hash 2 ∅ [5; 7; 5; 9; 5] 5)
    as (cells1 & ht1 & cells2 & ht2 & H1 & H2 & H3).
  - apply addr_callbacks_ok.
  - by vm_compute.
  - by vm_compute.
  - repeat constructor; by vm_compute.
  - by vm_compute.
  - exists cells1, ht1, cells2, ht2. split_and!; [exact H1 | exact H2 | exact H3].
Defined.

(** * Further properties of the doubly linked list *)

(** ** The two ends *)

Lemma DLL_insert_head_repr m dll l data :
  dll_repr m dll l →
  ∃ m' dll',
    DLL_insert_head m dll data = Some (m', dll')
    ∧ dll_repr m' dll' ((malloc m, data) :: l)
    ∧ (∀ a, a ≠ malloc m → a ∉ l.*1 → m' !! a = m !! a).
Proof.
  intros [Hseg Hnd]. unfold DLL_insert_head.
  pose proof (malloc_not_null m) as Hn. pose proof (malloc_fresh m) as Hf.
  set (node := malloc m) in *.
  assert (node ∉ l.*1) as Hnode.
  { intros Hin. destruct (dll_seg_dom _ _ _ _ _ _ _ Hseg Hin) as [[? E] _].
    congruence. }
  assert (NoDup ((node, data) :: l).*1) as Hnd'.
  { rewrite fmap_cons. by apply NoDup_cons. }
  destruct l as [|[a da] l].
  - destruct Hseg as [Hh Ht]. rewrite Hh, Ht. simpl.
    eexists _, _. split; [done|]. split.
    + split; [|done]. simpl. split_and!; [done..|].
      exists NULL. by rewrite lookup_insert_eq.
    + intros b Hb _. by rewrite lookup_insert_ne.
  - pose proof Hseg as Hseg0. simpl in Hseg.
    destruct Hseg as (Hh & Ha & nx & Hm & Hseg).
    apply dll_seg_last in Hseg0 as [_ Hlast].
    destruct Hlast as [Htl _]; [done|].
    rewrite Hh. destruct (Z.eqb_spec a NULL) as [|_]; [done|].
    destruct (Z.eqb_spec (dll_tail dll) NULL) as [|_]; [done|].
    assert (a ≠ node) as Hanode by (intros ->; congruence).
    unfold dll_write. rewrite lookup_insert_ne by done. rewrite Hm. simpl.
    eexists _, _. split; [done|]. split.
    + split; [|done]. simpl. split_and!; [done..|]. exists a. split.
      * rewrite lookup_insert_ne by done. by rewrite lookup_insert_eq.
      * split_and!; [done..|]. exists nx. split.
        -- by rewrite lookup_insert_eq.
        -- eapply dll_seg_frame; [|done]. intros b Hb.
           simpl in Hnd. apply NoDup_cons in Hnd as [Hal _].
           rewrite !lookup_insert_ne; [done|..].
           ++ intros ->. apply Hnode. right. done.
           ++ by intros ->.
    + intros b Hb Hbl. simpl in Hbl. apply not_elem_of_cons in Hbl as [Hba _].
      by rewrite !lookup_insert_ne.
Qed.

(** [DLL_pop] on a list with a first node: what it returns and what it
    does to the memory. *)
Lemma DLL_pop_spec m dll a d l :
  dll_repr m dll ((a, d) :: l) →
  ∃ m' dll', DLL_pop m dll = Some (m', dll', d) ∧ dll_repr m' dll' l
             ∧ m' !! a = None
             ∧ (∀ b, b ≠ a → b ∉ l.*1 → m' !! b = m !! b).
Proof.
  intros [Hseg Hnd]. simpl in Hseg, Hnd.
  destruct Hseg as (Hh & Ha & nx & Hm & Hseg).
  apply NoDup_cons in Hnd as [Hal Hnd].
  unfold DLL_pop. rewrite Hh.
  destruct (Z.eqb_spec a NULL) as [|_]; [done|]. rewrite Hm. simpl.
  destruct l as [|[n0 dn] l].
  - simpl in Hseg. destruct Hseg as [-> Ht]. simpl. rewrite Hm. simpl.
    rewrite Ht, Z.eqb_refl. eexists _, _. split; [done|].
    split_and!; [by apply dll_repr_nil | by rewrite lookup_delete_eq |].
    intros b Hb _. by rewrite lookup_delete_ne.
  - pose proof Hseg as Hseg'. simpl in Hseg.
    destruct Hseg as (-> & Hn0 & nx2 & Hmn & Hseg).
    destruct (Z.eqb_spec n0 NULL) as [|_]; [done|].
    unfold dll_write. rewrite Hmn. simpl.
    assert (n0 ≠ a) as Hn0a. { intros ->. apply Hal. by left. }
    rewrite lookup_insert_ne by done. rewrite Hm. simpl.
    apply dll_seg_last in Hseg' as [_ Hlast].
    destruct Hlast as [_ Htl]; [done|].
    destruct (Z.eqb_spec a (dll_tail dll)) as [E|_].
    { rewrite <- E in Htl. done. }
    eexists _, _. split; [done|]. split_and!.
    + split; [|done]. apply dll_seg_delete; [done|].
      apply (dll_seg_set_prev _ a NULL); try done.
      simpl. split_and!; [done..|]. by exists nx2.
    + by rewrite lookup_delete_eq.
    + intros b Hb Hbl. simpl in Hbl. apply not_elem_of_cons in Hbl as [Hbn _].
      rewrite lookup_delete_ne by done. by rewrite lookup_insert_ne.
Qed.

(** [DLL_dequeue] on a list with a last node. *)
Lemma DLL_dequeue_spec m dll l a d :
  dll_repr m dll (l ++ [(a, d)]) →
  ∃ m' dll', DLL_dequeue m dll = Some (m', dll', d) ∧ dll_repr m' dll' l
             ∧ m' !! a = None
             ∧ (∀ b, b ≠ a → b ∉ l.*1 → m' !! b = m !! b).
Proof.
  intros [Hseg Hnd]. pose proof Hseg as Hseg0.
  apply dll_seg_snoc in Hseg as (Ht & Ha & pl & Hseg & Hm).
  rewrite fmap_app in Hnd. apply NoDup_app in Hnd as (Hnd & Hdisj & _).
  assert (a ∉ l.*1) as Hal. { intros Hin. apply (Hdisj a Hin). by left. }
  unfold DLL_dequeue. rewrite Ht.
  destruct (Z.eqb_spec a NULL) as [|_]; [done|]. rewrite Hm. simpl.
  destruct l as [|x l _] using rev_ind.
  - simpl in Hseg. destruct Hseg as [Hh ->]. simpl. rewrite Hm. simpl.
    rewrite <- Hh, Z.eqb_refl. eexists _, _. split; [done|].
    split_and!; [by apply dll_repr_nil | by rewrite lookup_delete_eq |].
    intros b Hb _. by rewrite lookup_delete_ne.
  - destruct x as [p dp]. pose proof Hseg as Hseg'.
    apply dll_seg_snoc in Hseg as (-> & Hp & pl2 & Hseg & Hmp).
    destruct (Z.eqb_spec p NULL) as [|_]; [done|].
    unfold dll_write. rewrite Hmp. simpl.
    assert (p ≠ a) as Hpa.
    { intros ->. apply Hal. rewrite fmap_app. apply elem_of_app. right. by left. }
    rewrite lookup_insert_ne by done. rewrite Hm. simpl.
    assert (dll_head dll ≠ a) as Hhead.
    { destruct (l ++ [(p, dp)]) as [|[h dh] l'] eqn:El.
      { by destruct l. }
      simpl in Hseg'. destruct Hseg' as (-> & _). intros ->.
      apply Hal. by left. }
    destruct (Z.eqb_spec a (dll_head dll)) as [E|_]; [by destruct Hhead|].
    eexists _, _. split; [done|]. split_and!.
    + split; [|done]. apply dll_seg_delete; [done|].
      apply (dll_seg_set_next _ _ _ _ _ a NULL); try done.
      by destruct l.
    + by rewrite lookup_delete_eq.
    + intros b Hb Hbl. rewrite fmap_app in Hbl.
      apply not_elem_of_app in Hbl as [_ Hbp].
      rewrite lookup_delete_ne by done. rewrite lookup_insert_ne; [done|].
      intros ->. apply Hbp. by left.
Qed.

(** A represented list fixes its nodes: two memories that hold the same
    list hold the same nodes at its addresses. *)
Lemma dll_seg_determ m m' prev cur cur' l last last' nxt :
  dll_seg m prev cur l last nxt → dll_seg m' prev cur' l last' nxt →
  cur = cur' ∧ last = last' ∧ ∀ a, a ∈ l.*1 → m !! a = m' !! a.
Proof.
  revert prev cur cur'. induction l as [|[a d] l IH]; intros prev cur cur'.
  - simpl. intros [-> ->] [-> ->]. split_and!; [done..|].
    intros a Ha. by apply elem_of_nil in Ha.
  - simpl. intros (-> & Ha & nx & Hm & Hseg) (-> & _ & nx' & Hm' & Hseg').
    destruct (IH _ _ _ Hseg Hseg') as (-> & -> & Hl).
    split_and!; [done..|]. intros b [->|Hb]%elem_of_cons; [congruence|].
    by apply Hl.
Qed.

Lemma dll_repr_determ m m' dll dll' l :
  dll_repr m dll l → dll_repr m' dll' l →
  (∀ a, a ∉ l.*1 → m !! a = m' !! a) → m = m' ∧ dll = dll'.
Proof.
  intros [Hseg _] [Hseg' _] Hout.
  destruct (dll_seg_determ _ _ _ _ _ _ _ _ _ Hseg Hseg') as (Hh & Ht & Hl).
  split.
  - apply map_eq. intros a. destruct (decide (a ∈ l.*1)); [by apply Hl|].
    by apply Hout.
  - destruct dll, dll'. simpl in *. congruence.
Qed.

(** X9.  The list is a deque: on a list [l], [DLL_insert_head] puts the
    value in front and [DLL_insert_tail] at the back, each in a node just
    allocated, and the walk from the head reads the values in that
    order. *)
Theorem DLL_insert_order (m : gmap Z DLL_node) (dll : DLL_t)
    (l : list (ptr * ptr)) (data : ptr) :
  dll_repr m dll l →
  ∃ m1 dll1 m2 dll2,
    DLL_insert_head m dll data = Some (m1, dll1)
    ∧ dll_repr m1 dll1 ((malloc m, data) :: l)
    ∧ DLL_elements m1 dll1 = Some (data :: l.*2)
    ∧ DLL_insert_tail m dll data = Some (m2, dll2)
    ∧ dll_repr m2 dll2 (l ++ [(malloc m, data)])
    ∧ DLL_elements m2 dll2 = Some (l.*2 ++ [data]).
Proof.
  intros Hrepr.
  destruct (DLL_insert_head_repr m dll l data Hrepr)
    as (m1 & dll1 & Hins1 & Hrepr1 & _).
  destruct (DLL_insert_tail_repr m dll l data Hrepr)
    as (m2 & dll2 & Hins2 & Hrepr2 & _).
  exists m1, dll1, m2, dll2. split_and!; try done.
  - by rewrite (dll_repr_elements _ _ _ Hrepr1).
  - rewrite (dll_repr_elements _ _ _ Hrepr2). by rewrite fmap_app.
Qed.

Lemma DLL_insert_order_witness :
  ∃ m0 dll0 m1 dll1 m2 dll2,
    DLL_insert_tail ∅ DLL_create 10 = Some (m0, dll0)
    ∧ DLL_insert_head m0 dll0 20 = Some (m1, dll1)
    ∧ DLL_elements m1 dll1 = Some [20; 10]
    ∧ DLL_insert_tail m0 dll0 20 = Some (m2, dll2)
    ∧ DLL_elements m2 dll2 = Some [10; 20].
Proof.
  destruct (DLL_insert_tail_repr ∅ DLL_create [] 10)
    as (m0 & dll0 & H0 & Hrepr0 & _); [by apply dll_repr_nil|].
  destruct (DLL_insert_order m0 dll0 _ 20 Hrepr0)
    as (m1 & dll1 & m2 & dll2 & H1 & _ & H2 & H3 & _ & H4).
  exists m0, dll0, m1, dll1, m2, dll2. split_and!; done.
Defined.

(** X10.  The empty list: [DLL_is_empty] holds exactly of the list without
    nodes, and there [DLL_pop] and [DLL_dequeue] return [NULL] and change
    nothing. *)
Theorem DLL_empty_list (m : gmap Z DLL_node) (dll : DLL_t)
    (l : list (ptr * ptr)) :
  dll_repr m dll l →
  (DLL_is_empty dll = true ↔ l = [])
  ∧ (l = [] → DLL_pop m dll = Some (m, dll, NULL)
              ∧ DLL_dequeue m dll = Some (m, dll, NULL)).
Proof.
  intros Hrepr. split.
  - unfold DLL_is_empty. split.
    + intros [Hh _]%andb_prop. apply Z.eqb_eq in Hh.
      destruct l as [|[a d] l]; [done|]. destruct Hrepr as [Hseg _].
      simpl in Hseg. destruct Hseg as (E & Ha & _). congruence.
    + intros ->. apply dll_repr_nil in Hrepr as [-> ->]. done.
  - intros ->. apply dll_repr_nil in Hrepr as [Hh Ht].
    unfold DLL_pop, DLL_dequeue. by rewrite Hh, Ht.
Qed.

Lemma DLL_empty_list_witness :
  DLL_is_empty DLL_create = true
  ∧ DLL_pop ∅ DLL_create = Some (∅, DLL_create, NULL).
Proof.
  destruct (DLL_empty_list ∅ DLL_create []) as [H1 H2];
    [by apply dll_repr_nil|].
  split; [by apply H1 | by apply H2].
Defined.

(** X11.  Taking back what was just put in restores the list and the
    memory exactly: [DLL_pop] after [DLL_insert_head], and [DLL_dequeue]
    after [DLL_insert_tail], return the value inserted and leave the
    memory and the list structure they started from. *)
Theorem DLL_insert_remove_round_trip (m : gmap Z DLL_node) (dll : DLL_t)
    (l : list (ptr * ptr)) (data : ptr) :
  dll_repr m dll l →
  (DLL_insert_head m dll data ≫= λ '(m1, dll1), DLL_pop m1 dll1)
  = Some (m, dll, data)
  ∧ (DLL_insert_tail m dll data ≫= λ '(m1, dll1), DLL_dequeue m1 dll1)
    = Some (m, dll, data).
Proof.
  intros Hrepr. pose proof (malloc_fresh m) as Hfresh. split.
  - destruct (DLL_insert_head_repr m dll l data Hrepr)
      as (m1 & dll1 & Hins & Hrepr1 & Hframe1).
    destruct (DLL_pop_spec _ _ _ _ _ Hrepr1)
      as (m2 & dll2 & Hpop & Hrepr2 & Hnone & Hframe2).
    rewrite Hins. simpl. rewrite Hpop.
    destruct (dll_repr_determ _ _ _ _ _ Hrepr2 Hrepr) as [-> ->]; [|done].
    intros a Ha. destruct (decide (a = malloc m)) as [->|Hne]; [congruence|].
    rewrite Hframe2 by done. by apply Hframe1.
  - destruct (DLL_insert_tail_repr m dll l data Hrepr)
      as (m1 & dll1 & Hins & Hrepr1 & _ & Hframe1 & _).
    destruct (DLL_dequeue_spec _ _ _ _ _ Hrepr1)
      as (m2 & dll2 & Hpop & Hrepr2 & Hnone & Hframe2).
    rewrite Hins. simpl. rewrite Hpop.
    destruct (dll_repr_determ _ _ _ _ _ Hrepr2 Hrepr) as [-> ->]; [|done].
    intros a Ha. destruct (decide (a = malloc m)) as [->|Hne]; [congruence|].
    rewrite Hframe2 by done. by apply Hframe1.
Qed.

Lemma DLL_insert_remove_round_trip_witness :
  ∃ m0 dll0,
    DLL_insert_tail ∅ DLL_create 10 = Some (m0, dll0)
    ∧ (DLL_insert_head m0 dll0 20 ≫= λ '(m1, dll1), DLL_pop m1 dll1)
      = Some (m0, dll0, 20).
Proof.
  destruct (DLL_insert_tail_repr ∅ DLL_create [] 10)
    as (m0 & dll0 & H0 & Hrepr0 & _); [by apply dll_repr_nil|].
  exists m0, dll0. split; [done|].
  by destruct (DLL_insert_remove_round_trip m0 dll0 _ 20 Hrepr0) as [H1 _].
Defined.

(** ** Queue and stack discipline *)

(** A client that inserts the values [ds] one after the other, and one
    that removes [n] values and collects them. *)
Fixpoint DLL_fill
    (insert : gmap Z DLL_node → DLL_t → ptr → option (gmap Z DLL_node * DLL_t))
    (m : gmap Z DLL_node) (dll : DLL_t) (ds : list ptr)
  : option (gmap Z DLL_node * DLL_t) :=
  match ds with
  | [] => Some (m, dll)
  | d :: ds' => '(m1, dll1) ← insert m dll d; DLL_fill insert m1 dll1 ds'
  end.

Fixpoint DLL_drain
    (remove : gmap Z DLL_node → DLL_t → option (gmap Z DLL_node * DLL_t * ptr))
    (n : nat) (m : gmap Z DLL_node) (dll : DLL_t)
  : option (gmap Z DLL_node * DLL_t * list ptr) :=
  match n with
  | O => Some (m, dll, [])
  | S n' =>
      '(m1, dll1, d) ← remove m dll;
      '(m2, dll2, ds) ← DLL_drain remove n' m1 dll1;
      Some (m2, dll2, d :: ds)
  end.

Lemma DLL_fill_tail ds : ∀ m dll l,
  dll_repr m dll l →
  ∃ m' dll' l', DLL_fill DLL_insert_tail m dll ds = Some (m', dll')
                ∧ dll_repr m' dll' (l ++ l') ∧ l'.*2 = ds.
Proof.
  induction ds as [|d ds IH]; intros m dll l Hrepr.
  - exists m, dll, []. by rewrite app_nil_r.
  - destruct (DLL_insert_tail_repr m dll l d Hrepr)
      as (m1 & dll1 & Hins & Hrepr1 & _).
    destruct (IH _ _ _ Hrepr1) as (m' & dll' & l' & Hfill & Hrepr' & Hl').
    exists m', dll', ((malloc m, d) :: l'). csimpl. rewrite Hins. csimpl.
    split_and!; [done | | by rewrite Hl'].
    by rewrite <- app_assoc in Hrepr'.
Qed.

Lemma DLL_fill_head ds : ∀ m dll l,
  dll_repr m dll l →
  ∃ m' dll' l', DLL_fill DLL_insert_head m dll ds = Some (m', dll')
                ∧ dll_repr m' dll' (l' ++ l) ∧ l'.*2 = rev ds.
Proof.
  induction ds as [|d ds IH]; intros m dll l Hrepr.
  - by exists m, dll, [].
  - destruct (DLL_insert_head_repr m dll l d Hrepr)
      as (m1 & dll1 & Hins & Hrepr1 & _).
    destruct (IH _ _ _ Hrepr1) as (m' & dll' & l' & Hfill & Hrepr' & Hl').
    exists m', dll', (l' ++ [(malloc m, d)]). csimpl. rewrite Hins. csimpl.
    split_and!; [done | | by rewrite fmap_app, Hl'].
    by rewrite <- app_assoc.
Qed.

Lemma DLL_drain_pop l : ∀ m dll,
  dll_repr m dll l →
  ∃ m' dll', DLL_drain DLL_pop (length l) m dll = Some (m', dll', l.*2)
             ∧ dll_repr m' dll' [].
Proof.
  induction l as [|[a d] l IH]; intros m dll Hrepr.
  - by exists m, dll.
  - destruct (DLL_pop_spec _ _ _ _ _ Hrepr) as (m1 & dll1 & Hpop & Hrepr1 & _).
    destruct (IH _ _ Hrepr1) as (m' & dll' & Hdrain & Hrepr').
    exists m', dll'. simpl. rewrite Hpop. simpl. rewrite Hdrain. done.
Qed.

Lemma DLL_drain_dequeue l : ∀ m dll,
  dll_repr m dll l →
  ∃ m' dll', DLL_drain DLL_dequeue (length l) m dll
             = Some (m', dll', rev l.*2)
             ∧ dll_repr m' dll' [].
Proof.
  induction l as [|[a d] l IH] using rev_ind; intros m dll Hrepr.
  - by exists m, dll.
  - destruct (DLL_dequeue_spec _ _ _ _ _ Hrepr)
      as (m1 & dll1 & Hpop & Hrepr1 & _).
    destruct (IH _ _ Hrepr1) as (m' & dll' & Hdrain & Hrepr').
    exists m', dll'. rewrite length_app, Nat.add_comm. simpl.
    rewrite Hpop. simpl. rewrite Hdrain. simpl.
    by rewrite fmap_app, rev_app_distr.
Qed.

(** X12.  Starting from the empty list, values inserted at the tail come
    out of [DLL_pop] in the order they went in, and values inserted at the
    head come out of [DLL_dequeue] in that order too (a queue either way);
    values inserted at the head come out of [DLL_pop] in reverse (a
    stack).  After as many removals as insertions the list is empty. *)
Theorem DLL_queue_and_stack_order (m : gmap Z DLL_node) (ds : list ptr) :
  ∃ m1 dll1 m2 dll2,
    DLL_fill DLL_insert_tail m DLL_create ds = Some (m1, dll1)
    ∧ DLL_fill DLL_insert_head m DLL_create ds = Some (m2, dll2)
    ∧ (∃ m' dll', DLL_drain DLL_pop (length ds) m1 dll1 = Some (m', dll', ds)
                  ∧ DLL_is_empty dll' = true)
    ∧ (∃ m' dll', DLL_drain DLL_dequeue (length ds) m2 dll2
                  = Some (m', dll', ds)
                  ∧ DLL_is_empty dll' = true)
    ∧ (∃ m' dll', DLL_drain DLL_pop (length ds) m2 dll2
                  = Some (m', dll', rev ds)
                  ∧ DLL_is_empty dll' = true).
Proof.
  assert (dll_repr m DLL_create []) as Hrepr0 by (by apply dll_repr_nil).
  assert (∀ m' dll', dll_repr m' dll' [] → DLL_is_empty dll' = true) as Hempty.
  { intros m' dll' [Hh Ht]%dll_repr_nil. unfold DLL_is_empty.
    by rewrite Hh, Ht. }
  destruct (DLL_fill_tail ds m DLL_create [] Hrepr0)
    as (m1 & dll1 & l1 & Hfill1 & Hrepr1 & Hl1).
  destruct (DLL_fill_head ds m DLL_create [] Hrepr0)
    as (m2 & dll2 & l2 & Hfill2 & Hrepr2 & Hl2).
  simpl in Hrepr1. rewrite app_nil_r in Hrepr2.
  assert (length l1 = length ds) as Hlen1.
  { by rewrite <- Hl1, length_fmap. }
  assert (length l2 = length ds) as Hlen2.
  { by rewrite <- (length_rev ds), <- Hl2, length_fmap. }
  exists m1, dll1, m2, dll2. split_and!; [done..| | |].
  - destruct (DLL_drain_pop l1 m1 dll1 Hrepr1) as (m' & dll' & Hd & Hr).
    exists m', dll'. rewrite <- Hlen1, <- Hl1. eauto.
  - destruct (DLL_drain_dequeue l2 m2 dll2 Hrepr2) as (m' & dll' & Hd & Hr).
    exists m', dll'. rewrite <- Hlen2. rewrite Hl2, rev_involutive in Hd. eauto.
  - destruct (DLL_drain_pop l2 m2 dll2 Hrepr2) as (m' & dll' & Hd & Hr).
    exists m', dll'. rewrite <- Hlen2, <- Hl2. eauto.
Qed.

(** ** [DLL_clean] *)

Lemma DLL_clean_loop_spec free_data fuel : ∀ m dll l,
  dll_repr m dll l → (length l ≤ fuel)%nat →
  ∃ m', DLL_clean_loop fuel m dll free_data
        = Some (m', concat (call_if free_data <$> l.*2))
        ∧ ∀ a, m' !! a = if decide (a ∈ l.*1) then None else m !! a.
Proof.
  induction fuel as [|fuel IH]; intros m dll l Hrepr Hlen.
  - destruct l; [|simpl in Hlen; lia].
    apply dll_repr_nil in Hrepr as [Hh _].
    exists m. split; [simpl; by rewrite Hh|].
    intros a. rewrite decide_False; [done|]. apply not_elem_of_nil.
  - destruct l as [|[a d] l].
    + apply dll_repr_nil in Hrepr as [Hh _].
      exists m. split; [simpl; by rewrite Hh|].
      intros a. rewrite decide_False; [done|]. apply not_elem_of_nil.
    + destruct (DLL_pop_spec _ _ _ _ _ Hrepr)
        as (m1 & dll1 & Hpop & Hrepr1 & Hnone & Hframe).
      destruct (IH m1 dll1 l Hrepr1) as (m' & Hloop & Hm');
        [simpl in Hlen; lia|].
      destruct Hrepr as [Hseg Hnd]. simpl in Hseg.
      destruct Hseg as (Hh & Ha & _).
      simpl in Hnd. apply NoDup_cons in Hnd as [Hal _].
      exists m'. split.
      * simpl. rewrite Hh. destruct (Z.eqb_spec a NULL) as [|_]; [done|].
        rewrite Hpop. simpl. rewrite Hloop. done.
      * intros b. rewrite Hm'. rewrite fmap_cons. cbn [fst].
        destruct (decide (b ∈ l.*1)) as [Hb|Hb].
        -- rewrite decide_True; [done | by right].
        -- destruct (decide (b = a)) as [->|Hba].
           ++ rewrite decide_True; [done | by left].
           ++ rewrite decide_False; [by apply Hframe|].
              by intros [?|?]%elem_of_cons.
Qed.

(** X13.  [DLL_clean] drains the list whatever its length: it calls
    [free_data] exactly once on every value, head to tail (and calls
    nothing when [free_data] is [NULL]), frees every node of the list,
    and touches no other node of the memory. *)
Theorem DLL_clean_spec (m : gmap Z DLL_node) (dll : DLL_t)
    (l : list (ptr * ptr)) (free_data : ptr) :
  dll_repr m dll l →
  ∃ m' calls,
    DLL_clean m dll free_data = Some (m', calls)
    ∧ calls = (if free_data =? NULL then [] else Call free_data <$> l.*2)
    ∧ ∀ a, m' !! a = if decide (a ∈ l.*1) then None else m !! a.
Proof.
  intros Hrepr.
  destruct (DLL_clean_loop_spec free_data (size m) m dll l Hrepr)
    as (m' & Hloop & Hm'); [by eapply dll_repr_length|].
  exists m', (concat (call_if free_data <$> l.*2)). split_and!; [done | | done].
  destruct (Z.eqb_spec free_data NULL) as [->|Hne].
  - generalize (l.*2). intros ds. induction ds as [|d ds IH]; [done|].
    rewrite fmap_cons. cbn [concat]. by rewrite IH.
  - by apply concat_call_if.
Qed.

Lemma DLL_clean_spec_witness :
  ∃ m1 dll1 m',
    DLL_fill DLL_insert_tail ∅ DLL_create [10; 20] = Some (m1, dll1)
    ∧ DLL_clean m1 dll1 100 = Some (m', [Call 100 10; Call 100 20]).
Proof.
  destruct (DLL_fill_tail [10; 20] ∅ DLL_create [])
    as (m1 & dll1 & l & Hfill & Hrepr & Hl); [by apply dll_repr_nil|].
  simpl in Hrepr.
  destruct (DLL_clean_spec m1 dll1 l 100 Hrepr) as (m' & calls & Hc & -> & _).
  exists m1, dll1, m'. split; [done|]. by rewrite Hc, Hl.
Defined.

(** * Further properties of the keyed list *)

(** ** Order and index *)

Lemma dll_seg_lookup m prev cur l last nxt a d :
  dll_seg m prev cur l last nxt → (a, d) ∈ l →
  ∃ n, m !! a = Some n ∧ dll_data n = d.
Proof.
  revert prev cur. induction l as [|[b db] l IH]; intros prev cur; simpl.
  - by intros _ ?%elem_of_nil.
  - intros (-> & Hb & nx & Hm & Hseg) [[= -> ->]|Hin]%elem_of_cons.
    + by exists (DllNode db prev nx).
    + by eapply IH.
Qed.

Lemma DLL_HT_run_state free_data ops : ∀ m dll_ht entries,
  dh_ok m dll_ht entries →
  ht_size (dh_ht dll_ht) ≤ 2 ^ 52 →
  2 * (ht_n_values (dh_ht dll_ht) + Z.of_nat (length ops)) ≤ 2 ^ 52 →
  kl_valid (ht_compare (dh_ht dll_ht)) (entry_pair <$> entries) ops →
  ∃ m' dll_ht' entries' calls,
    DLL_HT_run free_data m dll_ht ops = Some (m', dll_ht', calls)
    ∧ dh_ok m' dll_ht' entries'
    ∧ ht_compare (dh_ht dll_ht') = ht_compare (dh_ht dll_ht)
    ∧ entry_pair <$> entries'
      = kl_entries (ht_compare (dh_ht dll_ht)) (entry_pair <$> entries) ops.
Proof.
  induction ops as [|op ops IH];
    intros m dll_ht entries Hok Hbound Hroom Hvalid.
  { by exists m, dll_ht, entries, []. }
  simpl in Hroom, Hvalid. destruct Hvalid as [Hop Hvalid].
  assert (0 ≤ ht_n_values (dh_ht dll_ht)) as Hn0.
  { rewrite (wf_count _ (dh_wf _ _ _ Hok)). lia. }
  destruct op as [key data | key].
  - pose proof (dh_contains _ _ _ key Hok Hop) as Hhas.
    destruct (ht_contains (dh_ht dll_ht) key) eqn:Hc.
    + simpl in Hvalid. rewrite <- Hhas in Hvalid.
      destruct (IH m dll_ht entries) as (m' & dh' & entries' & calls & Hrun & H);
        try done; try lia.
      exists m', dh', entries', calls. simpl.
      rewrite (DLL_HT_insert_present _ _ _ _ Hc). simpl. rewrite Hrun. simpl.
      by rewrite <- Hhas.
    + destruct (DLL_HT_insert_new m dll_ht entries key data Hok Hbound Hop Hc)
        as (m1 & dh1 & Hins & Hok1 & Hc1 & Hv1 & Hs1).
      simpl in Hvalid. rewrite <- Hhas in Hvalid.
      destruct (IH m1 dh1 (entries ++ [KlEntry key (malloc m) data]))
        as (m' & dh' & entries' & calls & Hrun & Hok' & Hcmp' & Hent);
        try done; try lia.
      { rewrite Hc1, fmap_app. done. }
      exists m', dh', entries', calls. simpl. rewrite Hins. simpl.
      rewrite Hrun. simpl. rewrite <- Hhas.
      rewrite Hc1, fmap_app in Hent. simpl in Hent.
      split_and!; try done. congruence.
  - destruct Hop as [Hk Hhas].
    rewrite <- (dh_contains _ _ _ key Hok Hk) in Hhas.
    destruct (DLL_HT_remove_present m dll_ht entries key free_data Hok Hk Hhas)
      as (e1 & e & e2 & m1 & dh1 & -> & Hcmp & Hne & Hrm & Hok1 & Hc1 & Hv1 & Hs1).
    simpl in Hvalid. rewrite (kl_remove_model _ _ _ _ _ Hcmp Hne) in Hvalid.
    destruct (IH m1 dh1 (e1 ++ e2))
      as (m' & dh' & entries' & calls & Hrun & Hok' & Hcmp' & Hent);
      try done; try lia.
    { by rewrite Hc1. }
    exists m', dh', entries'. eexists. simpl. rewrite Hrm. simpl.
    rewrite Hrun. simpl. rewrite (kl_remove_model _ _ _ _ _ Hcmp Hne).
    rewrite Hc1 in Hent. split_and!; try done. congruence.
Qed.

(** X14.  The keyed list keeps insertion order and a faithful index: after
    any run of inserts and of removals of keys it holds, the walk of the
    list reads the values of the surviving entries in the order their
    keys were first inserted (an insert under a key the list holds adds
    nothing), the index holds exactly the surviving keys, and it maps
    each of them to the list node that carries its value. *)
Theorem DLL_HT_order_and_index cmp hash (m : gmap Z DLL_node)
    (ops : list kl_op) (free_data : ptr) :
  callbacks_ok cmp hash → kl_valid cmp [] ops →
  2 * Z.of_nat (length ops) ≤ 2 ^ 52 →
  ∃ m' dll_ht' calls,
    DLL_HT_run free_data m (DLL_HT_create cmp hash) ops
    = Some (m', dll_ht', calls)
    ∧ DLL_elements m' (dh_list dll_ht') = Some (kl_entries cmp [] ops).*2
    ∧ (∀ k, k ≠ NULL →
            ht_contains (dh_ht dll_ht') k
            = kl_has cmp (kl_entries cmp [] ops) k)
    ∧ (∀ k d, (k, d) ∈ kl_entries cmp [] ops →
              ∃ n, m' !! ht_search (dh_ht dll_ht') k = Some n
                   ∧ dll_data n = d).
Proof.
  intros Hcb Hvalid Hroom.
  assert (49 ≤ 2 ^ 52) as Hsz by (by vm_compute).
  destruct (DLL_HT_run_state free_data ops m (DLL_HT_create cmp hash) []
              (DLL_HT_create_ok m cmp hash Hcb) Hsz Hroom Hvalid)
    as (m' & dh' & entries & calls & Hrun & Hok & Hcmp & Hent).
  cbn [DLL_HT_create dh_ht ht_create ht_compare fmap list_fmap] in Hent, Hcmp.
  exists m', dh', calls. split_and!; [done | | |].
  - rewrite (dll_repr_elements _ _ _ (dh_repr _ _ _ Hok)).
    rewrite <- Hent. f_equal. rewrite <- !list_fmap_compose. done.
  - intros k Hk. rewrite (dh_contains _ _ _ k Hok Hk). by rewrite Hcmp, Hent.
  - intros k d Hin. rewrite <- Hent in Hin.
    apply list_elem_of_fmap in Hin as (e & [= -> ->] & He).
    assert (ke_key e ≠ NULL) as Hk.
    { assert (entry_index e ∈ filter live (ht_nodes (dh_ht dh'))) as Hlive.
      { rewrite (dh_index _ _ _ Hok). by apply list_elem_of_fmap_2. }
      by apply list_elem_of_filter in Hlive as [? _]. }
    assert (ht_get_node (dh_ht dh') (ke_key e) = Some (entry_index e)) as Hget.
    { apply (dh_lookup _ _ _ _ _ Hok Hk). exists e. split_and!; [done..|].
      rewrite Hcmp. by apply (cmp_refl _ _ Hcb). }
    unfold ht_search. rewrite Hget. simpl.
    destruct (dh_repr _ _ _ Hok) as [Hseg _].
    apply (dll_seg_lookup _ _ _ _ _ _ _ _ Hseg).
    by apply (list_elem_of_fmap_2 entry_cell).
Qed.

Lemma DLL_HT_order_and_index_witness :
  let ops := [KInsert 7 70; KInsert 8 80; KInsert 7 71; KInsert 9 90;
              KRemove 8; KInsert 8 81] in
  ∃ m' dll_ht' calls,
    DLL_HT_run 1002 ∅ (DLL_HT_create addr_compare addr_hash) ops
    = Some (m', dll_ht', calls)
    ∧ DLL_elements m' (dh_list dll_ht') = Some [70; 90; 81].
Proof.
  intros ops.
  destruct (DLL_HT_order_and_index addr_compare addr_hash ∅ ops 1002)
    as (m' & dh' & calls & Hrun & Hel & _).
  - apply addr_callbacks_ok.
  - simpl. unfold kl_has. repeat split; try (by vm_compute).
  - by vm_compute.
  - exists m', dh', calls. split; [done|]. rewrite Hel.
    vm_compute. reflexivity.
Defined.

(** X15.  [DLL_HT_remove] does not test what the index returns: for a key
    the list does not hold, [ht_search] gives [NULL] and the first thing
    the removal does is read [node->prev] through it. *)
Theorem DLL_HT_remove_absent_faults (m : gmap Z DLL_node) (dll_ht : DLL_HT_t)
    (key free_data : ptr) :
  ht_contains (dh_ht dll_ht) key = false → m !! NULL = None →
  ht_search (dh_ht dll_ht) key = NULL
  ∧ DLL_HT_remove m dll_ht key free_data = None.
Proof.
  intros Hc Hnull.
  assert (ht_search (dh_ht dll_ht) key = NULL) as Hs.
  { unfold ht_contains in Hc. unfold ht_search.
    by destruct (ht_get_node (dh_ht dll_ht) key). }
  split; [done|]. unfold DLL_HT_remove. rewrite Hs, Hnull. done.
Qed.

Lemma DLL_HT_remove_absent_faults_witness :
  DLL_HT_remove ∅ (DLL_HT_create addr_compare addr_hash) 7 1002 = None.
Proof.
  by destruct (DLL_HT_remove_absent_faults ∅
                 (DLL_HT_create addr_compare addr_hash) 7 1002) as [_ H].
Defined.

(** * Further properties of the resource allocation graph *)

(** ** The creation path *)

(** X16.  On a key the node table does not hold, [RAG_insert] and
    [RAG_hard_insert] do the same: they allocate a node that holds the
    key, [data] and [next] as supplied (whatever [next] is) and an unset
    [_prev], file it in the node table under the key, append the key to
    the end of the order list of its type and add one to that type's
    counter; the other list, the other counter and every node the graph
    had stay as they were. *)
Theorem RAG_insert_creates (m : memory) (rag : RAG_t)
    (lp lr : list (ptr * ptr)) (key data next : ptr) (k : ckey) :
  rag_ok m rag lp lr → ht_wf (rag_ht rag) → ht_size (rag_ht rag) ≤ 2 ^ 52 →
  key ≠ NULL → ht_get_node (rag_ht rag) key = None →
  mem_keys m !! key = Some k →
  let is_proc := bool_decide (ck_type k = PROCESS_T) in
  ∃ m' rag',
    RAG_insert m rag key data next = Some (m', rag', ADDED_NODE)
    ∧ RAG_hard_insert m rag key data next = Some (m', rag', ADDED_NODE)
    ∧ mem_nodes m !! ht_search (rag_ht rag') key = None
    ∧ mem_nodes m' !! ht_search (rag_ht rag') key
      = Some (RagNode key data NULL next)
    ∧ (∀ a, a ≠ ht_search (rag_ht rag') key →
            mem_nodes m' !! a = mem_nodes m !! a)
    ∧ DLL_elements (mem_dll m') (proc_key_list rag')
      = Some (lp.*2 ++ if is_proc then [key] else [])
    ∧ DLL_elements (mem_dll m') (res_key_list rag')
      = Some (lr.*2 ++ if is_proc then [] else [key])
    ∧ n_processes rag' = n_processes rag + (if is_proc then 1 else 0)
    ∧ n_resources rag' = n_resources rag + (if is_proc then 0 else 1).
Proof.
  intros Hok Hwf Hbound Hkey Hget Hk is_proc.
  destruct (RAG_add_node_ok m rag lp lr key data next k Hok Hbound Hget Hk)
    as (m' & rag' & a & Hadd & Hok' & _ & Hnodes & Hht).
  destruct (ht_insert_lookup_same (rag_ht rag) key
              (malloc (mem_nodes m)) key) as (hn & Hget' & Hv); try done.
  { apply (ok_load _ _ _ _ Hok). }
  { by apply (cmp_refl _ _ (wf_cb _ Hwf)). }
  rewrite <- Hht in Hget'.
  assert (ht_search (rag_ht rag') key = malloc (mem_nodes m)) as Hs.
  { unfold ht_search. by rewrite Hget'. }
  exists m', rag'. rewrite Hs, Hnodes.
  rewrite (dll_repr_elements _ _ _ (ok_proc _ _ _ _ Hok')).
  rewrite (dll_repr_elements _ _ _ (ok_res _ _ _ _ Hok')).
  rewrite (ok_np _ _ _ _ Hok'), (ok_nr _ _ _ _ Hok').
  rewrite (ok_np _ _ _ _ Hok), (ok_nr _ _ _ _ Hok).
  unfold is_proc. split_and!.
  - unfold RAG_insert. by rewrite Hget.
  - unfold RAG_hard_insert. by rewrite Hget.
  - apply malloc_fresh.
  - apply lookup_insert_eq.
  - intros b Hb. by rewrite lookup_insert_ne.
  - destruct (decide (ck_type k = PROCESS_T)) as [E|E].
    + rewrite bool_decide_eq_true_2 by done. by rewrite fmap_app.
    + rewrite bool_decide_eq_false_2 by done. by rewrite app_nil_r.
  - destruct (decide (ck_type k = PROCESS_T)) as [E|E].
    + rewrite bool_decide_eq_true_2 by done. by rewrite app_nil_r.
    + rewrite bool_decide_eq_false_2 by done. by rewrite fmap_app.
  - destruct (decide (ck_type k = PROCESS_T)) as [E|E].
    + rewrite bool_decide_eq_true_2 by done. rewrite length_app. simpl. lia.
    + rewrite bool_decide_eq_false_2 by done. lia.
  - destruct (decide (ck_type k = PROCESS_T)) as [E|E].
    + rewrite bool_decide_eq_true_2 by done. lia.
    + rewrite bool_decide_eq_false_2 by done. rewrite length_app. simpl. lia.
Qed.

Lemma RAG_insert_creates_witness :
  ∃ m' rag',
    RAG_insert example_memory (RAG_create addr_compare addr_hash) 2 20 77
    = Some (m', rag', ADDED_NODE)
    ∧ mem_nodes m' !! ht_search (rag_ht rag') 2 = Some (RagNode 2 20 NULL 77)
    ∧ DLL_elements (mem_dll m') (res_key_list rag') = Some [2]
    ∧ n_resources rag' = 1 ∧ n_processes rag' = 0.
Proof.
  destruct (RAG_insert_creates example_memory
              (RAG_create addr_compare addr_hash) [] [] 2 20 77
              (CKey RESOURCE_T 200))
    as (m' & rag' & H1 & _ & _ & H2 & _ & _ & H3 & H4 & H5).
  - apply RAG_create_ok.
  - apply ht_create_wf; [by vm_compute | apply addr_callbacks_ok].
  - by vm_compute.
  - by vm_compute.
  - vm_compute; reflexivity.
  - vm_compute; reflexivity.
  - exists m', rag'. split_and!; done.
Defined.

(** ** Repeating an insert *)

(** X17.  On a key the node table holds, a second [RAG_insert] with the
    same arguments changes nothing and returns [NO_UPDATE]; a second
    [RAG_hard_insert] changes nothing either, but returns the status of
    the first again: its status names the fields supplied, not the fields
    that changed. *)
Theorem RAG_insert_twice (m : memory) (rag : RAG_t) (key data next : ptr)
    (ht_node : ht_node) (n : RAG_node) :
  ht_get_node (rag_ht rag) key = Some ht_node →
  mem_nodes m !! ht_value ht_node = Some n →
  (∃ m1 status,
     RAG_insert m rag key data next = Some (m1, rag, status)
     ∧ RAG_insert m1 rag key data next = Some (m1, rag, NO_UPDATE))
  ∧ (∃ m1 status,
       RAG_hard_insert m rag key data next = Some (m1, rag, status)
       ∧ RAG_hard_insert m1 rag key data next = Some (m1, rag, status)).
Proof.
  intros Hget Hn. destruct n as [k0 d0 p0 nx0]. split.
  - rewrite (RAG_insert_present _ _ _ _ _ _ _ Hget Hn). cbv zeta.
    eexists _, _. split; [done|].
    erewrite RAG_insert_present; [|done|apply lookup_insert_eq].
    cbv zeta. unfold set_mem_nodes, updated_node.
    cbn [mem_nodes mem_dll mem_keys rn_key rn_data rn_prev rn_next].
    rewrite insert_insert_eq.
    destruct (next =? NULL) eqn:E1, (data =? NULL) eqn:E2,
             (nx0 =? NULL) eqn:E3, (d0 =? NULL) eqn:E4;
      cbn [negb andb]; rewrite ?E1, ?E2, ?E3, ?E4; done.
  - rewrite (RAG_hard_insert_present _ _ _ _ _ _ _ Hget Hn). cbv zeta.
    eexists _, _. split; [done|].
    erewrite RAG_hard_insert_present; [|done|apply lookup_insert_eq].
    cbv zeta. unfold set_mem_nodes, updated_node.
    cbn [mem_nodes mem_dll mem_keys rn_key rn_data rn_prev rn_next].
    rewrite insert_insert_eq.
    by destruct (negb (next =? NULL)), (negb (data =? NULL)).
Qed.

Lemma RAG_insert_twice_witness :
  ∃ m1 status,
    RAG_hard_insert example_graph.1 example_graph.2 1 55 NULL
    = Some (m1, example_graph.2, status)
    ∧ RAG_hard_insert m1 example_graph.2 1 55 NULL
      = Some (m1, example_graph.2, status)
    ∧ status = UPDATED_DATA.
Proof.
  destruct (RAG_insert_twice example_graph.1 example_graph.2 1 55 NULL
              (HtNode 1 2) (RagNode 1 11 NULL 1))
    as [_ (m1 & status & H1 & H2)]; [vm_compute; reflexivity..|].
  exists m1, status. split_and!; [done..|].
  vm_compute in H1. by injection H1 as _ <-.
Defined.

(** ** Conversion, again *)

Lemma RAG_convert_visits m rag procs ress :
  DLL_elements (mem_dll m) (proc_key_list rag) = Some procs →
  DLL_elements (mem_dll m) (res_key_list rag) = Some ress →
  RAG_convert_to_undirected m rag
  = nodes ← undirected_visits (rag_ht rag) (mem_nodes m) (procs ++ ress);
    Some (set_mem_nodes nodes m).
Proof.
  intros Hp Hr. unfold RAG_convert_to_undirected.
  unfold DLL_elements in Hp, Hr.
  rewrite (undirected_loop_walk _ _ _ _ _ _ Hp), undirected_visits_app.
  destruct (undirected_visits (rag_ht rag) (mem_nodes m) procs) as [nodes1|];
    simpl; [|done].
  by rewrite (undirected_loop_walk _ _ _ _ _ _ Hr).
Qed.

Lemma last_idem {A} (l : list A) (d : A) :
  List.last l (List.last l d) = List.last l d.
Proof. destruct l as [|a l]; [done|]. by rewrite !last_cons. Qed.

(** X18.  [RAG_convert_to_undirected] is idempotent: a second conversion
    of a converted graph succeeds and changes nothing. *)
Theorem RAG_convert_idempotent (m : memory) (rag : RAG_t)
    (procs ress : list ptr) :
  DLL_elements (mem_dll m) (proc_key_list rag) = Some procs →
  DLL_elements (mem_dll m) (res_key_list rag) = Some ress →
  Forall (edge_ok (mem_nodes m)) (ht_search (rag_ht rag) <$> (procs ++ ress)) →
  ∃ m', RAG_convert_to_undirected m rag = Some m'
        ∧ RAG_convert_to_undirected m' rag = Some m'.
Proof.
  intros Hp Hr Hok.
  destruct (undirected_visits_spec (rag_ht rag) (mem_nodes m) (procs ++ ress)
              (mem_nodes m)) as (cur1 & Hrun1 & Hup1 & Hprev1); [done..|].
  destruct (undirected_visits_spec (rag_ht rag) (mem_nodes m) (procs ++ ress)
              cur1) as (cur2 & Hrun2 & Hup2 & Hprev2); [done..|].
  exists (set_mem_nodes cur1 m). split.
  - rewrite (RAG_convert_visits _ _ _ _ Hp Hr), Hrun1. done.
  - rewrite (RAG_convert_visits (set_mem_nodes cur1 m) rag procs ress Hp Hr).
    cbn [set_mem_nodes mem_nodes]. rewrite Hrun2. simpl.
    assert (cur2 = cur1) as ->; [|done].
    apply map_eq. intros B.
    specialize (Hprev1 B). specialize (Hprev2 B).
    specialize (Hup1 B). specialize (Hup2 B).
    destruct (cur2 !! B) as [[k2 d2 p2 n2]|], (cur1 !! B) as [[k1 d1 p1 n1]|],
             (mem_nodes m !! B) as [[k0 d0 p0 n0]|];
      simpl in *; try done; unfold set_rn_prev in *; simpl in *;
      try congruence.
    injection Hprev1 as ->. injection Hprev2 as ->.
    rewrite last_idem. congruence.
Qed.

Lemma RAG_convert_idempotent_witness :
  ∃ m', RAG_convert_to_undirected example_graph.1 example_graph.2 = Some m'
        ∧ RAG_convert_to_undirected m' example_graph.2 = Some m'
        ∧ mem_nodes m' !! 1 = Some (RagNode 2 0 3 0).
Proof.
  destruct (RAG_convert_idempotent example_graph.1 example_graph.2
              [1; 3] [2]) as (m' & H1 & H2).
  - vm_compute; reflexivity.
  - vm_compute; reflexivity.
  - repeat constructor; eexists; (split; [vm_compute; reflexivity|]);
      first [left; vm_compute; reflexivity | right; eexists; vm_compute; reflexivity].
  - exists m'. split_and!; [done..|].
    vm_compute in H1. injection H1 as <-. vm_compute; reflexivity.
Defined.

(** ** [RAG_clean] *)

Lemma concat_call_if_null (l : list ptr) : concat (call_if NULL <$> l) = [].
Proof.
  induction l as [|d l IH]; [done|]. rewrite fmap_cons. cbn [concat].
  by rewrite IH.
Qed.

(** X19.  [RAG_clean] on a graph built by inserts: both order lists are
    drained without a call (their values are the keys, which the node
    table frees), every node of the two lists is freed, and the node
    table pass calls [free_keys] exactly once on every key of the graph
    and [free_values] exactly once on every graph node; the graph nodes
    themselves are left to [free_values]. *)
Theorem RAG_clean_spec (m : memory) (rag : RAG_t) (lp lr : list (ptr * ptr))
    (free_keys free_values : ptr) :
  rag_ok m rag lp lr →
  free_keys ≠ NULL → free_values ≠ NULL → free_keys ≠ free_values →
  ∃ m' calls,
    RAG_clean m rag free_keys free_values = Some (m', calls)
    ∧ call_arg <$> filter (λ c, call_fn c = free_keys) calls
      ≡ₚ lp.*2 ++ lr.*2
    ∧ call_arg <$> filter (λ c, call_fn c = free_values) calls
      = ht_value <$> ht_nodes (rag_ht rag)
    ∧ Z.of_nat (length calls) = 2 * (n_processes rag + n_resources rag)
    ∧ (∀ a, mem_dll m' !! a
            = if decide (a ∈ lp.*1 ++ lr.*1) then None else mem_dll m !! a)
    ∧ mem_nodes m' = mem_nodes m ∧ mem_keys m' = mem_keys m.
Proof.
  intros Hok Hfk Hfv Hne.
  pose proof Hok
    as [Hsp Hlen Hload Hcount Hval Hkeys Hproc Hres Hdisj Hpt Hrt Hnp Hnr].
  destruct (DLL_clean_loop_spec NULL (size (mem_dll m)) (mem_dll m)
              (proc_key_list rag) lp Hproc)
    as (d1 & Hclean1 & Hd1); [by eapply dll_repr_length|].
  assert (dll_repr d1 (res_key_list rag) lr) as Hres1.
  { eapply dll_repr_frame; [|exact Hres]. intros a Ha. rewrite Hd1.
    rewrite decide_False; [done|]. intros Hin. by apply (Hdisj a). }
  destruct (DLL_clean_loop_spec NULL (size d1) d1 (res_key_list rag) lr Hres1)
    as (d2 & Hclean2 & Hd2); [by eapply dll_repr_length|].
  rewrite concat_call_if_null in Hclean1, Hclean2.
  unfold RAG_clean, DLL_clean. rewrite Hclean1. simpl. rewrite Hclean2. simpl.
  rewrite (ht_clean_calls _ _ _ Hlen).
  eexists _, _. split; [done|]. split_and!; [| | | |done..].
  - rewrite node_frees_keys by done. exact Hkeys.
  - by rewrite node_frees_values.
  - rewrite Hnp, Hnr. apply Permutation_length in Hkeys.
    rewrite length_fmap, length_app, !length_fmap in Hkeys.
    assert (∀ l : list ht_node,
              length (concat (node_frees free_keys free_values <$> l))
              = (2 * length l)%nat) as Hl.
    { intros l. induction l as [|n l IH]; [done|].
      rewrite fmap_cons. cbn [concat]. rewrite length_app, IH.
      unfold node_frees, call_if.
      destruct (Z.eqb_spec free_keys NULL), (Z.eqb_spec free_values NULL);
        try done. simpl. lia. }
    rewrite Hl. lia.
  - intros a. simpl. rewrite Hd2, Hd1.
    destruct (decide (a ∈ lr.*1)) as [Hr|Hr].
    + rewrite decide_True; [done|]. apply elem_of_app. by right.
    + destruct (decide (a ∈ lp.*1)) as [Hp|Hp].
      * rewrite decide_True; [done|]. apply elem_of_app. by left.
      * rewrite decide_False; [done|]. by intros [?|?]%elem_of_app.
Qed.

Lemma RAG_clean_spec_witness :
  ∃ m' calls,
    RAG_clean example_graph.1 example_graph.2 1001 1002 = Some (m', calls)
    ∧ Z.of_nat (length calls) = 6
    ∧ call_arg <$> filter (λ c, call_fn c = 1002) calls
      = ht_value <$> ht_nodes (rag_ht example_graph.2).
Proof.
  assert (∃ lp lr, rag_ok example_graph.1 example_graph.2 lp lr)
    as (lp & lr & Hok).
  { destruct (RAG_run_ok [RInsert 2 0 0; RInsert 1 11 1; RInsert 3 33 1]
                example_memory (RAG_create addr_compare addr_hash) [] []
                (RAG_create_ok _ _ _))
      as (m' & rag' & lp & lr & Hrun & Hok & _).
    - by vm_compute.
    - by vm_compute.
    - repeat constructor; simpl; eexists; vm_compute; reflexivity.
    - exists lp, lr. unfold example_graph. by rewrite Hrun. }
  destruct (RAG_clean_spec example_graph.1 example_graph.2 lp lr 1001 1002 Hok)
    as (m' & calls & Hclean & _ & Hv & Hlen & _); [by vm_compute..|].
  exists m', calls. split_and!; [done | | done].
  rewrite Hlen. vm_compute; reflexivity.
Defined.

(** ** The counters as public operations *)

(** The counter of a type, and the other type. *)
Definition RAG_counter (rag : RAG_t) (type : type_t) : Z :=
  match type with
  | PROCESS_T => n_processes rag
  | RESOURCE_T => n_resources rag
  end.

Definition other_type (type : type_t) : type_t :=
  match type with PROCESS_T => RESOURCE_T | RESOURCE_T => PROCESS_T end.

(** X20.  [RAG_increment] adds one to the counter of its type and
    [RAG_decrement] takes one off, except at zero, where it does nothing;
    both leave the counter of the other type, the node table and the
    order lists alone.  So below [SIZE_MAX] a decrement undoes an
    increment, and an increment undoes a decrement exactly when the
    counter was not zero. *)
Theorem RAG_increment_decrement (rag : RAG_t) (type : type_t) :
  0 ≤ n_processes rag < 2 ^ 64 - 1 → 0 ≤ n_resources rag < 2 ^ 64 - 1 →
  let inc := RAG_increment rag type in
  let dec := RAG_decrement rag type in
  RAG_counter inc type = RAG_counter rag type + 1
  ∧ RAG_counter dec type = Z.max 0 (RAG_counter rag type - 1)
  ∧ RAG_counter inc (other_type type) = RAG_counter rag (other_type type)
  ∧ RAG_counter dec (other_type type) = RAG_counter rag (other_type type)
  ∧ (rag_ht inc, proc_key_list inc, res_key_list inc)
    = (rag_ht rag, proc_key_list rag, res_key_list rag)
  ∧ (rag_ht dec, proc_key_list dec, res_key_list dec)
    = (rag_ht rag, proc_key_list rag, res_key_list rag)
  ∧ RAG_decrement inc type = rag
  ∧ (RAG_counter rag type = 0 → dec = rag)
  ∧ (RAG_increment dec type = rag ↔ RAG_counter rag type ≠ 0).
Proof.
  intros Hp Hr. destruct rag as [ht pl rl np nr]. simpl in Hp, Hr.
  assert (2 ^ 64 - 1 < 2 ^ 64) as Hpow by lia.
  destruct type; cbv zeta; unfold RAG_increment, RAG_decrement, RAG_counter;
    cbn [other_type n_processes n_resources rag_ht proc_key_list res_key_list].
  - rewrite (wrap_small (np + 1)) by lia.
    destruct (Z.ltb_spec 0 (np + 1)); [|lia].
    destruct (Z.ltb_spec 0 np);
      cbn [n_processes n_resources rag_ht proc_key_list res_key_list];
      rewrite ?wrap_small by lia.
    + split_and!; try done; try lia.
      * do 2 f_equal. lia.
      * split; [lia | intros _; do 2 f_equal; lia].
    + assert (np = 0) as -> by lia. split_and!; done.
  - rewrite (wrap_small (nr + 1)) by lia.
    destruct (Z.ltb_spec 0 (nr + 1)); [|lia].
    destruct (Z.ltb_spec 0 nr);
      cbn [n_processes n_resources rag_ht proc_key_list res_key_list];
      rewrite ?wrap_small by lia.
    + split_and!; try done; try lia.
      * do 2 f_equal. lia.
      * split; [lia | intros _; do 2 f_equal; lia].
    + assert (nr = 0) as -> by lia. split_and!; done.
Qed.

Lemma RAG_increment_decrement_witness :
  let rag := RAG_increment (RAG_create addr_compare addr_hash) RESOURCE_T in
  RAG_decrement (RAG_increment rag PROCESS_T) PROCESS_T = rag
  ∧ RAG_decrement rag PROCESS_T = rag
  ∧ n_resources (RAG_decrement rag PROCESS_T) = 1
  ∧ n_processes (RAG_increment (RAG_decrement rag PROCESS_T) PROCESS_T) = 1.
Proof.
  intros rag.
  destruct (RAG_increment_decrement rag PROCESS_T)
    as (_ & _ & _ & H4 & _ & _ & H7 & H8 & _); [by vm_compute..|].
  split_and!; [exact H7 | by apply H8 | | vm_compute; reflexivity].
  change (RAG_counter (RAG_decrement rag PROCESS_T) (other_type PROCESS_T) = 1).
  by rewrite H4.
Defined.

(** * Properties of the stack *)

(** ** The stack a memory holds *)

(** [stack_chain m cur l]: from [cur], the nodes at the addresses of [l]
    are linked in this order, hold the data of [l], and the last [next]
    is [NULL]. *)
Fixpoint stack_chain (m : gmap Z stack_node) (cur : ptr)
    (l : list (ptr * ptr)) : Prop :=
  match l with
  | [] => cur = NULL
  | (a, d) :: l' =>
      cur = a ∧ a ≠ NULL
      ∧ ∃ nx, m !! a = Some (StackNode d nx) ∧ stack_chain m nx l'
  end.

Definition stack_repr (m : gmap Z stack_node) (stack : stack_t)
    (l : list (ptr * ptr)) : Prop :=
  stack_chain m (stack_head stack) l ∧ NoDup l.*1.

Lemma stack_chain_frame m m' cur l :
  (∀ a, a ∈ l.*1 → m' !! a = m !! a) →
  stack_chain m cur l → stack_chain m' cur l.
Proof.
  revert cur. induction l as [|[a d] l IH]; intros cur Hf; simpl; [done|].
  intros (-> & Ha & nx & Hm & Hc). split_and!; [done..|].
  exists nx. split.
  - rewrite Hf; [done | by left].
  - apply IH; [|done]. intros b Hb. apply Hf. by right.
Qed.

Lemma stack_chain_dom m cur l a :
  stack_chain m cur l → a ∈ l.*1 → is_Some (m !! a).
Proof.
  revert cur. induction l as [|[b d] l IH]; intros cur; simpl.
  - by intros _ ?%elem_of_nil.
  - intros (-> & Hb & nx & Hm & Hc) [->|Ha]%elem_of_cons; [by eauto|].
    by eapply IH.
Qed.

Lemma stack_repr_nil m : stack_repr m stack_create [].
Proof. split; [done | constructor]. Qed.

Lemma stack_push_repr m stack l data :
  stack_repr m stack l →
  stack_repr (stack_push m stack data).1 (stack_push m stack data).2
             ((malloc m, data) :: l).
Proof.
  intros [Hc Hnd]. pose proof (malloc_fresh m) as Hf.
  assert (malloc m ∉ l.*1) as Hnew.
  { intros Hin. destruct (stack_chain_dom _ _ _ _ Hc Hin) as [? E].
    congruence. }
  split; [|by apply NoDup_cons]. simpl.
  split_and!; [done | apply malloc_not_null |].
  exists (stack_head stack). split; [by rewrite lookup_insert_eq|].
  eapply stack_chain_frame; [|done]. intros a Ha.
  rewrite lookup_insert_ne; [done|]. by intros <-.
Qed.

Lemma stack_pop_repr m stack a d l :
  stack_repr m stack ((a, d) :: l) →
  ∃ stack', stack_pop m stack = Some (delete a m, stack', d)
            ∧ (∀ free_data,
                 stack_pop_free m stack free_data
                 = Some (delete a m, stack', call_if free_data d))
            ∧ stack_peek m stack = Some d
            ∧ stack_is_empty stack = false
            ∧ stack_repr (delete a m) stack' l.
Proof.
  intros [Hc Hnd]. simpl in Hc, Hnd. destruct Hc as (Hh & Ha & nx & Hm & Hc).
  apply NoDup_cons in Hnd as [Hal Hnd].
  exists (Stack nx). unfold stack_pop, stack_pop_free, stack_peek, stack_is_empty.
  rewrite Hh. destruct (Z.eqb_spec a NULL) as [|_]; [done|].
  rewrite Hm. simpl. split_and!; [done..|].
  split; [|done]. simpl. eapply stack_chain_frame; [|done].
  intros b Hb. rewrite lookup_delete_ne; [done|]. by intros <-.
Qed.

(** ** Push, pop, peek *)

(** X21.  Last in, first out: after [stack_push] the stack is not empty,
    [stack_peek] returns the value pushed, and [stack_pop] returns it and
    restores the memory and the stack exactly as they were before the
    push. *)
Theorem stack_push_pop (m : gmap Z stack_node) (stack : stack_t) (data : ptr) :
  let m1 := (stack_push m stack data).1 in
  let stack1 := (stack_push m stack data).2 in
  stack_is_empty stack1 = false
  ∧ stack_peek m1 stack1 = Some data
  ∧ stack_pop m1 stack1 = Some (m, stack, data).
Proof.
  pose proof (malloc_not_null m) as Hn. pose proof (malloc_fresh m) as Hf.
  unfold stack_is_empty, stack_peek, stack_pop, stack_push. simpl.
  destruct (Z.eqb_spec (malloc m) NULL) as [|_]; [done|].
  rewrite lookup_insert_eq. simpl. split_and!; [done..|].
  rewrite delete_insert_eq, delete_id by done. by destruct stack.
Qed.

(** X22.  The empty stack: [stack_pop] and [stack_peek] return [NULL] and
    change nothing, and [stack_clean] makes no call; [stack_pop_free] has
    no such test and reads through the [NULL] head. *)
Theorem stack_empty (m : gmap Z stack_node) (stack : stack_t)
    (free_data : ptr) :
  stack_is_empty stack = true → m !! NULL = None →
  stack_pop m stack = Some (m, stack, NULL)
  ∧ stack_peek m stack = Some NULL
  ∧ stack_clean m stack free_data = Some (m, [])
  ∧ stack_pop_free m stack free_data = None.
Proof.
  unfold stack_is_empty. intros He Hnull.
  unfold stack_pop, stack_peek, stack_clean, stack_pop_free.
  rewrite He. split_and!; [done..| |].
  - destruct (size m); simpl; unfold stack_is_empty; by rewrite He.
  - apply Z.eqb_eq in He. by rewrite He, Hnull.
Qed.

Lemma stack_empty_witness :
  stack_pop ∅ stack_create = Some (∅, stack_create, NULL)
  ∧ stack_pop_free ∅ stack_create 100 = None.
Proof.
  destruct (stack_empty ∅ stack_create 100) as (H1 & _ & _ & H2);
    [vm_compute; reflexivity | done |].
  by split.
Defined.

(** ** Stacks made from arrays and lists *)

(** A client that pops [n] values and collects them. *)
Fixpoint stack_drain (n : nat) (m : gmap Z stack_node) (stack : stack_t)
  : option (gmap Z stack_node * stack_t * list ptr) :=
  match n with
  | O => Some (m, stack, [])
  | S n' =>
      '(m1, stack1, d) ← stack_pop m stack;
      '(m2, stack2, ds) ← stack_drain n' m1 stack1;
      Some (m2, stack2, d :: ds)
  end.

Lemma stack_drain_repr l : ∀ m stack,
  stack_repr m stack l →
  ∃ m' stack', stack_drain (length l) m stack = Some (m', stack', l.*2)
               ∧ stack_is_empty stack' = true.
Proof.
  induction l as [|[a d] l IH]; intros m stack Hrepr.
  - exists m, stack. split; [done|]. destruct Hrepr as [Hc _]. simpl in Hc.
    unfold stack_is_empty. by rewrite Hc.
  - destruct (stack_pop_repr _ _ _ _ _ Hrepr) as (s1 & Hpop & _ & _ & _ & Hr1).
    destruct (IH _ _ Hr1) as (m' & s' & Hdrain & He).
    exists m', s'. csimpl. rewrite Hpop. csimpl. rewrite Hdrain. done.
Qed.

Lemma stack_push_array_repr node_array rounds : ∀ i m stack l,
  stack_repr m stack l →
  ∃ l',
    stack_repr (stack_push_array rounds i m stack node_array).1
               (stack_push_array rounds i m stack node_array).2 (l' ++ l)
    ∧ l'.*2 = rev (node_array <$> seq i rounds).
Proof.
  induction rounds as [|rounds IH]; intros i m stack l Hrepr.
  - by exists [].
  - pose proof (stack_push_repr m stack l (node_array i) Hrepr) as Hr1.
    destruct (IH (S i) _ _ _ Hr1) as (l' & Hr' & Hl').
    exists (l' ++ [(malloc m, node_array i)]). split.
    + cbn [stack_push_array]. by rewrite <- app_assoc.
    + rewrite fmap_app, Hl'. done.
Qed.

(** X23.  [stack_create_from_array] pushes the words at the indices
    [0 .. n_nodes - 1] of the array pointer in index order, and nothing
    else: they are popped last to first and the stack is empty after
    [n_nodes] pops.  [n_nodes] is the only bound of the loop; the length
    of the caller's array plays no part. *)
Theorem stack_create_from_array_order (m : gmap Z stack_node)
    (node_array : nat → ptr) (n_nodes : Z) :
  0 ≤ n_nodes →
  let m1 := (stack_create_from_array m node_array n_nodes).1 in
  let stack1 := (stack_create_from_array m node_array n_nodes).2 in
  ∃ m2 stack2,
    stack_drain (Z.to_nat n_nodes) m1 stack1
    = Some (m2, stack2, rev (node_array <$> seq 0 (Z.to_nat n_nodes)))
    ∧ stack_is_empty stack2 = true
    ∧ (stack_is_empty stack1 = true ↔ n_nodes = 0).
Proof.
  intros Hn. cbv zeta. unfold stack_create_from_array.
  destruct (stack_push_array_repr node_array (Z.to_nat n_nodes) 0 m
              stack_create [] (stack_repr_nil m)) as (l & Hrepr & Hl).
  rewrite app_nil_r in Hrepr.
  destruct (stack_drain_repr l _ _ Hrepr) as (m2 & s2 & Hdrain & He).
  assert (length l = Z.to_nat n_nodes) as Hlen.
  { by rewrite <- (length_fmap snd), Hl, length_rev, length_fmap, length_seq. }
  exists m2, s2. split_and!; [| done |].
  - rewrite <- Hl. rewrite <- Hlen at 1. exact Hdrain.
  - destruct Hrepr as [Hc _]. unfold stack_is_empty.
    destruct l as [|[a d] l]; simpl in Hc, Hlen.
    + rewrite Hc. split; [lia | done].
    + destruct Hc as (-> & Ha & _).
      destruct (Z.eqb_spec a NULL) as [|_]; [done|]. split; [done | lia].
Qed.

Lemma stack_create_from_array_order_witness :
  let m1 := (stack_create_from_array ∅ (array_of [10; 20; 30]) 2).1 in
  let stack1 := (stack_create_from_array ∅ (array_of [10; 20; 30]) 2).2 in
  (∃ m2 stack2, stack_drain 2 m1 stack1 = Some (m2, stack2, [20; 10]))
  ∧ ∃ m2 stack2,
      stack_drain 4 (stack_create_from_array ∅ (array_of [10; 20; 30]) 4).1
                    (stack_create_from_array ∅ (array_of [10; 20; 30]) 4).2
      = Some (m2, stack2, [NULL; 30; 20; 10]).
Proof.
  destruct (stack_create_from_array_order ∅ (array_of [10; 20; 30]) 2)
    as (m2 & s2 & H2 & _); [lia|].
  destruct (stack_create_from_array_order ∅ (array_of [10; 20; 30]) 4)
    as (m4 & s4 & H4 & _); [lia|].
  split; [by exists m2, s2 | by exists m4, s4].
Defined.

(** The caller's list, as [get_next] walks it from [node]. *)
Fixpoint linked (get_next : ptr → ptr) (node : ptr) (nodes : list ptr) : Prop :=
  match nodes with
  | [] => node = NULL
  | x :: rest => node = x ∧ x ≠ NULL ∧ linked get_next (get_next x) rest
  end.

Lemma stack_push_linkedlist_repr get_next nodes : ∀ fuel node m stack l,
  stack_repr m stack l → linked get_next node nodes →
  (length nodes ≤ fuel)%nat →
  ∃ m' stack' l',
    stack_push_linkedlist fuel m stack node get_next = Some (m', stack')
    ∧ stack_repr m' stack' (l' ++ l) ∧ l'.*2 = rev nodes.
Proof.
  induction nodes as [|x nodes IH]; intros fuel node m stack l Hrepr Hlk Hlen.
  - simpl in Hlk. subst node. exists m, stack, []. by destruct fuel.
  - simpl in Hlk. destruct Hlk as (-> & Hx & Hlk).
    destruct fuel as [|fuel]; [simpl in Hlen; lia|].
    pose proof (stack_push_repr m stack l x Hrepr) as Hr1.
    destruct (IH fuel _ _ _ _ Hr1 Hlk) as (m' & s' & l' & Hrun & Hr' & Hl');
      [simpl in Hlen; lia|].
    exists m', s', (l' ++ [(malloc m, x)]).
    split_and!; [| by rewrite <- app_assoc | by rewrite fmap_app, Hl'].
    cbn [stack_push_linkedlist].
    destruct (Z.eqb_spec x NULL) as [|_]; [done|]. exact Hrun.
Qed.

(** X24.  [stack_create_from_linkedlist] pushes the nodes of the caller's
    list in list order, so they are popped last to first; on a list that
    never reaches [NULL] it never returns. *)
Theorem stack_create_from_linkedlist_order (m : gmap Z stack_node)
    (get_next : ptr → ptr) (node : ptr) (nodes : list ptr) :
  (linked get_next node nodes →
   ∀ fuel, (length nodes ≤ fuel)%nat →
     ∃ m1 stack1 m2 stack2,
       stack_create_from_linkedlist fuel m node get_next = Some (m1, stack1)
       ∧ stack_drain (length nodes) m1 stack1 = Some (m2, stack2, rev nodes)
       ∧ stack_is_empty stack2 = true)
  ∧ (node ≠ NULL → (∀ x, x ≠ NULL → get_next x ≠ NULL) →
     ∀ fuel, stack_create_from_linkedlist fuel m node get_next = None).
Proof.
  split.
  - intros Hlk fuel Hlen. unfold stack_create_from_linkedlist.
    destruct (stack_push_linkedlist_repr get_next nodes fuel node m
                stack_create [] (stack_repr_nil m) Hlk Hlen)
      as (m1 & s1 & l & Hrun & Hrepr & Hl).
    rewrite app_nil_r in Hrepr.
    destruct (stack_drain_repr l m1 s1 Hrepr) as (m2 & s2 & Hdrain & He).
    assert (length l = length nodes) as Hlen'.
    { by rewrite <- (length_fmap snd), Hl, length_rev. }
    exists m1, s1, m2, s2. by rewrite <- Hlen', <- Hl.
  - intros Hnode Hcycle fuel. unfold stack_create_from_linkedlist.
    generalize stack_create. revert m node Hnode.
    induction fuel as [|fuel IH]; intros m node Hnode stack;
      cbn [stack_push_linkedlist];
      destruct (Z.eqb_spec node NULL) as [|_]; try done.
    by apply IH, Hcycle.
Qed.

Lemma stack_create_from_linkedlist_order_witness :
  let get_next := λ x : ptr, if x <? 3 then x + 1 else NULL in
  (∃ m1 stack1 m2 stack2,
     stack_create_from_linkedlist 5 ∅ 1 get_next = Some (m1, stack1)
     ∧ stack_drain 3 m1 stack1 = Some (m2, stack2, [3; 2; 1]))
  ∧ stack_create_from_linkedlist 5 ∅ 1 (λ x, x) = None.
Proof.
  intros get_next.
  destruct (stack_create_from_linkedlist_order ∅ get_next 1 [1; 2; 3])
    as [H1 _].
  destruct (stack_create_from_linkedlist_order ∅ (λ x, x) 1 []) as [_ H2].
  split; [|by apply H2].
  destruct (H1 ltac:(by vm_compute) 5%nat)
    as (m1 & s1 & m2 & s2 & Hc & Hd & _); [simpl; lia|].
  by exists m1, s1, m2, s2.
Defined.

(** ** [stack_clean] *)

Lemma stack_repr_length m stack l :
  stack_repr m stack l → (length l ≤ size m)%nat.
Proof.
  intros [Hc Hnd]. rewrite <- (length_fmap fst).
  rewrite <- size_dom. unfold size, set_size. simpl.
  apply submseteq_length, NoDup_submseteq; [done|].
  intros a Ha. apply elem_of_elements, elem_of_dom.
  by apply (stack_chain_dom _ _ _ a Hc).
Qed.

Lemma stack_clean_loop_spec free_data fuel : ∀ m stack l,
  stack_repr m stack l → (length l ≤ fuel)%nat →
  ∃ m', stack_clean_loop fuel m stack free_data
        = Some (m', concat (call_if free_data <$> l.*2))
        ∧ ∀ a, m' !! a = if decide (a ∈ l.*1) then None else m !! a.
Proof.
  induction fuel as [|fuel IH]; intros m stack l Hrepr Hlen.
  - destruct l; [|simpl in Hlen; lia]. destruct Hrepr as [Hc _].
    simpl in Hc. exists m. split.
    + simpl. unfold stack_is_empty. by rewrite Hc.
    + intros a. rewrite decide_False; [done|]. apply not_elem_of_nil.
  - destruct l as [|[a d] l].
    + destruct Hrepr as [Hc _]. simpl in Hc. exists m. split.
      * simpl. unfold stack_is_empty. by rewrite Hc.
      * intros a. rewrite decide_False; [done|]. apply not_elem_of_nil.
    + destruct (stack_pop_repr _ _ _ _ _ Hrepr)
        as (s1 & _ & Hpop & _ & He & Hr1).
      destruct (IH _ s1 l Hr1) as (m' & Hloop & Hm'); [simpl in Hlen; lia|].
      destruct Hrepr as [_ Hnd]. simpl in Hnd.
      apply NoDup_cons in Hnd as [Hal _].
      exists m'. split.
      * cbn [stack_clean_loop]. rewrite He, Hpop. csimpl. rewrite Hloop. done.
      * intros b. rewrite Hm'. rewrite fmap_cons. cbn [fst].
        destruct (decide (b ∈ l.*1)) as [Hb|Hb].
        -- rewrite decide_True; [done | by right].
        -- destruct (decide (b = a)) as [->|Hba].
           ++ rewrite decide_True; [|by left]. by rewrite lookup_delete_eq.
           ++ rewrite decide_False; [by rewrite lookup_delete_ne|].
              by intros [?|?]%elem_of_cons.
Qed.

(** X25.  [stack_clean] empties the stack whatever its height: it calls
    [free_data] exactly once on every value, top to bottom (and calls
    nothing when [free_data] is [NULL]), frees every node of the stack
    and touches no other node. *)
Theorem stack_clean_spec (m : gmap Z stack_node) (stack : stack_t)
    (l : list (ptr * ptr)) (free_data : ptr) :
  stack_repr m stack l →
  ∃ m' calls,
    stack_clean m stack free_data = Some (m', calls)
    ∧ calls = (if free_data =? NULL then [] else Call free_data <$> l.*2)
    ∧ ∀ a, m' !! a = if decide (a ∈ l.*1) then None else m !! a.
Proof.
  intros Hrepr.
  destruct (stack_clean_loop_spec free_data (size m) m stack l Hrepr)
    as (m' & Hloop & Hm'); [by eapply stack_repr_length|].
  exists m', (concat (call_if free_data <$> l.*2)). split_and!; [done | | done].
  destruct (Z.eqb_spec free_data NULL) as [->|Hne].
  - apply concat_call_if_null.
  - by apply concat_call_if.
Qed.

Lemma stack_clean_spec_witness :
  ∃ m1 stack1 m',
    stack_create_from_array ∅ (array_of [10; 20; 30]) 3 = (m1, stack1)
    ∧ stack_clean m1 stack1 100
      = Some (m', [Call 100 30; Call 100 20; Call 100 10]).
Proof.
  destruct (stack_push_array_repr (array_of [10; 20; 30]) 3 0 ∅ stack_create []
              (stack_repr_nil ∅)) as (l & Hrepr & Hl).
  rewrite app_nil_r in Hrepr.
  destruct (stack_clean_spec _ _ l 100 Hrepr) as (m' & calls & Hc & -> & _).
  exists (stack_push_array 3 0 ∅ stack_create (array_of [10; 20; 30])).1,
         (stack_push_array 3 0 ∅ stack_create (array_of [10; 20; 30])).2, m'.
  split; [apply surjective_pairing|]. by rewrite Hc, Hl.
Defined.
